(** * Connect-4 search core: board model, evaluator and the three searches

    A shallow embedding of [connect4.py]: [get_child_boards], [evaluate],
    [minimax], [alphabeta] and [expectimax], over a model of the [Board]
    class the file imports.  Python integers are [Z], [math.inf] is an
    explicit infinity, exceptions and non-termination are an outcome type,
    and the float arithmetic of [expectimax] is a parameter that is
    instantiated once with IEEE binary64 and once with exact rationals. *)

From Stdlib Require Import ZArith List Bool Lia Floats Uint63 QArith Qcanon.
From stdpp Require Import base option list sorting gmap.

Local Open Scope nat_scope.

(** ** Players and slot values *)

Inductive player := PLAYER1 | PLAYER2.

(** A slot holds [EMPTY_SLOT] or the disc of a player: the three flags
    [b.EMPTY_SLOT], [b.PLAYER1], [b.PLAYER2]. *)
Inductive slot := EMPTY_SLOT | Disc (p : player).

(** What [evaluate] stores in a segment: a slot value of the board, or the
    padding value [invalid_slot = -1], which is none of the three flags. *)
Inductive cell := invalid_slot | Cell (s : slot).

#[global] Instance player_eq_dec : EqDecision player.
Proof. solve_decision. Defined.
#[global] Instance slot_eq_dec : EqDecision slot.
Proof. solve_decision. Defined.
#[global] Instance cell_eq_dec : EqDecision cell.
Proof. solve_decision. Defined.

(** [board.PLAYER2 if p == board.PLAYER1 else board.PLAYER1] *)
Definition opponent (p : player) : player :=
  if bool_decide (p = PLAYER1) then PLAYER2 else PLAYER1.

(** ** Outcomes of a call *)

Inductive exn := ZeroDivisionError | ValueError.

(** A call returns a value, raises, or (in the model only) exhausts the
    recursion budget it was given. *)
Inductive outcome (A : Type) :=
| Done (a : A)
| Raise (e : exn)
| OutOfFuel.
Arguments Done {A} a.
Arguments Raise {A} e.
Arguments OutOfFuel {A}.

#[global] Instance outcome_ret : MRet outcome := fun _ a => Done a.

#[global] Instance outcome_bind : MBind outcome := fun _ _ k m =>
  match m with
  | Done a => k a
  | Raise e => Raise e
  | OutOfFuel => OutOfFuel
  end.

#[global] Instance outcome_fmap : FMap outcome := fun _ _ f m =>
  match m with
  | Done a => Done (f a)
  | Raise e => Raise e
  | OutOfFuel => OutOfFuel
  end.

(** ** The Board class *)

Record Board := mkBoard {
  rows : nat;
  cols : nat;
  grid : list (list slot)   (* grid !! r !! c, row 0 at the bottom *)
}.

(** Modelled from the spec: the [Board] class ([utils]) is not part of the
    sources.  The grid is [rows] lists of [cols] slot values. *)
Definition wf_board (b : Board) : bool :=
  bool_decide (length (grid b) = rows b)
  && forallb (fun rw => bool_decide (length rw = cols b)) (grid b).

(** Modelled from the spec: [get(row, col)], the slot value of a cell;
    [None] stands for the IndexError of a cell outside the grid. *)
Definition get (b : Board) (r c : nat) : option slot :=
  rw ← grid b !! r; rw !! c.

(** Modelled from the spec: [occupied(row, col)]. *)
Definition occupied (b : Board) (r c : nat) : bool :=
  bool_decide (get b r c <> Some EMPTY_SLOT).

(** Modelled from the spec: [row(r)], the slot values of a row. *)
Definition row (b : Board) (r : nat) : list slot :=
  default [] (grid b !! r).

(** Modelled from the spec: [col(c)], the slot values of a column
    (the method [evaluate] calls; the docstring names it [column]). *)
Definition col (b : Board) (c : nat) : list slot :=
  flat_map (fun rw => option_list (rw !! c)) (grid b).

(** Modelled from the spec: [placeable(col)] holds iff the column has at
    least one EMPTY cell. *)
Definition placeable (b : Board) (c : nat) : bool :=
  existsb (fun r => negb (occupied b r c)) (seq 0 (rows b)).

Definition set_cell (b : Board) (r c : nat) (v : slot) : Board :=
  {| rows := rows b; cols := cols b;
     grid := alter (fun rw => <[c := v]> rw) r (grid b) |}.

(** Modelled from the spec: [place(player, col)] sets the lowest EMPTY row of
    the column to the player; [None] is the error of a full column. *)
Definition place (p : player) (c : nat) (b : Board) : option Board :=
  match find (fun r => negb (occupied b r c)) (seq 0 (rows b)) with
  | Some r => Some (set_cell b r c (Disc p))
  | None => None
  end.

(** Modelled from the spec: [clone()], an independent copy of the grid.  On
    board values a copy is the value itself; the object-level reading, where
    a clone is a new object, is in [Module Store] below. *)
Definition clone (b : Board) : Board := b.

(** ** Segments of four cells, as [evaluate] builds them *)

Section Segments.
Context {A : Type}.

(** [l[i:i+4]] *)
Definition slice4 (l : list A) (i : nat) : list A := take 4 (drop i l).

Fixpoint zip_star_aux (n : nat) (ls : list (list A)) : list (list A) :=
  match n with
  | O => []
  | S n' =>
      match mapM head ls with
      | Some hs => hs :: zip_star_aux n' (map tail ls)
      | None => []
      end
  end.

(** [zip] of the unpacked list [ls]: its columns, up to the shortest list. *)
Definition zip_star (ls : list (list A)) : list (list A) :=
  match ls with
  | [] => []
  | l :: _ => zip_star_aux (length l) ls
  end.

Variable inv : A.
Variables nrows ncols : nat.
Variables row_of col_of : nat -> list A.

Definition left_revolved : list (list A) :=
  map (fun r => replicate r inv ++ row_of r ++ replicate (nrows - 1 - r) inv)
      (seq 0 nrows).

Definition right_revolved : list (list A) :=
  map (fun r => replicate (nrows - 1 - r) inv ++ row_of r ++ replicate r inv)
      (seq 0 nrows).

(** The list [seg] at the end of the four loops, in append order. *)
Definition segments_of : list (list A) :=
  flat_map (fun r => map (slice4 (row_of r)) (seq 0 (ncols - 3))) (seq 0 nrows)
  ++ flat_map (fun c => map (slice4 (col_of c)) (seq 0 (nrows - 3))) (seq 0 ncols)
  ++ flat_map (fun c => map (slice4 c) (seq 0 (nrows - 3))) (zip_star left_revolved)
  ++ flat_map (fun c => map (slice4 c) (seq 0 (nrows - 3))) (zip_star right_revolved).
End Segments.

Definition segments (b : Board) : list (list cell) :=
  segments_of invalid_slot (rows b) (cols b)
    (fun r => map Cell (row b r)) (fun c => map Cell (col b c)).

(** ** [evaluate] *)

Definition weights : list Z := [0; 1; 4; 16; 1000]%Z.

(** [s.count(x)] *)
Definition count_of (x : cell) (s : list cell) : nat :=
  length (filter (fun y => y = x) s).

Definition disc (p : player) : cell := Cell (Disc p).

(** One iteration of [for s in seg], on the pair [(score, adv_score)]. *)
Definition tally (p adversary : player) (acc : list Z * list Z) (s : list cell)
  : list Z * list Z :=
  if bool_decide (invalid_slot ∈ s) then acc
  else
    let score :=
      if bool_decide (disc adversary ∈ s) then acc.1
      else alter (Z.add 1) (count_of (disc p) s) acc.1 in
    let adv_score :=
      if bool_decide (disc p ∈ s) then acc.2
      else alter (Z.add 1) (count_of (disc adversary) s) acc.2 in
    (score, adv_score).

(** [sum([s*w for s, w in zip(score, weights)])] *)
Definition weighted (score : list Z) : Z :=
  foldr Z.add 0%Z (zip_with Z.mul score weights).

Definition evaluate (p : player) (b : Board) : Z :=
  let adversary := if bool_decide (p = PLAYER1) then PLAYER2 else PLAYER1 in
  let '(score, adv_score) :=
    fold_left (tally p adversary) (segments b)
              (replicate 5 0%Z, replicate 5 0%Z) in
  (weighted score - weighted adv_score)%Z.

(** ** Win, draw and terminal detection *)

(** The player holding all four cells of a segment, if any. *)
Definition segment_winner (s : list cell) : option player :=
  match s with
  | [Cell (Disc p); x2; x3; x4] =>
      if bool_decide (x2 = disc p) && bool_decide (x3 = disc p)
         && bool_decide (x4 = disc p)
      then Some p else None
  | _ => None
  end.

(** Modelled from the spec: [who_wins()] scans the 4-cell segments of the
    board and returns the first player found with four in a row. *)
Definition who_wins (b : Board) : option player :=
  list_find (fun s => is_Some (segment_winner s)) (segments b)
    ≫= fun '(_, s) => segment_winner s.

Definition full (b : Board) : bool :=
  forallb (fun r => forallb (fun c => occupied b r c) (seq 0 (cols b)))
          (seq 0 (rows b)).

(** Modelled from the spec: [has_draw()], every cell occupied and no winner. *)
Definition has_draw (b : Board) : bool :=
  full b && bool_decide (who_wins b = None).

(** Modelled from the spec: [terminal()], a draw or a winner. *)
Definition terminal (b : Board) : bool :=
  has_draw b || bool_decide (who_wins b <> None).

(** ** [get_child_boards] *)

Fixpoint child_loop (p : player) (b : Board) (cs : list nat)
    (res : list (nat * Board)) : outcome (list (nat * Board)) :=
  match cs with
  | [] => Done res
  | c :: cs' =>
      if placeable b c then
        match place p c (clone b) with
        | Some tmp_board => child_loop p b cs' (res ++ [(c, tmp_board)])
        | None => Raise ValueError
        end
      else child_loop p b cs' res
  end.

Definition get_child_boards (p : player) (b : Board)
  : outcome (list (nat * Board)) :=
  child_loop p b (seq 0 (cols b)) [].

(** The successors as a list: one per placeable column, in column order
    (what [get_child_boards] returns, see [get_child_boards_children]). *)
Definition children (p : player) (b : Board) : list (nat * Board) :=
  omap (fun c => if placeable b c then pair c <$> place p c b else None)
       (seq 0 (cols b)).

(** Boards for examples. *)
Definition empty_board (r c : nat) : Board :=
  mkBoard r c (replicate r (replicate c EMPTY_SLOT)).

(** Drop the discs of an alternating game, PLAYER1 first, column by column;
    a move into a full column is skipped. *)
Fixpoint play (p : player) (moves : list nat) (b : Board) : Board :=
  match moves with
  | [] => b
  | c :: ms => play (opponent p) ms (default b (place p c b))
  end.

(** The number of EMPTY cells of the grid: the recursion budget of a search
    that the depth limit does not cut off. *)
Definition count_empty (rw : list slot) : nat :=
  length (filter (fun s => s = EMPTY_SLOT) rw).

Definition empty_cells (b : Board) : nat :=
  sum_list (map count_empty (grid b)).

(** ** Scores of [minimax] and [alphabeta]: integers and [math.inf] *)

Inductive score := NegInf | Fin (z : Z) | PosInf.

(** [a < b] on Python numbers that are integers or infinities. *)
Definition score_lt (a b : score) : bool :=
  match a, b with
  | NegInf, NegInf => false
  | NegInf, _ => true
  | Fin _, NegInf => false
  | Fin x, Fin y => (x <? y)%Z
  | Fin _, PosInf => true
  | PosInf, _ => false
  end.

(** [a > b], [a >= b] and [a <= b] *)
Definition score_gt (a b : score) : bool := score_lt b a.
Definition score_ge (a b : score) : bool := negb (score_lt a b).
Definition score_le (a b : score) : bool := negb (score_lt b a).

(** [max(a, b)] and [min(a, b)]: the first argument unless the second is
    strictly better. *)
Definition score_max (a b : score) : score := if score_gt b a then b else a.
Definition score_min (a b : score) : score := if score_lt b a then b else a.

(** ** [minimax] *)

Module Minimax.
Section Closures.
Variable max_player : player.

(** The loop of [max_value], from [max_score] on. *)
Fixpoint max_loop (value : Board -> outcome score)
    (children : list (nat * Board)) (max_score : score) : outcome score :=
  match children with
  | [] => Done max_score
  | (_, child_board) :: rest =>
      score ← value child_board;
      max_loop value rest (if score_gt score max_score then score else max_score)
  end.

Fixpoint min_loop (value : Board -> outcome score)
    (children : list (nat * Board)) (min_score : score) : outcome score :=
  match children with
  | [] => Done min_score
  | (_, child_board) :: rest =>
      score ← value child_board;
      min_loop value rest (if score_lt score min_score then score else min_score)
  end.

Definition max_value (value : player -> Board -> Z -> outcome score)
    (current_player : player) (current_board : Board) (depth : Z)
  : outcome score :=
  let next_player := opponent current_player in
  children ← get_child_boards current_player current_board;
  max_loop (fun child => value next_player child (depth - 1)%Z) children NegInf.

Definition min_value (value : player -> Board -> Z -> outcome score)
    (current_player : player) (current_board : Board) (depth : Z)
  : outcome score :=
  let next_player := opponent current_player in
  children ← get_child_boards current_player current_board;
  min_loop (fun child => value next_player child (depth - 1)%Z) children PosInf.

(** [value], with the recursion budget [fuel] of the model. *)
Fixpoint value (fuel : nat) (current_player : player) (current_board : Board)
    (depth : Z) : outcome score :=
  match fuel with
  | O => OutOfFuel
  | S fuel' =>
      if terminal current_board || (depth =? 0)%Z then
        Done (Fin (evaluate max_player current_board))
      else if bool_decide (current_player = max_player) then
        max_value (value fuel') current_player current_board depth
      else
        min_value (value fuel') current_player current_board depth
  end.

(** The loop of the top level, on [(placement, best_score)]. *)
Fixpoint top_loop (value : Board -> outcome score)
    (children : list (nat * Board)) (placement : option nat)
    (best_score : score) : outcome (option nat * score) :=
  match children with
  | [] => Done (placement, best_score)
  | (col, child_board) :: rest =>
      score ← value child_board;
      if score_gt score best_score
      then top_loop value rest (Some col) score
      else top_loop value rest placement best_score
  end.
End Closures.

(** The body of [minimax]: the final [(placement, best_score)]. *)
Definition run (fuel : nat) (player : player) (board : Board) (depth_limit : Z)
  : outcome (option nat * score) :=
  let max_player := player in
  children ← get_child_boards player board;
  let next_player := opponent player in
  top_loop (fun child => value max_player fuel next_player child (depth_limit - 1)%Z)
           children None NegInf.
End Minimax.

(** A budget that no search on [board] exhausts (see [minimax_total]). *)
Definition search_fuel (board : Board) : nat := S (empty_cells board).

Definition minimax (player : player) (board : Board) (depth_limit : Z)
  : outcome (option nat) :=
  fst <$> Minimax.run (search_fuel board) player board depth_limit.

(** ** [alphabeta] *)

Module AlphaBeta.
Section Closures.
Variable max_player : player.

Fixpoint max_loop (value : Board -> score -> score -> outcome score)
    (children : list (nat * Board)) (max_score alpha beta : score)
  : outcome score :=
  match children with
  | [] => Done max_score
  | (_, child_board) :: rest =>
      score ← value child_board alpha beta;
      let max_score := score_max max_score score in
      if score_ge max_score beta then Done max_score
      else max_loop value rest max_score (score_max alpha max_score) beta
  end.

Fixpoint min_loop (value : Board -> score -> score -> outcome score)
    (children : list (nat * Board)) (min_score alpha beta : score)
  : outcome score :=
  match children with
  | [] => Done min_score
  | (_, child_board) :: rest =>
      score ← value child_board alpha beta;
      let min_score := score_min min_score score in
      if score_le min_score alpha then Done min_score
      else min_loop value rest min_score alpha (score_min beta min_score)
  end.

Definition max_value (value : player -> Board -> Z -> score -> score -> outcome score)
    (current_player : player) (current_board : Board) (depth : Z)
    (alpha beta : score) : outcome score :=
  let next_player := opponent current_player in
  children ← get_child_boards current_player current_board;
  max_loop (fun child => value next_player child (depth - 1)%Z)
           children NegInf alpha beta.

Definition min_value (value : player -> Board -> Z -> score -> score -> outcome score)
    (current_player : player) (current_board : Board) (depth : Z)
    (alpha beta : score) : outcome score :=
  let next_player := opponent current_player in
  children ← get_child_boards current_player current_board;
  min_loop (fun child => value next_player child (depth - 1)%Z)
           children PosInf alpha beta.

Fixpoint value (fuel : nat) (current_player : player) (current_board : Board)
    (depth : Z) (alpha beta : score) : outcome score :=
  match fuel with
  | O => OutOfFuel
  | S fuel' =>
      if terminal current_board || (depth =? 0)%Z then
        Done (Fin (evaluate max_player current_board))
      else if bool_decide (current_player = max_player) then
        max_value (value fuel') current_player current_board depth alpha beta
      else
        min_value (value fuel') current_player current_board depth alpha beta
  end.

(** The loop of the top level, on [(placement, best_score, alpha)];
    [beta] stays [math.inf]. *)
Fixpoint top_loop (value : Board -> score -> score -> outcome score)
    (children : list (nat * Board)) (placement : option nat)
    (best_score alpha beta : score) : outcome (option nat * score) :=
  match children with
  | [] => Done (placement, best_score)
  | (col, child_board) :: rest =>
      score ← value child_board alpha beta;
      if score_gt score best_score
      then top_loop value rest (Some col) score (score_max alpha score) beta
      else top_loop value rest placement best_score
                    (score_max alpha best_score) beta
  end.
End Closures.

Definition run (fuel : nat) (player : player) (board : Board) (depth_limit : Z)
  : outcome (option nat * score) :=
  let max_player := player in
  let alpha := NegInf in
  let beta := PosInf in
  children ← get_child_boards player board;
  let next_player := opponent player in
  top_loop (fun child => value max_player fuel next_player child (depth_limit - 1)%Z)
           children None NegInf alpha beta.
End AlphaBeta.

Definition alphabeta (player : player) (board : Board) (depth_limit : Z)
  : outcome (option nat) :=
  fst <$> AlphaBeta.run (search_fuel board) player board depth_limit.

(** ** [expectimax] *)

(** The arithmetic [expectimax] runs on.  Its scores mix integers (from
    [evaluate]) and floats ([-math.inf], products with [prob]); [of_int] is
    the conversion Python applies where the two meet. *)
Class Arith (F : Type) := {
  of_int : Z -> F;
  neg_inf : F;
  fadd : F -> F -> F;
  fmul : F -> F -> F;
  fdiv : F -> F -> F;
  fgt : F -> F -> bool;
}.

Module Expectimax.
Section Closures.
Context {F : Type} `{Arith F}.
Variable max_player : player.

Fixpoint max_loop (value : Board -> outcome F)
    (children : list (nat * Board)) (max_score : F) : outcome F :=
  match children with
  | [] => Done max_score
  | (_, child_board) :: rest =>
      score ← value child_board;
      (* max(max_score, score) *)
      max_loop value rest (if fgt score max_score then score else max_score)
  end.

Fixpoint sum_loop (value : Board -> outcome F)
    (children : list (nat * Board)) (prob total_value : F) : outcome F :=
  match children with
  | [] => Done total_value
  | (_, child_board) :: rest =>
      v ← value child_board;
      sum_loop value rest prob (fadd total_value (fmul prob v))
  end.

Definition max_value (value : player -> Board -> Z -> outcome F)
    (current_player : player) (current_board : Board) (depth : Z)
  : outcome F :=
  let next_player := opponent current_player in
  children ← get_child_boards current_player current_board;
  max_loop (fun child => value next_player child (depth - 1)%Z) children neg_inf.

Definition expected_value (value : player -> Board -> Z -> outcome F)
    (current_player : player) (current_board : Board) (depth : Z)
  : outcome F :=
  let total_value := of_int 0 in
  child_boards ← get_child_boards current_player current_board;
  match child_boards with
  | [] => Raise ZeroDivisionError          (* 1 / len(child_boards) *)
  | _ =>
      let prob := fdiv (of_int 1) (of_int (Z.of_nat (length child_boards))) in
      let next_player := opponent current_player in
      sum_loop (fun child => value next_player child (depth - 1)%Z)
               child_boards prob total_value
  end.

Fixpoint value (fuel : nat) (current_player : player) (current_board : Board)
    (depth : Z) : outcome F :=
  match fuel with
  | O => OutOfFuel
  | S fuel' =>
      if terminal current_board || (depth =? 0)%Z then
        Done (of_int (evaluate max_player current_board))
      else if bool_decide (current_player = max_player) then
        max_value (value fuel') current_player current_board depth
      else
        expected_value (value fuel') current_player current_board depth
  end.

Fixpoint top_loop (value : Board -> outcome F)
    (children : list (nat * Board)) (placement : option nat)
    (best_score : F) : outcome (option nat * F) :=
  match children with
  | [] => Done (placement, best_score)
  | (col, child_board) :: rest =>
      score ← value child_board;
      if fgt score best_score
      then top_loop value rest (Some col) score
      else top_loop value rest placement best_score
  end.
End Closures.

Definition run {F} `{Arith F} (fuel : nat) (player : player) (board : Board)
    (depth_limit : Z) : outcome (option nat * F) :=
  let max_player := player in
  children ← get_child_boards player board;
  let next_player := opponent player in
  top_loop (fun child => value max_player fuel next_player child (depth_limit - 1)%Z)
           children None neg_inf.
End Expectimax.

Definition expectimax F `{Arith F} (player : player) (board : Board)
    (depth_limit : Z) : outcome (option nat) :=
  fst <$> Expectimax.run (F:=F) (search_fuel board) player board depth_limit.

(** *** IEEE binary64, the arithmetic of Python's floats *)

(** [float(z)], for integers below [2^63] in absolute value. *)
Definition float_of_Z (z : Z) : float :=
  match z with
  | Z0 => PrimFloat.zero
  | Zpos _ => PrimFloat.of_uint63 (Uint63.of_Z z)
  | Zneg _ => PrimFloat.opp (PrimFloat.of_uint63 (Uint63.of_Z (- z)))
  end.

#[global] Instance binary64 : Arith float := {|
  of_int := float_of_Z;
  neg_inf := PrimFloat.neg_infinity;
  fadd := PrimFloat.add;
  fmul := PrimFloat.mul;
  fdiv := PrimFloat.div;
  fgt := fun a b => PrimFloat.ltb b a;
|}.

(** *** Exact arithmetic: rationals and [-math.inf], no rounding

    An idealisation, not the arithmetic of the code.  It gives the scores of
    the code where no expectation node rounds: where every score is an
    integer of [evaluate] (depth limit 1, or successors with integer scores).
    Below an averaging node the code rounds, and its choice can differ from
    the exact one; statements about the program are made for [binary64]. *)

Inductive exact := ENegInf | EFin (q : Qc).

Definition exact_of_Z (z : Z) : exact := EFin (Qc_of_Z z).

Definition exact_add (a b : exact) : exact :=
  match a, b with
  | EFin x, EFin y => EFin (x + y)%Qc
  | _, _ => ENegInf
  end.

(** Only positive factors meet [-math.inf] in [expectimax]. *)
Definition exact_mul (a b : exact) : exact :=
  match a, b with
  | EFin x, EFin y => EFin (x * y)%Qc
  | _, _ => ENegInf
  end.

Definition exact_div (a b : exact) : exact :=
  match a, b with
  | EFin x, EFin y => EFin (x / y)%Qc
  | _, _ => ENegInf
  end.

Definition exact_gt (a b : exact) : bool :=
  match a, b with
  | ENegInf, _ => false
  | EFin _, ENegInf => true
  | EFin x, EFin y => bool_decide (y < x)%Qc
  end.

#[global] Instance exact_arith : Arith exact := {|
  of_int := exact_of_Z;
  neg_inf := ENegInf;
  fadd := exact_add;
  fmul := exact_mul;
  fdiv := exact_div;
  fgt := exact_gt;
|}.

(** ** Boards as mutable objects

    The functions above work on board values.  In Python a board is an object
    that [place] mutates in place and [clone] copies.  This module repeats
    [get_child_boards] and the three searches on a store of board objects,
    threading the store through every call, so that what a call does to the
    objects it was handed can be stated. *)

Module Store.

Abbreviation loc := nat (only parsing).
Abbreviation store := (gmap nat Board) (only parsing).

(** The object a name is bound to.  A name bound to no object does not occur
    in Python; the model raises on it. *)
Definition deref (l : loc) (h : store) : outcome Board :=
  match h !! l with
  | Some b => Done b
  | None => Raise ValueError
  end.

(** [board.clone()]: a new object holding a copy of the grid. *)
Definition clone (l : loc) (h : store) : outcome (loc * store) :=
  b ← deref l h;
  let l' := fresh (dom h) in
  Done (l', <[l' := b]> h).

(** [board.place(player, c)]: the object itself changes. *)
Definition place (p : player) (c : nat) (l : loc) (h : store) : outcome store :=
  b ← deref l h;
  match place p c b with
  | Some b' => Done (<[l := b']> h)
  | None => Raise ValueError
  end.

Fixpoint child_loop (p : player) (board : loc) (cs : list nat)
    (res : list (nat * loc)) (h : store) : outcome (list (nat * loc) * store) :=
  match cs with
  | [] => Done (res, h)
  | c :: cs' =>
      b ← deref board h;
      if placeable b c then
        '(tmp_board, h1) ← clone board h;
        h2 ← place p c tmp_board h1;
        child_loop p board cs' (res ++ [(c, tmp_board)]) h2
      else child_loop p board cs' res h
  end.

Definition get_child_boards (p : player) (board : loc) (h : store)
  : outcome (list (nat * loc) * store) :=
  b ← deref board h;
  child_loop p board (seq 0 (cols b)) [] h.

(** [current_board.terminal()] and [evaluate(max_player, current_board)]
    only read the object. *)
Definition terminal (l : loc) (h : store) : outcome bool :=
  b ← deref l h; Done (terminal b).

Definition evaluate (p : player) (l : loc) (h : store) : outcome Z :=
  b ← deref l h; Done (evaluate p b).

Module Minimax.
Section Closures.
Variable max_player : player.

Fixpoint max_loop (value : loc -> store -> outcome (score * store))
    (children : list (nat * loc)) (max_score : score) (h : store)
  : outcome (score * store) :=
  match children with
  | [] => Done (max_score, h)
  | (_, child_board) :: rest =>
      '(score, h1) ← value child_board h;
      max_loop value rest (if score_gt score max_score then score else max_score) h1
  end.

Fixpoint min_loop (value : loc -> store -> outcome (score * store))
    (children : list (nat * loc)) (min_score : score) (h : store)
  : outcome (score * store) :=
  match children with
  | [] => Done (min_score, h)
  | (_, child_board) :: rest =>
      '(score, h1) ← value child_board h;
      min_loop value rest (if score_lt score min_score then score else min_score) h1
  end.

Definition max_value (value : player -> loc -> Z -> store -> outcome (score * store))
    (current_player : player) (current_board : loc) (depth : Z) (h : store)
  : outcome (score * store) :=
  let next_player := opponent current_player in
  '(children, h1) ← get_child_boards current_player current_board h;
  max_loop (fun child => value next_player child (depth - 1)%Z) children NegInf h1.

Definition min_value (value : player -> loc -> Z -> store -> outcome (score * store))
    (current_player : player) (current_board : loc) (depth : Z) (h : store)
  : outcome (score * store) :=
  let next_player := opponent current_player in
  '(children, h1) ← get_child_boards current_player current_board h;
  min_loop (fun child => value next_player child (depth - 1)%Z) children PosInf h1.

Fixpoint value (fuel : nat) (current_player : player) (current_board : loc)
    (depth : Z) (h : store) : outcome (score * store) :=
  match fuel with
  | O => OutOfFuel
  | S fuel' =>
      t ← terminal current_board h;
      if t || (depth =? 0)%Z then
        e ← evaluate max_player current_board h; Done (Fin e, h)
      else if bool_decide (current_player = max_player) then
        max_value (value fuel') current_player current_board depth h
      else
        min_value (value fuel') current_player current_board depth h
  end.

Fixpoint top_loop (value : loc -> store -> outcome (score * store))
    (children : list (nat * loc)) (placement : option nat)
    (best_score : score) (h : store) : outcome (option nat * score * store) :=
  match children with
  | [] => Done (placement, best_score, h)
  | (col, child_board) :: rest =>
      '(score, h1) ← value child_board h;
      if score_gt score best_score
      then top_loop value rest (Some col) score h1
      else top_loop value rest placement best_score h1
  end.
End Closures.

Definition run (fuel : nat) (player : player) (board : loc) (depth_limit : Z)
    (h : store) : outcome (option nat * score * store) :=
  let max_player := player in
  '(children, h1) ← get_child_boards player board h;
  let next_player := opponent player in
  top_loop (fun child => value max_player fuel next_player child (depth_limit - 1)%Z)
           children None NegInf h1.
End Minimax.

Module AlphaBeta.
Section Closures.
Variable max_player : player.

Fixpoint max_loop (value : loc -> score -> score -> store -> outcome (score * store))
    (children : list (nat * loc)) (max_score alpha beta : score) (h : store)
  : outcome (score * store) :=
  match children with
  | [] => Done (max_score, h)
  | (_, child_board) :: rest =>
      '(score, h1) ← value child_board alpha beta h;
      let max_score := score_max max_score score in
      if score_ge max_score beta then Done (max_score, h1)
      else max_loop value rest max_score (score_max alpha max_score) beta h1
  end.

Fixpoint min_loop (value : loc -> score -> score -> store -> outcome (score * store))
    (children : list (nat * loc)) (min_score alpha beta : score) (h : store)
  : outcome (score * store) :=
  match children with
  | [] => Done (min_score, h)
  | (_, child_board) :: rest =>
      '(score, h1) ← value child_board alpha beta h;
      let min_score := score_min min_score score in
      if score_le min_score alpha then Done (min_score, h1)
      else min_loop value rest min_score alpha (score_min beta min_score) h1
  end.

Definition max_value
    (value : player -> loc -> Z -> score -> score -> store -> outcome (score * store))
    (current_player : player) (current_board : loc) (depth : Z)
    (alpha beta : score) (h : store) : outcome (score * store) :=
  let next_player := opponent current_player in
  '(children, h1) ← get_child_boards current_player current_board h;
  max_loop (fun child => value next_player child (depth - 1)%Z)
           children NegInf alpha beta h1.

Definition min_value
    (value : player -> loc -> Z -> score -> score -> store -> outcome (score * store))
    (current_player : player) (current_board : loc) (depth : Z)
    (alpha beta : score) (h : store) : outcome (score * store) :=
  let next_player := opponent current_player in
  '(children, h1) ← get_child_boards current_player current_board h;
  min_loop (fun child => value next_player child (depth - 1)%Z)
           children PosInf alpha beta h1.

Fixpoint value (fuel : nat) (current_player : player) (current_board : loc)
    (depth : Z) (alpha beta : score) (h : store) : outcome (score * store) :=
  match fuel with
  | O => OutOfFuel
  | S fuel' =>
      t ← terminal current_board h;
      if t || (depth =? 0)%Z then
        e ← evaluate max_player current_board h; Done (Fin e, h)
      else if bool_decide (current_player = max_player) then
        max_value (value fuel') current_player current_board depth alpha beta h
      else
        min_value (value fuel') current_player current_board depth alpha beta h
  end.

Fixpoint top_loop (value : loc -> score -> score -> store -> outcome (score * store))
    (children : list (nat * loc)) (placement : option nat)
    (best_score alpha beta : score) (h : store)
  : outcome (option nat * score * store) :=
  match children with
  | [] => Done (placement, best_score, h)
  | (col, child_board) :: rest =>
      '(score, h1) ← value child_board alpha beta h;
      if score_gt score best_score
      then top_loop value rest (Some col) score (score_max alpha score) beta h1
      else top_loop value rest placement best_score
                    (score_max alpha best_score) beta h1
  end.
End Closures.

Definition run (fuel : nat) (player : player) (board : loc) (depth_limit : Z)
    (h : store) : outcome (option nat * score * store) :=
  let max_player := player in
  '(children, h1) ← get_child_boards player board h;
  let next_player := opponent player in
  top_loop (fun child => value max_player fuel next_player child (depth_limit - 1)%Z)
           children None NegInf NegInf PosInf h1.
End AlphaBeta.

Module Expectimax.
Section Closures.
Context {F : Type} `{Arith F}.
Variable max_player : player.

Fixpoint max_loop (value : loc -> store -> outcome (F * store))
    (children : list (nat * loc)) (max_score : F) (h : store)
  : outcome (F * store) :=
  match children with
  | [] => Done (max_score, h)
  | (_, child_board) :: rest =>
      '(score, h1) ← value child_board h;
      max_loop value rest (if fgt score max_score then score else max_score) h1
  end.

Fixpoint sum_loop (value : loc -> store -> outcome (F * store))
    (children : list (nat * loc)) (prob total_value : F) (h : store)
  : outcome (F * store) :=
  match children with
  | [] => Done (total_value, h)
  | (_, child_board) :: rest =>
      '(v, h1) ← value child_board h;
      sum_loop value rest prob (fadd total_value (fmul prob v)) h1
  end.

Definition max_value (value : player -> loc -> Z -> store -> outcome (F * store))
    (current_player : player) (current_board : loc) (depth : Z) (h : store)
  : outcome (F * store) :=
  let next_player := opponent current_player in
  '(children, h1) ← get_child_boards current_player current_board h;
  max_loop (fun child => value next_player child (depth - 1)%Z) children neg_inf h1.

Definition expected_value (value : player -> loc -> Z -> store -> outcome (F * store))
    (current_player : player) (current_board : loc) (depth : Z) (h : store)
  : outcome (F * store) :=
  let total_value := of_int 0 in
  '(child_boards, h1) ← get_child_boards current_player current_board h;
  match child_boards with
  | [] => Raise ZeroDivisionError
  | _ =>
      let prob := fdiv (of_int 1) (of_int (Z.of_nat (length child_boards))) in
      let next_player := opponent current_player in
      sum_loop (fun child => value next_player child (depth - 1)%Z)
               child_boards prob total_value h1
  end.

Fixpoint value (fuel : nat) (current_player : player) (current_board : loc)
    (depth : Z) (h : store) : outcome (F * store) :=
  match fuel with
  | O => OutOfFuel
  | S fuel' =>
      t ← terminal current_board h;
      if t || (depth =? 0)%Z then
        e ← evaluate max_player current_board h; Done (of_int e, h)
      else if bool_decide (current_player = max_player) then
        max_value (value fuel') current_player current_board depth h
      else
        expected_value (value fuel') current_player current_board depth h
  end.

Fixpoint top_loop (value : loc -> store -> outcome (F * store))
    (children : list (nat * loc)) (placement : option nat)
    (best_score : F) (h : store) : outcome (option nat * F * store) :=
  match children with
  | [] => Done (placement, best_score, h)
  | (col, child_board) :: rest =>
      '(score, h1) ← value child_board h;
      if fgt score best_score
      then top_loop value rest (Some col) score h1
      else top_loop value rest placement best_score h1
  end.
End Closures.

Definition run {F} `{Arith F} (fuel : nat) (player : player) (board : loc)
    (depth_limit : Z) (h : store) : outcome (option nat * F * store) :=
  let max_player := player in
  '(children, h1) ← get_child_boards player board h;
  let next_player := opponent player in
  top_loop (fun child => value max_player fuel next_player child (depth_limit - 1)%Z)
           children None neg_inf h1.
End Expectimax.

(** The three searches on a board object: the chosen column and the store
    the call leaves behind. *)
Definition minimax (player : player) (board : loc) (depth_limit : Z) (h : store)
  : outcome (option nat * store) :=
  b ← deref board h;
  '(placement, _, h') ← Minimax.run (search_fuel b) player board depth_limit h;
  Done (placement, h').

Definition alphabeta (player : player) (board : loc) (depth_limit : Z) (h : store)
  : outcome (option nat * store) :=
  b ← deref board h;
  '(placement, _, h') ← AlphaBeta.run (search_fuel b) player board depth_limit h;
  Done (placement, h').

Definition expectimax F `{Arith F} (player : player) (board : loc)
    (depth_limit : Z) (h : store) : outcome (option nat * store) :=
  b ← deref board h;
  '(placement, _, h') ← Expectimax.run (F:=F) (search_fuel b) player board depth_limit h;
  Done (placement, h').

End Store.

Definition is_fin (s : score) : Prop := exists z, s = Fin z.

(** Fail-soft pruning: what a search in the window [(alpha, beta)] may return
    as [r] when the full search returns [v].  At or below [alpha] and at or
    above [beta] it is a bound on [v] outside the window; inside the window
    it is [v]. *)
Definition ab_ok (alpha beta v r : score) : Prop :=
  (score_le v alpha = true -> score_le v r = true /\ score_le r alpha = true) /\
  (score_le beta v = true -> score_le beta r = true /\ score_le r v = true) /\
  (score_lt alpha v = true -> score_lt v beta = true -> r = v).

(** Finitely many scores embed in the integers, the infinities landing
    beyond every integer among them. *)
Definition emb (K : Z) (s : score) : Z :=
  match s with NegInf => - K | Fin z => z | PosInf => K end.

Definition fin_part (s : score) : Z :=
  match s with Fin z => z | _ => 0%Z end.

Definition bounded (K : Z) (s : score) : Prop :=
  match s with Fin z => (- K < z < K)%Z | _ => (0 < K)%Z end.

(** [(c, s)] is the first entry of [scored] with the greatest score: the
    entries before it are strictly below [s], no entry after it is above. *)
Definition first_best {S} (gt : S -> S -> bool) (scored : list (nat * S))
    (c : nat) (s : S) : Prop :=
  exists pre post,
    scored = pre ++ (c, s) :: post
    /\ Forall (fun x => gt s x.2 = true) pre
    /\ Forall (fun x => gt x.2 s = false) post.

(** The state [(placement, best_score)] of a top-level loop that started from
    [(None, init)] and has seen the scores [scored]. *)
Definition selected {S} (gt : S -> S -> bool) (init : S)
    (scored : list (nat * S)) (placement : option nat) (best : S) : Prop :=
  match placement with
  | None => best = init /\ Forall (fun x => gt x.2 init = false) scored
  | Some c => first_best gt scored c best /\ gt best init = true
  end.

(** The scores [rec] gives the successors, column by column. *)
Definition scores_of {S} (rec : Board -> outcome S)
    (children : list (nat * Board)) (scored : list (nat * S)) : Prop :=
  Forall2 (fun ch sc => sc.1 = ch.1 /\ rec ch.2 = Done sc.2) children scored.

(** [s] is the greatest score of [scored], and [c] the lowest column that
    reaches it. *)
Definition lowest_best {S} (gt : S -> S -> bool) (scored : list (nat * S))
    (c : nat) (s : S) : Prop :=
  (c, s) ∈ scored
  /\ (forall c' s', (c', s') ∈ scored -> gt s' s = false)
  /\ (forall c' s', (c', s') ∈ scored -> gt s s' = false -> c <= c').

(** What a top-level loop returns on the scores [scored]. *)
Definition chosen {S} (gt : S -> S -> bool) (scored : list (nat * S))
    (placement : option nat) (best : S) : Prop :=
  match placement with
  | None => scored = []
  | Some c => first_best gt scored c best /\ lowest_best gt scored c best
  end.

Definition good_exact (x : exact) : Prop := exists q, x = EFin q.

(** What a search returns on [b]: no move exactly when no column is
    placeable, and otherwise a placeable column of the board. *)
Definition legal_choice (b : Board) (r : option nat) : Prop :=
  (r = None <-> forall c, c < cols b -> placeable b c = false)
  /\ (forall c, r = Some c -> c < cols b /\ placeable b c = true).

(** [weights[k]] *)
Definition weight (k : nat) : Z := default 0%Z (weights !! k).

(** What one segment adds to the weighted tally of [p], whose adversary is
    [a]: the weight of [p]'s disc count when the segment is inside the grid
    and holds no disc of [a]. *)
Definition reward_of (p a : player) (s : list cell) : Z :=
  if bool_decide (invalid_slot ∈ s) then 0%Z
  else if bool_decide (disc a ∈ s) then 0%Z
  else weight (count_of (disc p) s).

(** [reward] in [evaluate p b]; [penalty] is [reward (opponent p) b]. *)
Definition reward (p : player) (b : Board) : Z :=
  foldr Z.add 0%Z (map (reward_of p (opponent p)) (segments b)).

(** [p] holds all four cells of some segment. *)
Definition has_four (p : player) (b : Board) : bool :=
  existsb (fun s => bool_decide (segment_winner s = Some p)) (segments b).

(** The segments inside the grid, and those among them without a disc of [p]. *)
Definition valid_segments (b : Board) : list (list cell) :=
  filter (fun s => invalid_slot ∉ s) (segments b).

Definition free_segments (p : player) (b : Board) : list (list cell) :=
  filter (fun s => disc p ∉ s) (valid_segments b).

(** A row of 72 cells: four discs of PLAYER1, then seventeen times three
    discs of PLAYER2 and a gap. *)
Definition wide_board : Board :=
  mkBoard 1 72
    [replicate 4 (Disc PLAYER1)
     ++ mjoin (replicate 17 [Disc PLAYER2; Disc PLAYER2; Disc PLAYER2; EMPTY_SLOT])].

(** The 6-by-7 board after PLAYER1 stacked four discs in column 0 and
    PLAYER2 three in column 1. *)
Definition column_win : Board :=
  play PLAYER1 [0; 1; 0; 1; 0; 1; 0] (empty_board 6 7).

(** A depth that the test [depth == 0] cannot meet on the way down from [b]:
    it is negative already, or exceeds the number of discs left to place. *)
Definition uncut (b : Board) (d : Z) : Prop :=
  (d < 0 \/ Z.of_nat (empty_cells b) < d)%Z.

(** A depth limit that is not positive, or exceeds the number of empty
    cells, never cuts the search off. *)
Definition unbounded_limit (b : Board) (d : Z) : Prop :=
  (d <= 0 \/ Z.of_nat (empty_cells b) < d)%Z.

(** A 6-by-7 position after 36 alternating moves with no winner; PLAYER1 is
    to move and columns 1, 2, 3 and 5 are open (six empty cells). *)
Definition late_board : Board :=
  play PLAYER1
    [2; 4; 6; 2; 4; 0; 5; 6; 6; 5; 6; 3; 6; 2; 4; 0; 3; 5;
     0; 3; 4; 1; 0; 6; 3; 5; 0; 1; 1; 4; 3; 0; 5; 1; 1; 4]
    (empty_board 6 7).

(** A search node: the player to move, the board, the remaining depth. *)
Definition node : Type := player * Board * Z.

(** [value] at the first node calls [value] at the second: the first is
    neither terminal nor at depth 0, the second is one of its successors. *)
Definition calls (n n' : node) : Prop :=
  let '(cp, b, d) := n in
  terminal b = false /\ d <> 0%Z
  /\ exists c b', (c, b') ∈ children cp b /\ n' = (opponent cp, b', (d - 1)%Z).

(** The nodes [value] can be called at during a search from the top level. *)
Definition reached (player : player) (board : Board) (depth_limit : Z) (n : node)
  : Prop :=
  exists c b', (c, b') ∈ children player board
               /\ rtc calls (opponent player, b', (depth_limit - 1)%Z) n.

(** Terminal detection is right at [b]: a board without a placeable column
    is flagged terminal. *)
Definition terminal_detects (b : Board) : Prop :=
  (forall c, c < cols b -> placeable b c = false) -> terminal b = true.

(** The best case of the spec for a move: the score when every node, the
    adversary's too, takes the maximum over its successors. *)
Fixpoint best_case_value (max_player : player) (fuel : nat) (cp : player)
    (b : Board) (d : Z) : outcome score :=
  match fuel with
  | O => OutOfFuel
  | S fuel' =>
      if terminal b || (d =? 0)%Z then Done (Fin (evaluate max_player b))
      else Minimax.max_value (best_case_value max_player fuel') cp b d
  end.

(** The three scores of one successor: minimax, expectimax in exact
    arithmetic, best case, with the expectimax score between the two. *)
Definition bracketed (f h : Board -> outcome score) (g : Board -> outcome exact)
    (ch : nat * Board) (t : Z * Qc * Z) : Prop :=
  f ch.2 = Done (Fin t.1.1) /\ g ch.2 = Done (EFin t.1.2) /\ h ch.2 = Done (Fin t.2)
  /\ (Qc_of_Z t.1.1 <= t.1.2)%Qc /\ (t.1.2 <= Qc_of_Z t.2)%Qc.

(** [sum(qs)] over the rationals. *)
Definition Qc_sum (qs : list Qc) : Qc := foldr Qcplus 0%Qc qs.

(** [a <= b] on exact scores. *)
Definition exact_le (a b : exact) : Prop := exact_gt a b = false.

(** The successor of [late_board] after PLAYER1 plays column 1. *)
Definition late_child : Board := play PLAYER1 [1] late_board.

(** [sum(prob * v for v in vs)] with [prob = 1 / len(vs)], added up from 0
    in list order: what the loop of [expected_value] computes. *)
Definition uniform_average {F} `{Arith F} (vs : list F) : F :=
  let prob := fdiv (of_int 1) (of_int (Z.of_nat (length vs))) in
  fold_left (fun total v => fadd total (fmul prob v)) vs (of_int 0).

(** An integer score of [minimax] and the same number as an exact score. *)
Inductive same_number : score -> exact -> Prop :=
| same_neg_inf : same_number NegInf ENegInf
| same_int z : same_number (Fin z) (exact_of_Z z).

(** The objects at [locs] hold the boards [boards], column by column. *)
Definition represents (h : gmap nat Board) (locs : list (nat * nat))
    (boards : list (nat * Board)) : Prop :=
  Forall2 (fun x y => x.1 = y.1 /\ h !! x.2 = Some y.2) locs boards.

(** The outcome [m] of a call on board values, as the outcome of the same call
    on objects that leaves the store [h]. *)
Definition with_store {A} (h : gmap nat Board) (m : outcome A)
  : outcome (A * gmap nat Board) :=
  (fun a => (a, h)) <$> m.

(** [-s] on scores. *)
Definition score_neg (s : score) : score :=
  match s with
  | NegInf => PosInf
  | Fin z => Fin (- z)
  | PosInf => NegInf
  end.

(** The column a one-ply search should return on the successors [succ]: no
    move without successors, else the lowest column among the successors
    whose [evaluate] score for [p] is greatest. *)
Definition greedy_choice (p : player) (succ : list (nat * Board))
    (placement : option nat) : Prop :=
  match placement with
  | None => succ = []
  | Some c =>
      exists b', (c, b') ∈ succ
        /\ (forall c1 b1, (c1, b1) ∈ succ -> (evaluate p b1 <= evaluate p b')%Z)
        /\ (forall c1 b1, (c1, b1) ∈ succ -> evaluate p b1 = evaluate p b' -> c <= c1)
  end.

(** The 6-by-7 board after PLAYER1 opened in the middle column. *)
Definition opening_board : Board := play PLAYER1 [3] (empty_board 6 7).

(** The four directions of a line of four cells: along a row, along a
    column, and along the two diagonals, where the column falls or rises by
    one from each row to the next. *)
Inductive direction := Horizontal | Vertical | Falling | Rising.

(** The cells of the line of direction [d] whose lowest row is [r] and whose
    lowest column is [c], in the order of increasing rows. *)
Definition coords (d : direction) (r c : nat) : list (nat * nat) :=
  match d with
  | Horizontal => [(r, c); (r, c + 1); (r, c + 2); (r, c + 3)]
  | Vertical => [(r, c); (r + 1, c); (r + 2, c); (r + 3, c)]
  | Falling => [(r, c + 3); (r + 1, c + 2); (r + 2, c + 1); (r + 3, c)]
  | Rising => [(r, c); (r + 1, c + 1); (r + 2, c + 2); (r + 3, c + 3)]
  end.

(** The slot values along a line; [None] when a cell is outside the grid. *)
Definition line (b : Board) (d : direction) (r c : nat) : option (list cell) :=
  mapM (fun rc => Cell <$> get b rc.1 rc.2) (coords d r c).

(** Every line of four cells inside the grid, once. *)
Definition lines (b : Board) : list (list cell) :=
  flat_map (fun d =>
    flat_map (fun r =>
      flat_map (fun c => option_list (line b d r c)) (seq 0 (cols b)))
      (seq 0 (rows b)))
    [Horizontal; Vertical; Falling; Rising].

(** The value of a cell of the grid. *)
Definition cell_at (b : Board) (rc : nat * nat) : cell :=
  Cell (default EMPTY_SLOT (get b rc.1 rc.2)).

(** The number of rows and of columns where a line of a direction can start. *)
Definition start_rows (b : Board) (d : direction) : nat :=
  match d with Horizontal => rows b | _ => rows b - 3 end.

Definition start_cols (b : Board) (d : direction) : nat :=
  match d with Vertical => cols b | _ => cols b - 3 end.

(** A row between [p r] and [q r] invalid cells, as the revolved grids of
    [evaluate] have it, and its cell in column [j], invalid where the list
    ends. *)
Definition padded (b : Board) (p q : nat -> nat) (r : nat) : list cell :=
  replicate (p r) invalid_slot ++ map Cell (row b r) ++ replicate (q r) invalid_slot.

Definition padded_cell (b : Board) (p q : nat -> nat) (r j : nat) : cell :=
  default invalid_slot (padded b p q r !! j).

(** What one line adds to the score of [p]. *)
Definition line_score (p : player) (s : list cell) : Z :=
  (reward_of p (opponent p) s - reward_of (opponent p) p s)%Z.

(** A finite float below [2^K] in absolute value. *)
Definition sf_small (K : Z) (x : spec_float) : Prop :=
  match x with
  | S754_zero _ => True
  | S754_finite _ m e => (Zpos (digits2_pos m) + e <= K)%Z
  | _ => False
  end.

Definition small (K : Z) (x : float) : Prop := sf_small K (Prim2SF x).

(** The order of the floats that are no NaN, as a lexicographic order on
    integers. *)
Definition sf_key (x : spec_float) : Z * Z * Z :=
  match x with
  | S754_nan => (0, 0, 0)
  | S754_infinity true => (-2, 0, 0)
  | S754_finite true m e => (-1, - e, - Zpos m)
  | S754_zero _ => (0, 0, 0)
  | S754_finite false m e => (1, e, Zpos m)
  | S754_infinity false => (2, 0, 0)
  end%Z.

Definition key_lt (a b : Z * Z * Z) : Prop :=
  (a.1.1 < b.1.1
   \/ (a.1.1 = b.1.1 /\ (a.1.2 < b.1.2 \/ (a.1.2 = b.1.2 /\ a.2 < b.2))))%Z.

(** The uniform weights [1 / n] of at most 512 successors are at most 1. *)
Definition small_probabilities : bool :=
  forallb (fun n =>
             match Prim2SF (PrimFloat.div (float_of_Z 1) (float_of_Z (Z.of_nat n))) with
             | S754_finite false m e => (Zpos (digits2_pos m) + e <=? 1)%Z
             | _ => false
             end)
          (seq 1 512).

(** A bound on the binary exponent of the scores of [expectimax] below a
    board: the evaluator's scores are below [2^(log2 (4000 rows cols) + 1)],
    and every level of averaging adds at most [2 cols + 2] binary digits. *)
Definition float_bound (b : Board) : Z :=
  (Z.log2 (4000 * Z.of_nat (rows b) * Z.of_nat (cols b)) + 2
   + Z.of_nat (empty_cells b) * (2 * Z.of_nat (cols b) + 2))%Z.

(** Boards on which the binary64 scores of [expectimax] cannot overflow: a
    grid of [rows] by [cols] whose bound stays in the range of the format.
    A 6-by-7 grid is one, empty or not. *)
Definition float_safe (b : Board) : bool :=
  wf_board b
  && (4000 * Z.of_nat (rows b) * Z.of_nat (cols b) <? 2 ^ 60)%Z
  && (float_bound b <=? 1020)%Z.

(** The scores the top level of [expectimax] may compare: no NaN. *)
Definition ordered (x : float) : Prop := Prim2SF x <> S754_nan.

(* ================================================================== *)
(** * Properties *)


(** ** The board *)

Lemma existsb_find {A} (f : A -> bool) (l : list A) :
  existsb f l = true -> exists x, find f l = Some x.
Proof.
  induction l as [|a l IH]; simpl; [discriminate|].
  destruct (f a); eauto.
Qed.

Lemma find_existsb {A} (f : A -> bool) (l : list A) x :
  find f l = Some x -> existsb f l = true.
Proof.
  induction l as [|a l IH]; simpl; [discriminate|].
  destruct (f a); auto.
Qed.

Lemma placeable_place p c b :
  placeable b c = true -> exists b', place p c b = Some b'.
Proof.
  unfold placeable, place. intros H.
  destruct (existsb_find _ _ H) as [r ->]. eauto.
Qed.

Lemma place_placeable p c b b' :
  place p c b = Some b' -> placeable b c = true.
Proof.
  unfold placeable, place. intros H.
  destruct (find _ _) as [r|] eqn:E; [|discriminate].
  eapply find_existsb; eauto.
Qed.

Lemma child_loop_children p b cs res :
  child_loop p b cs res =
  Done (res ++ omap (fun c => if placeable b c then pair c <$> place p c b else None) cs).
Proof.
  revert res. induction cs as [|c cs IH]; intros res; simpl.
  - by rewrite app_nil_r.
  - destruct (placeable b c) eqn:E.
    + destruct (placeable_place p c b E) as [b' Hb']. unfold clone.
      rewrite Hb'. simpl. rewrite IH. by rewrite <- app_assoc.
    + apply IH.
Qed.

Lemma get_child_boards_children p b :
  get_child_boards p b = Done (children p b).
Proof. unfold get_child_boards. by rewrite child_loop_children. Qed.

Lemma elem_of_children p b c b' :
  (c, b') ∈ children p b <->
  c < cols b /\ placeable b c = true /\ place p c b = Some b'.
Proof.
  unfold children. rewrite list_elem_of_omap. split.
  - intros (x & Hx & E). apply elem_of_seq in Hx.
    destruct (placeable b x) eqn:P; [|discriminate].
    destruct (place p x b) eqn:Q; simpl in E; [|discriminate].
    inversion E; subst. repeat split; auto. lia.
  - intros (Hc & P & Q). exists c. split; [apply elem_of_seq; lia|].
    by rewrite P, Q.
Qed.

Lemma find_seq_Some (f : nat -> bool) n r :
  find f (seq 0 n) = Some r -> r < n /\ f r = true.
Proof.
  intros H. apply find_some in H as [H1 H2].
  apply in_seq in H1. split; [lia|done].
Qed.

Lemma occupied_false b r c :
  occupied b r c = false <-> get b r c = Some EMPTY_SLOT.
Proof.
  unfold occupied. rewrite bool_decide_eq_false. split.
  - intros H. destruct (decide (get b r c = Some EMPTY_SLOT)); [done|contradiction].
  - intros H Hn. done.
Qed.

Lemma place_inv p c b b' :
  place p c b = Some b' ->
  exists r, r < rows b /\ get b r c = Some EMPTY_SLOT /\ b' = set_cell b r c (Disc p).
Proof.
  unfold place. destruct (find _ _) as [r|] eqn:E; [|discriminate].
  intros [= <-]. apply find_seq_Some in E as [Hr Ho].
  exists r. repeat split; auto. apply occupied_false.
  by destruct (occupied b r c).
Qed.

Lemma count_empty_insert rw c p :
  rw !! c = Some EMPTY_SLOT ->
  S (count_empty (<[c := Disc p]> rw)) = count_empty rw.
Proof.
  unfold count_empty. revert c. induction rw as [|x rw IH]; intros [|c] H;
    simpl in *; try discriminate.
  - inversion H; subst. rewrite (filter_cons_True _ EMPTY_SLOT) by done.
    rewrite (filter_cons_False _ (Disc p)) by (intros ?; discriminate). done.
  - destruct (decide (x = EMPTY_SLOT)).
    + rewrite !filter_cons_True by done. simpl. by rewrite IH.
    + rewrite !filter_cons_False by done. by rewrite IH.
Qed.

Lemma sum_list_alter (f : list slot -> list slot) (g : list slot -> nat)
    (l : list (list slot)) r x :
  l !! r = Some x -> S (g (f x)) = g x ->
  S (sum_list (map g (alter f r l))) = sum_list (map g l).
Proof.
  revert r. induction l as [|y l IH]; intros [|r] H E; simpl in *; try discriminate.
  - inversion H; subst. cbn. clear IH H. lia.
  - specialize (IH r H E). cbn. change (list_alter f r l) with (alter f r l). lia.
Qed.

Lemma empty_cells_set_cell b r c p :
  get b r c = Some EMPTY_SLOT ->
  S (empty_cells (set_cell b r c (Disc p))) = empty_cells b.
Proof.
  unfold get, empty_cells, set_cell. simpl. intros H.
  destruct (grid b !! r) as [rw|] eqn:E; simpl in H; [|discriminate].
  eapply (sum_list_alter _ count_empty); eauto.
  by apply count_empty_insert.
Qed.

Lemma empty_cells_child p b c b' :
  (c, b') ∈ children p b -> S (empty_cells b') = empty_cells b.
Proof.
  rewrite elem_of_children. intros (_ & _ & H).
  apply place_inv in H as (r & _ & Hg & ->).
  by apply empty_cells_set_cell.
Qed.

Lemma sum_list_lookup_le (g : list slot -> nat) (l : list (list slot)) r x :
  l !! r = Some x -> g x <= sum_list (map g l).
Proof.
  revert r. induction l as [|y l IH]; intros [|r] H; simpl in *; try discriminate.
  - inversion H; subst. lia.
  - specialize (IH r H). lia.
Qed.

Lemma get_empty_cells b r c :
  get b r c = Some EMPTY_SLOT -> 0 < empty_cells b.
Proof.
  unfold get, empty_cells. intros H.
  destruct (grid b !! r) as [rw|] eqn:E; simpl in H; [|discriminate].
  apply list_elem_of_lookup_2 in H.
  assert (0 < count_empty rw) as Hrw.
  { unfold count_empty.
    assert (EMPTY_SLOT ∈ filter (fun s => s = EMPTY_SLOT) rw) as Hin
      by (apply list_elem_of_filter; done).
    destruct (filter _ rw); [by apply elem_of_nil in Hin|simpl; lia]. }
  pose proof (sum_list_lookup_le count_empty _ _ _ E) as Hle. lia.
Qed.

(** A board that is not terminal has an EMPTY cell in some column. *)
Lemma not_terminal_placeable b :
  terminal b = false -> exists c, c < cols b /\ placeable b c = true.
Proof.
  unfold terminal, has_draw. intros H.
  apply orb_false_iff in H as [H1 H2].
  apply bool_decide_eq_false in H2.
  assert (who_wins b = None) as Hw.
  { destruct (who_wins b); [exfalso; apply H2; done|done]. }
  rewrite Hw in H1. rewrite bool_decide_eq_true_2 in H1 by done.
  rewrite andb_true_r in H1. unfold full in H1.
  apply not_true_iff_false in H1. rewrite forallb_forall in H1.
  destruct (existsb (fun r => negb (forallb (fun c => occupied b r c) (seq 0 (cols b))))
              (seq 0 (rows b))) eqn:E.
  - apply existsb_exists in E as (r & Hr & E).
    apply negb_true_iff in E. apply not_true_iff_false in E.
    rewrite forallb_forall in E.
    destruct (existsb (fun c => negb (occupied b r c)) (seq 0 (cols b))) eqn:E2.
    + apply existsb_exists in E2 as (c & Hc & E2).
      exists c. apply in_seq in Hc. split; [lia|].
      unfold placeable. apply existsb_exists. eauto.
    + exfalso. apply E. intros c Hc.
      rewrite <- not_true_iff_false in E2. rewrite existsb_exists in E2.
      destruct (occupied b r c) eqn:O; [done|]. exfalso. apply E2. exists c.
      by rewrite O.
  - exfalso. apply H1. intros r Hr.
    rewrite <- not_true_iff_false in E. rewrite existsb_exists in E.
    destruct (forallb _ (seq 0 (cols b))) eqn:O; [done|]. exfalso. apply E.
    exists r. by rewrite O.
Qed.

Lemma placeable_empty_cells b c : placeable b c = true -> 0 < empty_cells b.
Proof.
  unfold placeable. intros H. apply existsb_exists in H as (r & _ & H).
  apply negb_true_iff, occupied_false in H. eapply get_empty_cells; eauto.
Qed.

Lemma not_terminal_children p b :
  terminal b = false -> children p b <> [].
Proof.
  intros H. destruct (not_terminal_placeable b H) as (c & Hc & P).
  destruct (placeable_place p c b P) as [b' Hb'].
  assert ((c, b') ∈ children p b) as Hin by (apply elem_of_children; auto).
  intros E. rewrite E in Hin. by apply elem_of_nil in Hin.
Qed.

Lemma not_terminal_empty_cells b : terminal b = false -> 0 < empty_cells b.
Proof.
  intros H. destruct (not_terminal_placeable b H) as (c & _ & P).
  eapply placeable_empty_cells; eauto.
Qed.

Arguments Minimax.value : simpl never.
Arguments AlphaBeta.value : simpl never.
Arguments Expectimax.value : simpl never.
Arguments search_fuel : simpl never.

(** ** Order on scores *)

Ltac score_cases :=
  repeat match goal with
         | s : score |- _ => destruct s
         end;
  unfold score_max, score_min, score_gt, score_ge, score_le, score_lt in *;
  simpl in *;
  repeat match goal with
         | |- context [(?x <? ?y)%Z] => destruct (Z.ltb_spec x y)
         | H : context [(?x <? ?y)%Z] |- _ => destruct (Z.ltb_spec x y)
         end;
  simpl in *;
  try solve [ congruence | lia | repeat split; (congruence || lia)
            | intuition (congruence || lia || (f_equal; lia)) ].

Lemma score_lt_irrefl a : score_lt a a = false.
Proof. score_cases. Qed.

Lemma score_lt_trans a b c :
  score_lt a b = true -> score_lt b c = true -> score_lt a c = true.
Proof. score_cases. Qed.

Lemma score_lt_total a b :
  score_lt a b = false -> score_lt b a = false -> a = b.
Proof. score_cases. Qed.

(** ** Every search returns *)

Lemma outcome_bind_Done {A B} (m : outcome A) (k : A -> outcome B) r :
  m ≫= k = Done r <-> exists a, m = Done a /\ k a = Done r.
Proof.
  destruct m as [a|e|]; simpl; split.
  - eauto.
  - intros (a0 & [= ->] & E). done.
  - discriminate.
  - intros (a0 & E & _). discriminate.
  - discriminate.
  - intros (a0 & E & _). discriminate.
Qed.

Lemma mm_max_loop_fin rec children m :
  Forall (fun ch : nat * Board => exists z, rec ch.2 = Done (Fin z)) children ->
  m <> PosInf ->
  exists r, Minimax.max_loop rec children m = Done r
            /\ (children <> [] \/ is_fin m -> is_fin r).
Proof.
  intros H. revert m. induction H as [|[c ch] children [z Hz] _ IH]; intros m Hm.
  - exists m. split; [done|]. intros [?|?]; [congruence|done].
  - simpl in *. rewrite Hz. simpl.
    destruct (IH (if score_gt (Fin z) m then Fin z else m)) as (r & Hr & Hfin).
    { destruct (score_gt (Fin z) m); [done|done]. }
    exists r. split; [done|]. intros _. apply Hfin. right.
    destruct m; unfold is_fin, score_gt; simpl; try congruence;
      try destruct (_ <? _)%Z; eauto.
Qed.

Lemma mm_min_loop_fin rec children m :
  Forall (fun ch : nat * Board => exists z, rec ch.2 = Done (Fin z)) children ->
  m <> NegInf ->
  exists r, Minimax.min_loop rec children m = Done r
            /\ (children <> [] \/ is_fin m -> is_fin r).
Proof.
  intros H. revert m. induction H as [|[c ch] children [z Hz] _ IH]; intros m Hm.
  - exists m. split; [done|]. intros [?|?]; [congruence|done].
  - simpl in *. rewrite Hz. simpl.
    destruct (IH (if score_lt (Fin z) m then Fin z else m)) as (r & Hr & Hfin).
    { destruct (score_lt (Fin z) m); [done|done]. }
    exists r. split; [done|]. intros _. apply Hfin. right.
    destruct m; unfold is_fin, score_gt; simpl; try congruence;
      try destruct (_ <? _)%Z; eauto.
Qed.

Lemma children_Forall (P : nat * Board -> Prop) p b :
  (forall c b', (c, b') ∈ children p b -> P (c, b')) -> Forall P (children p b).
Proof. intros H. apply Forall_forall. intros [c b'] Hin. by apply H. Qed.

Lemma mm_value_S mp fuel cp b d :
  Minimax.value mp (S fuel) cp b d =
  if terminal b || (d =? 0)%Z then Done (Fin (evaluate mp b))
  else if bool_decide (cp = mp) then Minimax.max_value (Minimax.value mp fuel) cp b d
  else Minimax.min_value (Minimax.value mp fuel) cp b d.
Proof. reflexivity. Qed.

(** With a budget above the number of EMPTY cells, [value] returns an
    integer score. *)
Lemma mm_value_fin mp fuel : forall cp b d,
  empty_cells b < fuel ->
  exists z, Minimax.value mp fuel cp b d = Done (Fin z).
Proof.
  induction fuel as [|fuel IH]; intros cp b d Hf; [lia|].
  rewrite mm_value_S. destruct (terminal b) eqn:T; simpl; [eauto|].
  destruct (d =? 0)%Z; [eauto|].
  assert (Forall (fun ch : nat * Board =>
            exists z, (fun child => Minimax.value mp fuel (opponent cp) child (d - 1)) ch.2
                      = Done (Fin z))
            (children cp b)) as Hall.
  { apply children_Forall. intros c b' Hin. simpl. apply IH.
    apply empty_cells_child in Hin. lia. }
  pose proof (not_terminal_children cp b T) as Hne.
  destruct (bool_decide (cp = mp)).
  - unfold Minimax.max_value. rewrite get_child_boards_children. simpl.
    destruct (mm_max_loop_fin _ _ NegInf Hall) as (r & -> & Hr); [done|].
    destruct Hr as [z ->]; eauto.
  - unfold Minimax.min_value. rewrite get_child_boards_children. simpl.
    destruct (mm_min_loop_fin _ _ PosInf Hall) as (r & -> & Hr); [done|].
    destruct Hr as [z ->]; eauto.
Qed.

Lemma bounded_mono K K' s : (K <= K')%Z -> bounded K s -> bounded K' s.
Proof. destruct s; simpl; lia. Qed.

Lemma exists_bound (l : list score) : exists K, (0 < K)%Z /\ Forall (bounded K) l.
Proof.
  induction l as [|s l (K & HK & IH)].
  - exists 1%Z. split; [lia|constructor].
  - exists (K + 1 + Z.abs (fin_part s))%Z. split; [lia|]. constructor.
    + destruct s; simpl; lia.
    + eapply Forall_impl; [exact IH|]. intros x. apply bounded_mono. lia.
Qed.

Lemma emb_lt K a b :
  bounded K a -> bounded K b ->
  (score_lt a b = true <-> (emb K a < emb K b)%Z).
Proof. destruct a, b; simpl; rewrite ?Z.ltb_lt; intros; split; intros; try lia; try congruence. Qed.

Lemma emb_lt_false K a b :
  bounded K a -> bounded K b ->
  (score_lt a b = false <-> (emb K b <= emb K a)%Z).
Proof.
  intros Ha Hb. destruct (emb_lt K a b Ha Hb) as [H1 H2].
  destruct (score_lt a b); split; intros E; try done.
  - specialize (H1 eq_refl). lia.
  - destruct (Z.lt_ge_cases (emb K a) (emb K b)) as [L|L]; [|lia].
    specialize (H2 L). discriminate.
Qed.

Lemma emb_eq K a b :
  bounded K a -> bounded K b -> (a = b <-> emb K a = emb K b).
Proof.
  destruct a, b; simpl; intros; split; intros E; try lia; try congruence;
    try (inversion E; lia).
Qed.

(** Decide a goal about the order of the scores [vars]: case on every [max]
    and [min], send the scores to integers, finish with [lia]. *)
Ltac score_order vars :=
  unfold ab_ok, score_max, score_min, score_gt, score_ge, score_le in *;
  repeat match goal with
         | |- context [if score_lt ?x ?y then _ else _] =>
             let E := fresh "E" in destruct (score_lt x y) eqn:E
         | H : context [if score_lt ?x ?y then _ else _] |- _ =>
             let E := fresh "E" in destruct (score_lt x y) eqn:E
         end;
  rewrite ?negb_true_iff, ?negb_false_iff in *;
  let K := fresh "K" in
  let HK := fresh "HK" in
  destruct (exists_bound vars) as (K & _ & HK);
  repeat match type of HK with
         | Forall _ (_ :: _) =>
             let H := fresh "B" in
             apply Forall_cons_1 in HK as [H HK]
         end;
  clear HK;
  repeat match goal with
         | H : context [score_lt ?a ?b = true] |- _ =>
             rewrite (emb_lt K a b) in H by assumption
         | H : context [score_lt ?a ?b = false] |- _ =>
             rewrite (emb_lt_false K a b) in H by assumption
         | H : context [@eq score ?a ?b] |- _ =>
             rewrite (emb_eq K a b) in H by assumption
         | |- context [score_lt ?a ?b = true] =>
             rewrite (emb_lt K a b) by assumption
         | |- context [score_lt ?a ?b = false] =>
             rewrite (emb_lt_false K a b) by assumption
         | |- context [@eq score ?a ?b] =>
             rewrite (emb_eq K a b) by assumption
         end;
  lia.

Lemma ab_max_exit a0 beta M m v r V :
  score_lt a0 beta = true ->
  ab_ok a0 beta M m -> score_lt m beta = true ->
  ab_ok (score_max a0 m) beta v r ->
  score_ge (score_max m r) beta = true ->
  score_le (score_max M v) V = true ->
  ab_ok a0 beta V (score_max m r).
Proof. intros. score_order [a0; beta; M; m; v; r; V]. Qed.

Lemma ab_max_continue a0 beta M m v r :
  score_lt a0 beta = true ->
  ab_ok a0 beta M m -> score_lt m beta = true ->
  ab_ok (score_max a0 m) beta v r ->
  score_ge (score_max m r) beta = false ->
  ab_ok a0 beta (score_max M v) (score_max m r)
  /\ score_max (score_max a0 m) (score_max m r) = score_max a0 (score_max m r)
  /\ score_lt (score_max m r) beta = true.
Proof. intros. score_order [a0; beta; M; m; v; r]. Qed.

Lemma ab_min_exit alpha b0 M m v r V :
  score_lt alpha b0 = true ->
  ab_ok alpha b0 M m -> score_lt alpha m = true ->
  ab_ok alpha (score_min b0 m) v r ->
  score_le (score_min m r) alpha = true ->
  score_le V (score_min M v) = true ->
  ab_ok alpha b0 V (score_min m r).
Proof. intros. score_order [alpha; b0; M; m; v; r; V]. Qed.

Lemma ab_min_continue alpha b0 M m v r :
  score_lt alpha b0 = true ->
  ab_ok alpha b0 M m -> score_lt alpha m = true ->
  ab_ok alpha (score_min b0 m) v r ->
  score_le (score_min m r) alpha = false ->
  ab_ok alpha b0 (score_min M v) (score_min m r)
  /\ score_min (score_min b0 m) (score_min m r) = score_min b0 (score_min m r)
  /\ score_lt alpha (score_min m r) = true.
Proof. intros. score_order [alpha; b0; M; m; v; r]. Qed.

Lemma ab_window_max a0 beta m :
  score_lt a0 beta = true -> score_lt m beta = true ->
  score_lt (score_max a0 m) beta = true.
Proof. intros. score_order [a0; beta; m]. Qed.

Lemma ab_window_min alpha b0 m :
  score_lt alpha b0 = true -> score_lt alpha m = true ->
  score_lt alpha (score_min b0 m) = true.
Proof. intros. score_order [alpha; b0; m]. Qed.

Lemma ab_ok_refl alpha beta v : ab_ok alpha beta v v.
Proof. score_order [alpha; beta; v]. Qed.

Lemma ab_ok_init_max alpha beta :
  score_lt alpha beta = true ->
  alpha = score_max alpha NegInf /\ score_lt NegInf beta = true.
Proof. intros. pose (n := NegInf). fold n. assert (forall x, score_lt x n = false) as Hn by (by intros []).
  pose proof (Hn alpha). pose proof (Hn beta). clearbody n. score_order [alpha; beta; n]. Qed.

Lemma ab_ok_init_min alpha beta :
  score_lt alpha beta = true ->
  beta = score_min beta PosInf /\ score_lt alpha PosInf = true.
Proof. intros. pose (n := PosInf). fold n. assert (forall x, score_lt n x = false) as Hn by (by intros []).
  pose proof (Hn alpha). pose proof (Hn beta). clearbody n. score_order [alpha; beta; n]. Qed.

(** What the top level needs of a successor's score: with [beta = math.inf]
    and [alpha] the best score so far, the pruned score beats the best score
    exactly when the full score does, and then the two are equal. *)
Lemma ab_top_step best v r :
  (score_lt best PosInf = true -> ab_ok best PosInf v r) ->
  score_gt v best = score_gt r best
  /\ (score_gt v best = true -> r = v /\ score_max best r = r)
  /\ score_max best best = best.
Proof.
  intros H. pose (p := PosInf). fold p in H.
  assert (forall x, score_lt p x = false) as Hp by (by intros []).
  pose proof (Hp best). pose proof (Hp v). pose proof (Hp r). clearbody p.
  destruct (score_lt best p) eqn:E.
  - specialize (H eq_refl).
    destruct (score_gt v best) eqn:E1, (score_gt r best) eqn:E2;
      score_order [best; v; r; p].
  - destruct (score_gt v best) eqn:E1, (score_gt r best) eqn:E2;
      clear H; score_order [best; v; r; p].
Qed.

Section AlphaBetaLoops.
Variable f : Board -> outcome score.
Variable g : Board -> score -> score -> outcome score.
Hypothesis Hfg : forall child v, f child = Done v ->
  forall alpha beta, exists r, g child alpha beta = Done r
    /\ (score_lt alpha beta = true -> ab_ok alpha beta v r).

Lemma mm_max_loop_ge children : forall M V,
  Minimax.max_loop f children M = Done V -> score_le M V = true.
Proof.
  induction children as [|[c ch] rest IH]; intros M V H; simpl in H.
  - inversion H; subst. score_order [V].
  - apply outcome_bind_Done in H as (v & _ & H). apply IH in H.
    score_order [M; V; v].
Qed.

Lemma mm_min_loop_le children : forall M V,
  Minimax.min_loop f children M = Done V -> score_le V M = true.
Proof.
  induction children as [|[c ch] rest IH]; intros M V H; simpl in H.
  - inversion H; subst. score_order [V].
  - apply outcome_bind_Done in H as (v & _ & H). apply IH in H.
    score_order [M; V; v].
Qed.

Lemma ab_max_loop_ok children : forall M V,
  Minimax.max_loop f children M = Done V ->
  forall m a beta, exists R,
    AlphaBeta.max_loop g children m a beta = Done R
    /\ (forall a0, score_lt a0 beta = true -> a = score_max a0 m ->
        ab_ok a0 beta M m -> score_lt m beta = true -> ab_ok a0 beta V R).
Proof.
  induction children as [|[c ch] rest IH]; intros M V H m a beta; simpl in H.
  - inversion H; subst. exists m. split; [done|]. auto.
  - apply outcome_bind_Done in H as (v & Hv & H).
    destruct (Hfg ch v Hv a beta) as (r & Hr & Hok). simpl. rewrite Hr. simpl.
    destruct (score_ge (score_max m r) beta) eqn:E.
    + exists (score_max m r). split; [done|]. intros a0 Hw -> Hinv Hm.
      eapply ab_max_exit; eauto using ab_window_max.
      apply mm_max_loop_ge in H. exact H.
    + destruct (IH _ _ H (score_max m r) (score_max a (score_max m r)) beta)
        as (R & HR & HRok).
      exists R. split; [done|]. intros a0 Hw -> Hinv Hm.
      destruct (ab_max_continue a0 beta M m v r) as (I1 & I2 & I3);
        eauto using ab_window_max.
Qed.

Lemma ab_min_loop_ok children : forall M V,
  Minimax.min_loop f children M = Done V ->
  forall m alpha b, exists R,
    AlphaBeta.min_loop g children m alpha b = Done R
    /\ (forall b0, score_lt alpha b0 = true -> b = score_min b0 m ->
        ab_ok alpha b0 M m -> score_lt alpha m = true -> ab_ok alpha b0 V R).
Proof.
  induction children as [|[c ch] rest IH]; intros M V H m alpha b; simpl in H.
  - inversion H; subst. exists m. split; [done|]. auto.
  - apply outcome_bind_Done in H as (v & Hv & H).
    destruct (Hfg ch v Hv alpha b) as (r & Hr & Hok). simpl. rewrite Hr. simpl.
    destruct (score_le (score_min m r) alpha) eqn:E.
    + exists (score_min m r). split; [done|]. intros b0 Hw -> Hinv Hm.
      eapply ab_min_exit; eauto using ab_window_min.
      apply mm_min_loop_le in H. exact H.
    + destruct (IH _ _ H (score_min m r) alpha (score_min b (score_min m r)))
        as (R & HR & HRok).
      exists R. split; [done|]. intros b0 Hw -> Hinv Hm.
      destruct (ab_min_continue alpha b0 M m v r) as (I1 & I2 & I3);
        eauto using ab_window_min.
Qed.

Lemma ab_top_loop_ok children : forall placement best res,
  Minimax.top_loop f children placement best = Done res ->
  AlphaBeta.top_loop g children placement best best PosInf = Done res.
Proof.
  induction children as [|[c ch] rest IH]; intros placement best res H; simpl in *.
  - done.
  - apply outcome_bind_Done in H as (v & Hv & H).
    destruct (Hfg ch v Hv best PosInf) as (r & -> & Hok). simpl.
    destruct (ab_top_step best v r Hok) as (E1 & E2 & E3).
    rewrite <- E1. destruct (score_gt v best).
    + destruct (E2 eq_refl) as [-> ->]. by apply IH.
    + rewrite E3. by apply IH.
Qed.
End AlphaBetaLoops.

Lemma ab_value_S mp fuel cp b d alpha beta :
  AlphaBeta.value mp (S fuel) cp b d alpha beta =
  if terminal b || (d =? 0)%Z then Done (Fin (evaluate mp b))
  else if bool_decide (cp = mp)
       then AlphaBeta.max_value (AlphaBeta.value mp fuel) cp b d alpha beta
       else AlphaBeta.min_value (AlphaBeta.value mp fuel) cp b d alpha beta.
Proof. reflexivity. Qed.

(** The score [alphabeta]'s [value] returns within a window, against the
    score [minimax]'s [value] returns for the same node. *)
Lemma ab_value_ok mp fuel : forall cp b d v,
  Minimax.value mp fuel cp b d = Done v ->
  forall alpha beta, exists r,
    AlphaBeta.value mp fuel cp b d alpha beta = Done r
    /\ (score_lt alpha beta = true -> ab_ok alpha beta v r).
Proof.
  induction fuel as [|fuel IH]; intros cp b d v H alpha beta; [discriminate|].
  rewrite mm_value_S in H. rewrite ab_value_S.
  destruct (terminal b || (d =? 0)%Z).
  - inversion H; subst. eexists. split; [done|]. intros _. apply ab_ok_refl.
  - destruct (bool_decide (cp = mp)).
    + unfold Minimax.max_value, AlphaBeta.max_value in *.
      rewrite get_child_boards_children in *. simpl in *.
      destruct (ab_max_loop_ok _ _ (fun child => IH (opponent cp) child (d - 1)%Z)
                  _ _ _ H NegInf alpha beta) as (R & HR & Hok).
      exists R. split; [done|]. intros Hw.
      destruct (ab_ok_init_max alpha beta Hw) as [E1 E2].
      apply Hok; auto. apply ab_ok_refl.
    + unfold Minimax.min_value, AlphaBeta.min_value in *.
      rewrite get_child_boards_children in *. simpl in *.
      destruct (ab_min_loop_ok _ _ (fun child => IH (opponent cp) child (d - 1)%Z)
                  _ _ _ H PosInf alpha beta) as (R & HR & Hok).
      exists R. split; [done|]. intros Hw.
      destruct (ab_ok_init_min alpha beta Hw) as [E1 E2].
      apply Hok; auto. apply ab_ok_refl.
Qed.

Lemma ab_run_ok fuel p b d res :
  Minimax.run fuel p b d = Done res -> AlphaBeta.run fuel p b d = Done res.
Proof.
  unfold Minimax.run, AlphaBeta.run. rewrite get_child_boards_children. simpl.
  apply ab_top_loop_ok. intros child v. apply ab_value_ok.
Qed.

Lemma mm_top_loop_total rec children : forall placement best,
  Forall (fun ch : nat * Board => exists z, rec ch.2 = Done (Fin z)) children ->
  exists res, Minimax.top_loop rec children placement best = Done res.
Proof.
  induction children as [|[c ch] rest IH]; intros placement best H; simpl.
  - eauto.
  - apply Forall_cons_1 in H as [[z Hz] H]. simpl in Hz. rewrite Hz. simpl.
    destruct (score_gt (Fin z) best); by apply IH.
Qed.

(** [minimax] returns: the budget [search_fuel] is never exhausted and no
    exception is raised. *)
Lemma minimax_run_total p b d :
  exists res, Minimax.run (search_fuel b) p b d = Done res.
Proof.
  unfold Minimax.run. rewrite get_child_boards_children. simpl.
  apply mm_top_loop_total. apply children_Forall. intros c b' Hin. simpl.
  apply mm_value_fin. apply empty_cells_child in Hin. unfold search_fuel. lia.
Qed.

Section Selection.
Context {S : Type} (gt : S -> S -> bool).
Hypothesis gt_asym : forall a b, gt a b = true -> gt b a = false.
Hypothesis gt_cotrans : forall a b c,
  gt a b = true -> gt a c = true \/ gt c b = true.

Lemma gt_trans a b c : gt a b = true -> gt b c = true -> gt a c = true.
Proof.
  intros H1 H2. destruct (gt_cotrans _ _ c H1) as [H|H]; [done|].
  apply gt_asym in H2. congruence.
Qed.

Lemma gt_le_trans a b c : gt a b = true -> gt c b = false -> gt a c = true.
Proof.
  intros H1 H2. destruct (gt_cotrans _ _ c H1) as [H|H]; [done|congruence].
Qed.

Lemma selected_step init scored placement best c s :
  selected gt init scored placement best ->
  selected gt init (scored ++ [(c, s)])
    (if gt s best then Some c else placement)
    (if gt s best then s else best).
Proof.
  intros Hsel. destruct (gt s best) eqn:E.
  - destruct placement as [c0|]; simpl in *.
    + destruct Hsel as [(pre & post & -> & Hpre & Hpost) Hinit]. split.
      * exists (pre ++ (c0, best) :: post), []. split; [done|]. split; [|constructor].
        apply Forall_app. split; [|constructor; [done|]].
        -- eapply Forall_impl; [exact Hpre|]. intros x Hx. simpl in *.
           eapply gt_trans; eauto.
        -- eapply Forall_impl; [exact Hpost|]. intros x Hx. simpl in *.
           eapply gt_le_trans; eauto.
      * eapply gt_trans; eauto.
    + destruct Hsel as [-> Hall]. split.
      * exists scored, []. split; [done|]. split; [|constructor].
        eapply Forall_impl; [exact Hall|]. intros x Hx. simpl in *.
        eapply gt_le_trans; eauto.
      * done.
  - destruct placement as [c0|]; simpl in *.
    + destruct Hsel as [(pre & post & -> & Hpre & Hpost) Hinit]. split; [|done].
      exists pre, (post ++ [(c, s)]). split; [by rewrite <- app_assoc|].
      split; [done|]. apply Forall_app. split; [done|]. constructor; [done|constructor].
    + destruct Hsel as [-> Hall]. split; [done|].
      apply Forall_app. split; [done|]. constructor; [done|constructor].
Qed.
End Selection.

Lemma score_gt_asym a b : score_gt a b = true -> score_gt b a = false.
Proof. intros. score_order [a; b]. Qed.

Lemma score_gt_cotrans a b c :
  score_gt a b = true -> score_gt a c = true \/ score_gt c b = true.
Proof. intros. score_order [a; b; c]. Qed.

Lemma scores_of_fin_exists (rec : Board -> outcome score) children :
  Forall (fun ch : nat * Board => exists z, rec ch.2 = Done (Fin z)) children ->
  exists scored, scores_of rec children scored
                 /\ Forall (fun x => is_fin x.2) scored.
Proof.
  induction 1 as [|[c ch] rest [z Hz] _ (scored & Hs & Hf)].
  - exists []. split; constructor.
  - exists ((c, Fin z) :: scored). split; constructor; auto. by exists z.
Qed.

Lemma mm_top_loop_selected rec children : forall scored,
  scores_of rec children scored ->
  forall seen placement best,
    selected score_gt NegInf seen placement best ->
    exists placement' best',
      Minimax.top_loop rec children placement best = Done (placement', best')
      /\ selected score_gt NegInf (seen ++ scored) placement' best'.
Proof.
  intros scored H. induction H as [|[c ch] [c' s] rest scored [Hc Hs] _ IH];
    intros seen placement best Hsel; simpl in *.
  - rewrite app_nil_r. eauto.
  - subst c'. rewrite Hs. simpl.
    pose proof (selected_step score_gt score_gt_asym score_gt_cotrans
                  _ _ _ _ c s Hsel) as Hstep.
    replace (seen ++ (c, s) :: scored) with ((seen ++ [(c, s)]) ++ scored)
      by (by rewrite <- app_assoc).
    destruct (score_gt s best); by apply IH.
Qed.

Lemma selected_None_fin seen placement best :
  selected score_gt NegInf seen placement best ->
  Forall (fun x => is_fin x.2) seen ->
  placement = None -> seen = [].
Proof.
  intros Hsel Hfin ->. destruct Hsel as [_ Hall].
  destruct seen as [|[c s] seen]; [done|].
  apply Forall_cons_1 in Hall as [H _]. apply Forall_cons_1 in Hfin as [[z Hz] _].
  simpl in *. subst s. discriminate.
Qed.

(** The top level of [minimax]: the scores of the successors, and the first
    best among them. *)
Lemma minimax_run_selected p b d :
  exists scored placement best,
    scores_of (fun child => Minimax.value p (search_fuel b) (opponent p) child (d - 1)%Z)
              (children p b) scored
    /\ Forall (fun x => is_fin x.2) scored
    /\ Minimax.run (search_fuel b) p b d = Done (placement, best)
    /\ selected score_gt NegInf scored placement best.
Proof.
  assert (Forall (fun ch : nat * Board => exists z,
            (fun child => Minimax.value p (search_fuel b) (opponent p) child (d - 1)%Z) ch.2
            = Done (Fin z)) (children p b)) as Hall.
  { apply children_Forall. intros c b' Hin. simpl.
    apply mm_value_fin. apply empty_cells_child in Hin. unfold search_fuel. lia. }
  destruct (scores_of_fin_exists _ _ Hall) as (scored & Hs & Hf).
  destruct (mm_top_loop_selected _ _ _ Hs [] None NegInf) as (pl & best & Hrun & Hsel).
  { split; [done|constructor]. }
  exists scored, pl, best. repeat split; auto.
  unfold Minimax.run. rewrite get_child_boards_children. exact Hrun.
Qed.

(** *** [expectimax] returns, whatever the arithmetic *)

Lemma ex_value_S {F} `{Arith F} mp fuel cp b d :
  Expectimax.value mp (S fuel) cp b d =
  if terminal b || (d =? 0)%Z then Done (of_int (evaluate mp b))
  else if bool_decide (cp = mp)
       then Expectimax.max_value (Expectimax.value mp fuel) cp b d
       else Expectimax.expected_value (Expectimax.value mp fuel) cp b d.
Proof. reflexivity. Qed.

Section ExpectimaxGood.
Context {F : Type} `{Arith F}.
(** A property of scores kept by the arithmetic of the search. *)
Variable good : F -> Prop.
Hypothesis good_of_int : forall z, good (of_int z).
Hypothesis good_add : forall a b, good a -> good b -> good (fadd a b).
Hypothesis good_mul : forall a b, good a -> good b -> good (fmul a b).
Hypothesis good_div : forall a b, good a -> good b -> good (fdiv a b).

Hypothesis good_max : forall x m,
  good x -> m = neg_inf \/ good m -> good (if fgt x m then x else m).

Lemma ex_max_loop_good rec children : forall m,
  Forall (fun ch : nat * Board => exists x, rec ch.2 = Done x /\ good x) children ->
  m = neg_inf \/ good m ->
  exists r, Expectimax.max_loop rec children m = Done r
            /\ (children <> [] \/ good m -> good r).
Proof.
  induction children as [|[c ch] rest IH]; intros m Hall Hm; simpl.
  - exists m. split; [done|]. intros [?|?]; [congruence|done].
  - apply Forall_cons_1 in Hall as [(x & Hx & Gx) Hall]. simpl in Hx. rewrite Hx. simpl.
    pose proof (good_max x m Gx Hm) as Gm.
    destruct (IH (if fgt x m then x else m) Hall (or_intror Gm)) as (r & Hr & G).
    exists r. split; [done|]. intros _. apply G. by right.
Qed.

Lemma ex_sum_loop_good rec children : forall prob total,
  Forall (fun ch : nat * Board => exists x, rec ch.2 = Done x /\ good x) children ->
  good prob -> good total ->
  exists r, Expectimax.sum_loop rec children prob total = Done r /\ good r.
Proof.
  induction children as [|[c ch] rest IH]; intros prob total Hall Gp Gt; simpl.
  - eauto.
  - apply Forall_cons_1 in Hall as [(x & Hx & Gx) Hall]. simpl in Hx. rewrite Hx. simpl.
    apply IH; auto.
Qed.

Lemma ex_value_good mp fuel : forall cp b d,
  empty_cells b < fuel ->
  exists x, Expectimax.value mp fuel cp b d = Done x /\ good x.
Proof.
  induction fuel as [|fuel IH]; intros cp b d Hf; [lia|].
  rewrite ex_value_S. destruct (terminal b) eqn:T; simpl; [eauto|].
  destruct (d =? 0)%Z; [eauto|].
  assert (Forall (fun ch : nat * Board => exists x,
            (fun child => Expectimax.value mp fuel (opponent cp) child (d - 1)%Z) ch.2
            = Done x /\ good x) (children cp b)) as Hall.
  { apply children_Forall. intros c b' Hin. simpl. apply IH.
    apply empty_cells_child in Hin. lia. }
  pose proof (not_terminal_children cp b T) as Hne.
  destruct (bool_decide (cp = mp)).
  - unfold Expectimax.max_value. rewrite get_child_boards_children. simpl.
    destruct (ex_max_loop_good _ _ neg_inf Hall (or_introl eq_refl)) as (r & -> & Hr).
    eauto.
  - unfold Expectimax.expected_value. rewrite get_child_boards_children. simpl.
    destruct (children cp b) as [|ch rest] eqn:E; [done|]. rewrite <- E in *.
    apply ex_sum_loop_good; auto.
Qed.
End ExpectimaxGood.

(** *** Exact arithmetic *)

Lemma exact_gt_asym a b : exact_gt a b = true -> exact_gt b a = false.
Proof.
  destruct a as [|x], b as [|y]; simpl; try done.
  rewrite bool_decide_eq_true, bool_decide_eq_false. intros H1 H2.
  apply (Qclt_not_le _ _ H1). by apply Qclt_le_weak.
Qed.

Lemma exact_gt_cotrans a b c :
  exact_gt a b = true -> exact_gt a c = true \/ exact_gt c b = true.
Proof.
  destruct a as [|x], b as [|y], c as [|z]; simpl; auto; try done.
  rewrite !bool_decide_eq_true. intros H.
  destruct (Qclt_le_dec z x) as [L|L]; [by left|right].
  eapply Qclt_le_trans; eauto.
Qed.

Lemma good_exact_of_int z : good_exact (of_int z).
Proof. by eexists. Qed.
Lemma good_exact_add a b : good_exact a -> good_exact b -> good_exact (fadd a b).
Proof. intros [x ->] [y ->]. by eexists. Qed.
Lemma good_exact_mul a b : good_exact a -> good_exact b -> good_exact (fmul a b).
Proof. intros [x ->] [y ->]. by eexists. Qed.
Lemma good_exact_div a b : good_exact a -> good_exact b -> good_exact (fdiv a b).
Proof. intros [x ->] [y ->]. by eexists. Qed.
Lemma good_exact_gt x : good_exact x -> fgt x neg_inf = true.
Proof. by intros [q ->]. Qed.

Lemma good_exact_max (x m : exact) :
  good_exact x -> m = neg_inf \/ good_exact m -> good_exact (if fgt x m then x else m).
Proof. intros [q ->] [->|[q' ->]]; simpl; [by eexists|]. case_bool_decide; by eexists. Qed.

Lemma ex_value_exact mp fuel cp b d :
  empty_cells b < fuel ->
  exists q, Expectimax.value (F:=exact) mp fuel cp b d = Done (EFin q).
Proof.
  intros Hf.
  destruct (ex_value_good good_exact good_exact_of_int good_exact_add
              good_exact_mul good_exact_div good_exact_max mp fuel cp b d Hf)
    as (x & Hx & [q ->]).
  eauto.
Qed.

(** *** Columns of the successors *)

Lemma children_fst_sorted p b : StronglySorted lt (map fst (children p b)).
Proof.
  unfold children. generalize 0 as i. induction (cols b) as [|n IH]; intros i; simpl.
  - constructor.
  - assert (forall j, Forall (lt i)
      (map fst (omap (fun c => if placeable b c then pair c <$> place p c b else None)
                     (seq (S i) j)))) as Hlt.
    { intros j. apply Forall_forall. intros c Hc.
      apply list_elem_of_fmap in Hc as ([c' b'] & -> & Hin).
      apply list_elem_of_omap in Hin as (x & Hx & E).
      apply elem_of_seq in Hx.
      destruct (placeable b x); [|discriminate].
      destruct (place p x b); simpl in E; [|discriminate].
      inversion E; subst. simpl. lia. }
    destruct (placeable b i); [|apply IH].
    destruct (place p i b); simpl; [|apply IH].
    constructor; [apply IH|apply Hlt].
Qed.

Lemma scores_of_fst {S} (rec : Board -> outcome S) children scored :
  scores_of rec children scored -> map fst scored = map fst children.
Proof. induction 1 as [|ch sc ? ? [E _] _ IH]; simpl; [done|]. by rewrite E, IH. Qed.

Lemma first_best_lowest {S} (gt : S -> S -> bool) scored c s :
  (forall a b, gt a b = true -> gt b a = false) ->
  (forall a, gt a a = false) ->
  StronglySorted lt (map fst scored) ->
  first_best gt scored c s -> lowest_best gt scored c s.
Proof.
  intros Hasym Hirr Hsort (pre & post & -> & Hpre & Hpost). split; [|split].
  - apply elem_of_app. right. apply elem_of_cons. by left.
  - intros c' s' Hin. apply elem_of_app in Hin as [Hin|Hin].
    + rewrite Forall_forall in Hpre. apply Hasym. apply (Hpre _ Hin).
    + apply elem_of_cons in Hin as [[= -> ->]|Hin]; [apply Hirr|].
      rewrite Forall_forall in Hpost. apply (Hpost _ Hin).
  - intros c' s' Hin Hge. apply elem_of_app in Hin as [Hin|Hin].
    + rewrite Forall_forall in Hpre. specialize (Hpre _ Hin). simpl in Hpre. congruence.
    + apply elem_of_cons in Hin as [[= -> ->]|Hin]; [done|].
      rewrite map_app in Hsort. simpl in Hsort.
      apply StronglySorted_app in Hsort as (_ & _ & Hsort).
      apply StronglySorted_cons in Hsort as [Hall _].
      rewrite Forall_forall in Hall.
      assert (c' ∈ map fst post) as Hc'.
      { apply list_elem_of_fmap. by exists (c', s'). }
      specialize (Hall _ Hc'). lia.
Qed.

Lemma score_gt_irrefl a : score_gt a a = false.
Proof. score_order [a]. Qed.

Lemma exact_gt_irrefl a : exact_gt a a = false.
Proof.
  destruct a as [|x]; simpl; [done|]. apply bool_decide_eq_false.
  intros H. by apply Qclt_not_eq in H.
Qed.

Section ExpectimaxSelection.
Context {F : Type} `{Arith F}.
Hypothesis fgt_asym : forall a b : F, fgt a b = true -> fgt b a = false.
Hypothesis fgt_cotrans : forall a b c : F,
  fgt a b = true -> fgt a c = true \/ fgt c b = true.

Lemma ex_top_loop_selected rec children : forall scored,
  scores_of rec children scored ->
  forall seen placement best,
    selected fgt neg_inf seen placement best ->
    exists placement' best',
      Expectimax.top_loop rec children placement best = Done (placement', best')
      /\ selected fgt neg_inf (seen ++ scored) placement' best'.
Proof.
  intros scored H0. induction H0 as [|[c ch] [c' s] rest scored [Hc Hs] _ IH];
    intros seen placement best Hsel; simpl in *.
  - rewrite app_nil_r. eauto.
  - subst c'. rewrite Hs. simpl.
    pose proof (selected_step fgt fgt_asym fgt_cotrans _ _ _ _ c s Hsel) as Hstep.
    replace (seen ++ (c, s) :: scored) with ((seen ++ [(c, s)]) ++ scored)
      by (by rewrite <- app_assoc).
    destruct (fgt s best); by apply IH.
Qed.
End ExpectimaxSelection.

Lemma scores_of_good_exists {S} (good : S -> Prop) (rec : Board -> outcome S) children :
  Forall (fun ch : nat * Board => exists x, rec ch.2 = Done x /\ good x) children ->
  exists scored, scores_of rec children scored
                 /\ Forall (fun x => good x.2) scored.
Proof.
  induction 1 as [|[c ch] rest (x & Hx & Gx) _ (scored & Hs & Hf)].
  - exists []. split; constructor.
  - exists ((c, x) :: scored). split; constructor; auto.
Qed.

(** The top level of [expectimax] in exact arithmetic. *)
Lemma expectimax_run_selected p b d :
  exists scored placement best,
    scores_of (fun child => Expectimax.value (F:=exact) p (search_fuel b)
                              (opponent p) child (d - 1)%Z)
              (children p b) scored
    /\ Forall (fun x => good_exact x.2) scored
    /\ Expectimax.run (F:=exact) (search_fuel b) p b d = Done (placement, best)
    /\ selected exact_gt ENegInf scored placement best.
Proof.
  assert (Forall (fun ch : nat * Board => exists x,
            (fun child => Expectimax.value (F:=exact) p (search_fuel b)
                            (opponent p) child (d - 1)%Z) ch.2
            = Done x /\ good_exact x) (children p b)) as Hall.
  { apply children_Forall. intros c b' Hin. simpl.
    destruct (ex_value_exact p (search_fuel b) (opponent p) b' (d - 1)) as [q Hq].
    - apply empty_cells_child in Hin. unfold search_fuel. lia.
    - exists (EFin q). split; [done|by eexists]. }
  destruct (scores_of_good_exists _ _ _ Hall) as (scored & Hs & Hf).
  destruct (@ex_top_loop_selected exact exact_arith exact_gt_asym exact_gt_cotrans
              _ _ _ Hs [] None ENegInf)
    as (pl & best & Hrun & Hsel).
  { split; [done|constructor]. }
  exists scored, pl, best. repeat split; auto.
  unfold Expectimax.run. rewrite get_child_boards_children. exact Hrun.
Qed.

(** From the loop invariant to the statement about the returned column. *)
Lemma selected_chosen {S} (gt : S -> S -> bool) (good : S -> Prop) init
    scored placement best :
  (forall a b, gt a b = true -> gt b a = false) ->
  (forall a, gt a a = false) ->
  (forall x, good x -> gt x init = true) ->
  StronglySorted lt (map fst scored) ->
  Forall (fun x => good x.2) scored ->
  selected gt init scored placement best ->
  chosen gt scored placement best.
Proof.
  intros Hasym Hirr Hgood Hsort Hall Hsel. destruct placement as [c|]; simpl in *.
  - destruct Hsel as [Hfb _]. split; [done|]. by apply first_best_lowest.
  - destruct Hsel as [_ Hno]. destruct scored as [|[c s] scored]; [done|].
    apply Forall_cons_1 in Hno as [Hno _]. apply Forall_cons_1 in Hall as [Hg _].
    simpl in *. rewrite (Hgood _ Hg) in Hno. discriminate.
Qed.

Lemma children_nil p b :
  children p b = [] <-> forall c, c < cols b -> placeable b c = false.
Proof.
  split.
  - intros E c Hc. destruct (placeable b c) eqn:P; [|done].
    destruct (placeable_place p c b P) as [b' Hb'].
    assert ((c, b') ∈ children p b) as Hin by (apply elem_of_children; auto).
    rewrite E in Hin. by apply elem_of_nil in Hin.
  - intros H. destruct (children p b) as [|[c b'] l] eqn:E; [done|].
    assert ((c, b') ∈ children p b) as Hin by (rewrite E; apply elem_of_cons; by left).
    apply elem_of_children in Hin as (Hc & P & _). rewrite (H c Hc) in P. discriminate.
Qed.

Lemma chosen_legal {S} (gt : S -> S -> bool) (rec : Board -> outcome S) p b
    scored placement best :
  scores_of rec (children p b) scored ->
  chosen gt scored placement best ->
  legal_choice b placement.
Proof.
  intros Hs Hch. pose proof (scores_of_fst _ _ _ Hs) as Hfst.
  split.
  - rewrite <- (children_nil p). split.
    + intros ->. simpl in Hch. subst scored. by inversion Hs.
    + intros E. rewrite E in Hs. inversion Hs; subst.
      destruct placement as [c|]; [|done].
      destruct Hch as [_ (Hin & _)]. by apply elem_of_nil in Hin.
  - intros c ->. destruct Hch as [_ (Hin & _)].
    assert (c ∈ map fst scored) as Hc by (apply list_elem_of_fmap; by exists (c, best)).
    rewrite Hfst in Hc. apply list_elem_of_fmap in Hc as ([c' b'] & -> & Hin').
    apply elem_of_children in Hin' as (? & ? & _). done.
Qed.

Lemma minimax_chosen p b d :
  exists scored placement best,
    scores_of (fun child => Minimax.value p (search_fuel b) (opponent p) child (d - 1)%Z)
              (children p b) scored
    /\ Minimax.run (search_fuel b) p b d = Done (placement, best)
    /\ chosen score_gt scored placement best.
Proof.
  destruct (minimax_run_selected p b d) as (scored & pl & best & Hs & Hf & Hrun & Hsel).
  exists scored, pl, best. repeat split; auto.
  eapply (selected_chosen score_gt is_fin); eauto using score_gt_asym, score_gt_irrefl.
  - by intros x [z ->].
  - rewrite (scores_of_fst _ _ _ Hs). apply children_fst_sorted.
Qed.

Lemma expectimax_chosen p b d :
  exists scored placement best,
    scores_of (fun child => Expectimax.value (F:=exact) p (search_fuel b)
                              (opponent p) child (d - 1)%Z)
              (children p b) scored
    /\ Expectimax.run (F:=exact) (search_fuel b) p b d = Done (placement, best)
    /\ chosen exact_gt scored placement best.
Proof.
  destruct (expectimax_run_selected p b d) as (scored & pl & best & Hs & Hf & Hrun & Hsel).
  exists scored, pl, best. repeat split; auto.
  eapply (selected_chosen exact_gt good_exact); eauto using exact_gt_asym, exact_gt_irrefl.
  - apply good_exact_gt.
  - rewrite (scores_of_fst _ _ _ Hs). apply children_fst_sorted.
Qed.

(** * The claims *)

(** C1.  For every board, player and depth limit, [alphabeta] returns the
    column [minimax] returns, and its loop ends with the best score the loop
    of [minimax] ends with: pruning never changes the result.  Both calls
    return (no exception, the recursion budget is not exhausted). *)
Theorem alphabeta_equals_minimax (player : player) (board : Board) (depth_limit : Z) :
  alphabeta player board depth_limit = minimax player board depth_limit
  /\ AlphaBeta.run (search_fuel board) player board depth_limit
     = Minimax.run (search_fuel board) player board depth_limit
  /\ exists placement best_score,
       Minimax.run (search_fuel board) player board depth_limit
       = Done (placement, best_score)
       /\ minimax player board depth_limit = Done placement.
Proof.
  destruct (minimax_run_total player board depth_limit) as [[pl best] Hrun].
  pose proof (ab_run_ok _ _ _ _ _ Hrun) as Hab.
  unfold alphabeta, minimax. rewrite Hab, Hrun. split; [done|]. split; [done|].
  exists pl, best. split; reflexivity.
Qed.

(** ** The evaluator as a sum over segments *)

Lemma opponent_involutive p : opponent (opponent p) = p.
Proof. by destruct p. Qed.

Lemma opponent_neq p : opponent p <> p.
Proof. by destruct p. Qed.

Lemma weighted_alter sc k :
  length sc = 5 ->
  weighted (alter (Z.add 1) k sc) = (weighted sc + weight k)%Z.
Proof.
  intros Hlen.
  do 6 (destruct sc as [|? sc]; try discriminate).
  do 5 (destruct k as [|k]; [unfold weighted, weight; simpl; lia|]).
  unfold weighted, weight; simpl; lia.
Qed.

Lemma tally_spec p a sc adv s :
  length sc = 5 -> length adv = 5 ->
  let r := tally p a (sc, adv) s in
  length r.1 = 5 /\ length r.2 = 5
  /\ weighted r.1 = (weighted sc + reward_of p a s)%Z
  /\ weighted r.2 = (weighted adv + reward_of a p s)%Z.
Proof.
  intros H1 H2. unfold tally, reward_of. simpl.
  destruct (bool_decide (invalid_slot ∈ s)); simpl; [repeat split; auto; lia|].
  destruct (bool_decide (disc a ∈ s)), (bool_decide (disc p ∈ s)); simpl;
    rewrite ?length_alter, ?weighted_alter by done; repeat split; auto; lia.
Qed.

Lemma tally_fold p a segs : forall sc adv,
  length sc = 5 -> length adv = 5 ->
  let r := fold_left (tally p a) segs (sc, adv) in
  weighted r.1 = (weighted sc + foldr Z.add 0 (map (reward_of p a) segs))%Z
  /\ weighted r.2 = (weighted adv + foldr Z.add 0 (map (reward_of a p) segs))%Z.
Proof.
  induction segs as [|s segs IH]; intros sc adv H1 H2; simpl.
  - lia.
  - destruct (tally_spec p a sc adv s H1 H2) as (L1 & L2 & E1 & E2).
    destruct (tally p a (sc, adv) s) as [sc' adv'] eqn:E. simpl in *.
    destruct (IH sc' adv' L1 L2) as [I1 I2]. simpl in *. lia.
Qed.

(** [evaluate] is the reward of the player minus the reward of the adversary. *)
Lemma evaluate_reward p b :
  evaluate p b = (reward p b - reward (opponent p) b)%Z.
Proof.
  unfold evaluate, reward. rewrite opponent_involutive.
  change (if bool_decide (p = PLAYER1) then PLAYER2 else PLAYER1) with (opponent p).
  destruct (tally_fold p (opponent p) (segments b) (replicate 5 0%Z) (replicate 5 0%Z))
    as [E1 E2]; [done|done|].
  destruct (fold_left _ _ _) as [sc adv]. simpl in *.
  change (weighted (replicate 5 0%Z)) with 0%Z in *. lia.
Qed.

Lemma evaluate_opponent p b : evaluate p b = (- evaluate (opponent p) b)%Z.
Proof. rewrite !evaluate_reward, opponent_involutive. lia. Qed.

Lemma slice4_length {A} (l : list A) i : length (slice4 l i) <= 4.
Proof. unfold slice4. rewrite length_take. lia. Qed.

Lemma segments_length b s : s ∈ segments b -> length s <= 4.
Proof.
  unfold segments, segments_of. intros H.
  repeat (apply elem_of_app in H as [H|H]);
    apply list_elem_of_In, in_flat_map in H as (x & _ & H);
    apply in_map_iff in H as (i & <- & _); apply slice4_length.
Qed.

Lemma count_of_le x s : count_of x s <= length s.
Proof. unfold count_of. apply length_filter. Qed.

Lemma count_of_full x s :
  count_of x s = length s -> Forall (fun y => y = x) s.
Proof.
  unfold count_of. induction s as [|y s IH]; simpl; [constructor|].
  destruct (decide (y = x)) as [->|N].
  - rewrite filter_cons_True by done. simpl. intros [= H]. constructor; auto.
  - rewrite filter_cons_False by done. intros H.
    pose proof (length_filter (fun y => y = x) s). lia.
Qed.

Lemma count_four_winner p s :
  length s <= 4 -> count_of (disc p) s = 4 -> segment_winner s = Some p.
Proof.
  intros Hlen Hc. pose proof (count_of_le (disc p) s).
  assert (length s = 4) as L by lia.
  assert (Forall (fun y => y = disc p) s) as Hall by (apply count_of_full; lia).
  do 5 (destruct s as [|? s]; try discriminate).
  repeat (apply Forall_cons_1 in Hall as [-> Hall]).
  simpl. by rewrite !bool_decide_eq_true_2.
Qed.

Lemma winner_four p s :
  segment_winner s = Some p -> s = replicate 4 (disc p).
Proof.
  unfold segment_winner.
  destruct s as [|[|[|q]] [|x2 [|x3 [|x4 [|? ?]]]]]; try discriminate.
  destruct (bool_decide (x2 = disc q)) eqn:E2; [|discriminate].
  destruct (bool_decide (x3 = disc q)) eqn:E3; [|discriminate].
  destruct (bool_decide (x4 = disc q)) eqn:E4; [|discriminate].
  apply bool_decide_eq_true in E2, E3, E4. subst. by intros [= ->].
Qed.

Lemma weight_nonneg k : (0 <= weight k)%Z.
Proof. do 5 (destruct k as [|k]; [unfold weight; simpl; lia|]). unfold weight; simpl; lia. Qed.

Lemma weight_le_3 k : k <= 3 -> (weight k <= 16)%Z.
Proof. intros H. do 4 (destruct k as [|k]; [unfold weight; simpl; lia|]). lia. Qed.

Lemma reward_of_nonneg p a s : (0 <= reward_of p a s)%Z.
Proof.
  unfold reward_of. repeat case_bool_decide; try lia. apply weight_nonneg.
Qed.

Lemma sum_ge_elem {A} (f : A -> Z) (l : list A) x :
  (forall y, 0 <= f y)%Z -> x ∈ l -> (f x <= foldr Z.add 0 (map f l))%Z.
Proof.
  intros Hf. induction l as [|y l IH]; intros Hin; [by apply elem_of_nil in Hin|].
  simpl. apply elem_of_cons in Hin as [->|Hin].
  - assert (0 <= foldr Z.add 0 (map f l))%Z; [|lia].
    clear IH. induction l as [|z l IH]; simpl; [lia|]. specialize (Hf z). lia.
  - specialize (IH Hin). specialize (Hf y). lia.
Qed.

Lemma sum_le_count {A} (f : A -> Z) (P : A -> Prop) `{forall x, Decision (P x)}
    (l : list A) (k : Z) :
  (0 <= k)%Z ->
  (forall y, y ∈ l -> (P y -> f y <= k) /\ (~ P y -> f y <= 0))%Z ->
  (foldr Z.add 0 (map f l) <= k * Z.of_nat (length (filter P l)))%Z.
Proof.
  intros Hk. induction l as [|y l IH]; intros Hf; simpl; [lia|].
  assert (foldr Z.add 0 (map f l) <= k * Z.of_nat (length (filter P l)))%Z as IH'.
  { apply IH. intros z Hz. apply Hf. by apply elem_of_cons; right. }
  destruct (Hf y) as [H1 H2]; [by apply elem_of_cons; left|].
  destruct (decide (P y)).
  - rewrite filter_cons_True by done. simpl length. specialize (H1 p). lia.
  - rewrite filter_cons_False by done. specialize (H2 n). lia.
Qed.

Lemma has_four_elem p b :
  has_four p b = true <-> exists s, s ∈ segments b /\ segment_winner s = Some p.
Proof.
  unfold has_four. rewrite existsb_exists. split.
  - intros (s & Hin & E). exists s. split; [by apply list_elem_of_In|].
    by apply bool_decide_eq_true in E.
  - intros (s & Hin & E). exists s. split; [by apply list_elem_of_In|].
    by apply bool_decide_eq_true.
Qed.

(** A four in a row is worth the weight 1000. *)
Lemma reward_four p b : has_four p b = true -> (1000 <= reward p b)%Z.
Proof.
  intros H. apply has_four_elem in H as (s & Hin & E).
  apply winner_four in E. unfold reward.
  etransitivity; [|apply (sum_ge_elem _ _ s); [apply reward_of_nonneg|done]].
  subst s. destruct p; vm_compute; discriminate.
Qed.

(** Without a four in a row, each segment is worth at most 16, and only the
    segments free of the other player's discs count. *)
Lemma reward_no_four p b :
  has_four (opponent p) b = false ->
  (reward (opponent p) b <= 16 * Z.of_nat (length (free_segments p b)))%Z.
Proof.
  intros H. unfold reward, free_segments, valid_segments.
  rewrite opponent_involutive, list_filter_filter.
  apply sum_le_count; [lia|]. intros s Hin. unfold reward_of. split.
  - intros [Hp Hv]. rewrite bool_decide_eq_false_2 by done.
    rewrite bool_decide_eq_false_2 by done.
    apply weight_le_3. pose proof (segments_length _ _ Hin) as Hlen.
    pose proof (count_of_le (disc (opponent p)) s) as Hc.
    destruct (decide (count_of (disc (opponent p)) s = 4)) as [E|N]; [|lia].
    exfalso. apply (count_four_winner _ _ Hlen) in E.
    assert (has_four (opponent p) b = true) as C by (apply has_four_elem; eauto).
    congruence.
  - intros N. repeat case_bool_decide; try lia. exfalso. apply N. done.
Qed.

Lemma free_le_valid p b :
  length (free_segments p b) <= length (valid_segments b).
Proof. apply length_filter. Qed.

(** X1.  The evaluator is exactly antisymmetric: for every player
    and board, the score of one player is the negated score of the other.
    The two filters of the double scan mirror each other. *)
Theorem evaluate_antisymmetric (p : player) (b : Board) :
  evaluate p b = (- evaluate (opponent p) b)%Z.
Proof. rewrite !evaluate_reward, opponent_involutive. lia. Qed.

(** No player and board break antisymmetry. *)
Lemma evaluate_never_asymmetric :
  ~ exists p b, evaluate p b <> (- evaluate (opponent p) b)%Z.
Proof. intros (p & b & H). apply H. apply evaluate_opponent. Qed.

(** X2.  On a board where [p] has four in a row and the opponent
    has none, the score is at least 1000 less 16 for every segment inside the
    grid that holds no disc of [p], hence at least 1000 less [3 * 16] per
    segment; it is positive when fewer than 63 segments are free of [p]'s
    discs. *)
Theorem evaluate_four_in_a_row (p : player) (b : Board) :
  has_four p b = true -> has_four (opponent p) b = false ->
  (1000 - 16 * Z.of_nat (length (free_segments p b)) <= evaluate p b)%Z
  /\ (1000 - 3 * 16 * Z.of_nat (length (valid_segments b)) <= evaluate p b)%Z
  /\ (length (free_segments p b) <= 62 -> (0 < evaluate p b)%Z).
Proof.
  intros H1 H2. rewrite evaluate_reward.
  pose proof (reward_four p b H1). pose proof (reward_no_four p b H2).
  pose proof (free_le_valid p b). repeat split; lia.
Qed.

Lemma evaluate_four_in_a_row_witness :
  (1000 - 16 * Z.of_nat (length (free_segments PLAYER1 column_win))
   <= evaluate PLAYER1 column_win)%Z
  /\ (1000 - 3 * 16 * Z.of_nat (length (valid_segments column_win))
      <= evaluate PLAYER1 column_win)%Z
  /\ (length (free_segments PLAYER1 column_win) <= 62 ->
      (0 < evaluate PLAYER1 column_win)%Z).
Proof.
  apply (evaluate_four_in_a_row PLAYER1 column_win); vm_compute; reflexivity.
Defined.

(** The bound is needed.  On a wide board PLAYER1 has four in a row, PLAYER2
    has none, and the score of PLAYER1 is negative. *)
Lemma evaluate_four_not_positive :
  has_four PLAYER1 wide_board = true
  /\ has_four PLAYER2 wide_board = false
  /\ evaluate PLAYER1 wide_board = (-40)%Z.
Proof. vm_compute. repeat split. Qed.

(** ** Searches that the depth limit never cuts off *)

Lemma mm_max_loop_ext f g children : forall m,
  (forall ch, ch ∈ children -> f ch.2 = g ch.2) ->
  Minimax.max_loop f children m = Minimax.max_loop g children m.
Proof.
  induction children as [|[c ch] rest IH]; intros m H; simpl; [done|].
  pose proof (H (c, ch)) as E0; simpl in E0; rewrite E0 by (apply elem_of_cons; by left).
  destruct (g _); simpl; try done. apply IH. intros x Hx. apply H. apply elem_of_cons; by right.
Qed.

Lemma mm_min_loop_ext f g children : forall m,
  (forall ch, ch ∈ children -> f ch.2 = g ch.2) ->
  Minimax.min_loop f children m = Minimax.min_loop g children m.
Proof.
  induction children as [|[c ch] rest IH]; intros m H; simpl; [done|].
  pose proof (H (c, ch)) as E0; simpl in E0; rewrite E0 by (apply elem_of_cons; by left).
  destruct (g _); simpl; try done. apply IH. intros x Hx. apply H. apply elem_of_cons; by right.
Qed.

Lemma mm_top_loop_ext f g children : forall placement best,
  (forall ch, ch ∈ children -> f ch.2 = g ch.2) ->
  Minimax.top_loop f children placement best = Minimax.top_loop g children placement best.
Proof.
  induction children as [|[c ch] rest IH]; intros placement best H; simpl; [done|].
  pose proof (H (c, ch)) as E0; simpl in E0; rewrite E0 by (apply elem_of_cons; by left).
  assert (forall x, x ∈ rest -> f x.2 = g x.2) as H'
    by (intros x Hx; apply H; apply elem_of_cons; by right).
  destruct (g _); simpl; try done. destruct (score_gt _ _); by apply IH.
Qed.

Lemma ab_max_loop_ext f g children : forall m a b,
  (forall ch x y, ch ∈ children -> f ch.2 x y = g ch.2 x y) ->
  AlphaBeta.max_loop f children m a b = AlphaBeta.max_loop g children m a b.
Proof.
  induction children as [|[c ch] rest IH]; intros m a b H; simpl; [done|].
  pose proof (H (c, ch)) as E0; simpl in E0; rewrite E0 by (apply elem_of_cons; by left).
  destruct (g _ _ _); simpl; try done. destruct (score_ge _ _); [done|].
  apply IH. intros x ? ? Hx. apply H. apply elem_of_cons; by right.
Qed.

Lemma ab_min_loop_ext f g children : forall m a b,
  (forall ch x y, ch ∈ children -> f ch.2 x y = g ch.2 x y) ->
  AlphaBeta.min_loop f children m a b = AlphaBeta.min_loop g children m a b.
Proof.
  induction children as [|[c ch] rest IH]; intros m a b H; simpl; [done|].
  pose proof (H (c, ch)) as E0; simpl in E0; rewrite E0 by (apply elem_of_cons; by left).
  destruct (g _ _ _); simpl; try done. destruct (score_le _ _); [done|].
  apply IH. intros x ? ? Hx. apply H. apply elem_of_cons; by right.
Qed.

Lemma ab_top_loop_ext f g children : forall placement best a b,
  (forall ch x y, ch ∈ children -> f ch.2 x y = g ch.2 x y) ->
  AlphaBeta.top_loop f children placement best a b
  = AlphaBeta.top_loop g children placement best a b.
Proof.
  induction children as [|[c ch] rest IH]; intros placement best a b H; simpl; [done|].
  pose proof (H (c, ch)) as E0; simpl in E0; rewrite E0 by (apply elem_of_cons; by left).
  assert (forall x u v, x ∈ rest -> f x.2 u v = g x.2 u v) as H'
    by (intros x ? ? Hx; apply H; apply elem_of_cons; by right).
  destruct (g _ _ _); simpl; try done. destruct (score_gt _ _); by apply IH.
Qed.

Section ExpectimaxExt.
Context {F : Type} `{Arith F}.

Lemma ex_max_loop_ext f g children : forall m : F,
  (forall ch, ch ∈ children -> f ch.2 = g ch.2) ->
  Expectimax.max_loop f children m = Expectimax.max_loop g children m.
Proof.
  induction children as [|[c ch] rest IH]; intros m Hfg; simpl; [done|].
  pose proof (Hfg (c, ch)) as E0; simpl in E0; rewrite E0 by (apply elem_of_cons; by left).
  destruct (g _); simpl; try done. apply IH. intros x Hx. apply Hfg. apply elem_of_cons; by right.
Qed.

Lemma ex_sum_loop_ext f g children : forall prob total : F,
  (forall ch, ch ∈ children -> f ch.2 = g ch.2) ->
  Expectimax.sum_loop f children prob total = Expectimax.sum_loop g children prob total.
Proof.
  induction children as [|[c ch] rest IH]; intros prob total Hfg; simpl; [done|].
  pose proof (Hfg (c, ch)) as E0; simpl in E0; rewrite E0 by (apply elem_of_cons; by left).
  destruct (g _); simpl; try done. apply IH. intros x Hx. apply Hfg. apply elem_of_cons; by right.
Qed.

Lemma ex_top_loop_ext f g children : forall placement (best : F),
  (forall ch, ch ∈ children -> f ch.2 = g ch.2) ->
  Expectimax.top_loop f children placement best
  = Expectimax.top_loop g children placement best.
Proof.
  induction children as [|[c ch] rest IH]; intros placement best Hfg; simpl; [done|].
  pose proof (Hfg (c, ch)) as E0; simpl in E0; rewrite E0 by (apply elem_of_cons; by left).
  assert (forall x, x ∈ rest -> f x.2 = g x.2) as H'
    by (intros x Hx; apply Hfg; apply elem_of_cons; by right).
  destruct (g _); simpl; try done. destruct (fgt _ _); by apply IH.
Qed.
End ExpectimaxExt.

Lemma uncut_child p b c b' d :
  (c, b') ∈ children p b -> uncut b d -> uncut b' (d - 1).
Proof.
  intros Hin [H|H]; apply empty_cells_child in Hin; unfold uncut; lia.
Qed.

Lemma uncut_nonzero b d : terminal b = false -> uncut b d -> (d =? 0)%Z = false.
Proof.
  intros T [H|H]; apply Z.eqb_neq; [lia|].
  apply not_terminal_empty_cells in T. lia.
Qed.

Lemma mm_value_uncut mp fuel : forall cp b d d',
  uncut b d -> uncut b d' ->
  Minimax.value mp fuel cp b d = Minimax.value mp fuel cp b d'.
Proof.
  induction fuel as [|fuel IH]; intros cp b d d' U U'; [done|].
  rewrite !mm_value_S. destruct (terminal b) eqn:T; [done|]. simpl.
  rewrite (uncut_nonzero b d T U), (uncut_nonzero b d' T U').
  unfold Minimax.max_value, Minimax.min_value.
  rewrite get_child_boards_children. simpl.
  destruct (bool_decide (cp = mp));
    [apply mm_max_loop_ext|apply mm_min_loop_ext];
    intros [c b'] Hin; apply IH; eapply uncut_child; eauto.
Qed.

Lemma ab_value_uncut mp fuel : forall cp b d d' alpha beta,
  uncut b d -> uncut b d' ->
  AlphaBeta.value mp fuel cp b d alpha beta = AlphaBeta.value mp fuel cp b d' alpha beta.
Proof.
  induction fuel as [|fuel IH]; intros cp b d d' alpha beta U U'; [done|].
  rewrite !ab_value_S. destruct (terminal b) eqn:T; [done|]. simpl.
  rewrite (uncut_nonzero b d T U), (uncut_nonzero b d' T U').
  unfold AlphaBeta.max_value, AlphaBeta.min_value.
  rewrite get_child_boards_children. simpl.
  destruct (bool_decide (cp = mp));
    [apply ab_max_loop_ext|apply ab_min_loop_ext];
    intros [c b'] x y Hin; apply IH; eapply uncut_child; eauto.
Qed.

Lemma ex_value_uncut {F} `{Arith F} mp fuel : forall cp b d d',
  uncut b d -> uncut b d' ->
  Expectimax.value (F:=F) mp fuel cp b d = Expectimax.value mp fuel cp b d'.
Proof.
  induction fuel as [|fuel IH]; intros cp b d d' U U'; [done|].
  rewrite !ex_value_S. destruct (terminal b) eqn:T; [done|]. simpl.
  rewrite (uncut_nonzero b d T U), (uncut_nonzero b d' T U').
  unfold Expectimax.max_value, Expectimax.expected_value.
  rewrite get_child_boards_children. simpl.
  destruct (bool_decide (cp = mp)).
  - apply ex_max_loop_ext. intros [c b'] Hin. apply IH; eapply uncut_child; eauto.
  - destruct (children cp b) as [|ch rest] eqn:E; [done|]. rewrite <- E.
    apply ex_sum_loop_ext. intros [c b'] Hin. apply IH; eapply uncut_child; eauto.
Qed.

Lemma unbounded_child p b c b' d :
  (c, b') ∈ children p b -> unbounded_limit b d -> uncut b' (d - 1).
Proof.
  intros Hin [H|H]; apply empty_cells_child in Hin; unfold uncut; lia.
Qed.

Lemma minimax_run_uncut fuel p b d d' :
  unbounded_limit b d -> unbounded_limit b d' ->
  Minimax.run fuel p b d = Minimax.run fuel p b d'.
Proof.
  intros U U'. unfold Minimax.run. rewrite get_child_boards_children. simpl.
  apply mm_top_loop_ext. intros [c b'] Hin.
  apply mm_value_uncut; eapply unbounded_child; eauto.
Qed.

Lemma alphabeta_run_uncut fuel p b d d' :
  unbounded_limit b d -> unbounded_limit b d' ->
  AlphaBeta.run fuel p b d = AlphaBeta.run fuel p b d'.
Proof.
  intros U U'. unfold AlphaBeta.run. rewrite get_child_boards_children. simpl.
  apply ab_top_loop_ext. intros [c b'] x y Hin.
  apply ab_value_uncut; eapply unbounded_child; eauto.
Qed.

Lemma expectimax_run_uncut {F} `{Arith F} fuel p b d d' :
  unbounded_limit b d -> unbounded_limit b d' ->
  Expectimax.run (F:=F) fuel p b d = Expectimax.run fuel p b d'.
Proof.
  intros U U'. unfold Expectimax.run. rewrite get_child_boards_children. simpl.
  apply ex_top_loop_ext. intros [c b'] Hin.
  apply ex_value_uncut; eapply unbounded_child; eauto.
Qed.

(** On [late_board], with [depth_limit = 0], each
    strategy returns a column, not None. *)
Lemma depth_zero_returns_a_move :
  minimax PLAYER1 late_board 0 = Done (Some 1)
  /\ alphabeta PLAYER1 late_board 0 = Done (Some 1)
  /\ expectimax float PLAYER1 late_board 0 = Done (Some 1)
  /\ expectimax exact PLAYER1 late_board 0 = Done (Some 1).
Proof. vm_compute. repeat split. Qed.

(** ** The nodes of a search *)

Lemma terminal_detects_all b : terminal_detects b.
Proof.
  intros H. destruct (terminal b) eqn:T; [done|].
  destruct (not_terminal_placeable b T) as (c & Hc & P). rewrite (H c Hc) in P. discriminate.
Qed.

Lemma detects_children p b :
  terminal_detects b -> terminal b = false ->
  exists ch rest, get_child_boards p b = Done (ch :: rest).
Proof.
  intros H T. rewrite get_child_boards_children.
  destruct (children p b) as [|ch rest] eqn:E; [|eauto].
  rewrite children_nil in E. rewrite (H E) in T. discriminate.
Qed.

Section NoZeroDivision.
Context {F : Type} `{Arith F}.

Lemma ex_max_loop_no_raise e rec children : forall m : F,
  (forall ch, ch ∈ children -> rec ch.2 <> Raise e) ->
  Expectimax.max_loop rec children m <> Raise e.
Proof.
  induction children as [|[c ch] rest IH]; intros m Hrec; simpl; [done|].
  pose proof (Hrec (c, ch)) as H0. simpl in H0.
  destruct (rec ch) as [x|e'|] eqn:E; simpl; [|intros [= ->]; by apply H0; [apply elem_of_cons; left|]|done].
  apply IH. intros x' Hx'. apply Hrec. apply elem_of_cons. by right.
Qed.

Lemma ex_sum_loop_no_raise e rec children : forall prob total : F,
  (forall ch, ch ∈ children -> rec ch.2 <> Raise e) ->
  Expectimax.sum_loop rec children prob total <> Raise e.
Proof.
  induction children as [|[c ch] rest IH]; intros prob total Hrec; simpl; [done|].
  pose proof (Hrec (c, ch)) as H0. simpl in H0.
  destruct (rec ch) as [x|e'|] eqn:E; simpl; [|intros [= ->]; by apply H0; [apply elem_of_cons; left|]|done].
  apply IH. intros x' Hx'. apply Hrec. apply elem_of_cons. by right.
Qed.

Lemma ex_top_loop_no_raise e rec children : forall placement (best : F),
  (forall ch, ch ∈ children -> rec ch.2 <> Raise e) ->
  Expectimax.top_loop rec children placement best <> Raise e.
Proof.
  induction children as [|[c ch] rest IH]; intros placement best Hrec; simpl; [done|].
  pose proof (Hrec (c, ch)) as H0. simpl in H0.
  assert (forall x, x ∈ rest -> rec x.2 <> Raise e) as Hrest
    by (intros x' Hx'; apply Hrec; apply elem_of_cons; by right).
  destruct (rec ch) as [x|e'|] eqn:E; simpl; [|intros [= ->]; by apply H0; [apply elem_of_cons; left|]|done].
  destruct (fgt x best); by apply IH.
Qed.

(** Where terminal detection is right at every node below, [value] does not
    divide by zero. *)
Lemma ex_value_no_zero_division mp fuel : forall cp b d,
  (forall n, rtc calls (cp, b, d) n -> terminal_detects n.1.2) ->
  Expectimax.value (F:=F) mp fuel cp b d <> Raise ZeroDivisionError.
Proof.
  induction fuel as [|fuel IH]; intros cp b d Hdet; [done|].
  rewrite ex_value_S. destruct (terminal b) eqn:T; [done|]. simpl.
  destruct (d =? 0)%Z eqn:D; [done|]. apply Z.eqb_neq in D.
  assert (forall ch, ch ∈ children cp b ->
            Expectimax.value (F:=F) mp fuel (opponent cp) ch.2 (d - 1) <> Raise ZeroDivisionError)
    as Hch.
  { intros [c b'] Hin. apply IH. intros n Hn. apply Hdet.
    eapply rtc_l; [|exact Hn]. simpl. repeat split; eauto. }
  destruct (detects_children cp b (Hdet _ (rtc_refl _ _)) T) as (ch & rest & E).
  pose proof E as E'. rewrite get_child_boards_children in E'. inversion E' as [E''].
  destruct (bool_decide (cp = mp)).
  - unfold Expectimax.max_value. rewrite get_child_boards_children. simpl.
    by apply ex_max_loop_no_raise.
  - unfold Expectimax.expected_value. rewrite get_child_boards_children. simpl.
    rewrite E''. rewrite <- E''. by apply ex_sum_loop_no_raise.
Qed.
End NoZeroDivision.

Lemma ex_value_total {F} `{Arith F} mp fuel cp b d :
  empty_cells b < fuel ->
  exists x, Expectimax.value (F:=F) mp fuel cp b d = Done x.
Proof.
  intros Hf.
  destruct (ex_value_good (fun _ => True)) with (mp := mp) (fuel := fuel)
    (cp := cp) (b := b) (d := d) as (x & Hx & _); eauto.
Qed.

Lemma ex_top_loop_total {F} `{Arith F} rec children : forall placement (best : F),
  Forall (fun ch : nat * Board => exists x, rec ch.2 = Done x) children ->
  exists res, Expectimax.top_loop rec children placement best = Done res.
Proof.
  induction children as [|[c ch] rest IH]; intros placement best Hall; simpl.
  - eauto.
  - apply Forall_cons_1 in Hall as [[x Hx] Hall]. simpl in Hx. rewrite Hx. simpl.
    destruct (fgt x best); by apply IH.
Qed.

(** [expectimax] returns, whatever the arithmetic of its scores. *)
Lemma ex_run_total {F} `{Arith F} p b d :
  exists res, Expectimax.run (F:=F) (search_fuel b) p b d = Done res.
Proof.
  unfold Expectimax.run. rewrite get_child_boards_children. simpl.
  apply ex_top_loop_total. apply children_Forall. intros c b' Hin. simpl.
  apply ex_value_total. apply empty_cells_child in Hin. unfold search_fuel. lia.
Qed.

(** X4.  Where terminal detection is right at the nodes of the search (a
    board with no placeable column is terminal), no node that [value] expands
    has an empty successor set: [get_child_boards] returns a non-empty list
    there, so the minimum, maximum or average is taken over at least one
    score, [expectimax] never raises ZeroDivisionError in
    [1 / len(child_boards)], and it returns. *)
Theorem no_empty_successor_set (player : player) (board : Board) (depth_limit : Z) :
  (forall n, reached player board depth_limit n -> terminal_detects n.1.2) ->
  (forall cp b d, reached player board depth_limit (cp, b, d) ->
     terminal b = false -> d <> 0%Z ->
     exists ch rest, get_child_boards cp b = Done (ch :: rest))
  /\ (forall F (A : Arith F) fuel,
        Expectimax.run (F:=F) fuel player board depth_limit <> Raise ZeroDivisionError)
  /\ (forall F (A : Arith F),
        exists r, expectimax F player board depth_limit = Done r).
Proof.
  intros Hdet. split; [|split].
  - intros cp b d Hr T _. apply detects_children; [|done]. apply (Hdet _ Hr).
  - intros F A fuel. unfold Expectimax.run. rewrite get_child_boards_children. simpl.
    apply ex_top_loop_no_raise. intros [c b'] Hin. simpl.
    apply ex_value_no_zero_division. intros n Hn. apply Hdet. exists c, b'. auto.
  - intros F A. destruct (ex_run_total (F:=F) player board depth_limit) as [[pl best] Hrun].
    exists pl. unfold expectimax. by rewrite Hrun.
Qed.

Lemma no_empty_successor_set_witness :
  (forall cp b d, reached PLAYER1 late_board 2 (cp, b, d) ->
     terminal b = false -> d <> 0%Z ->
     exists ch rest, get_child_boards cp b = Done (ch :: rest))
  /\ (forall F (A : Arith F) fuel,
        Expectimax.run (F:=F) fuel PLAYER1 late_board 2 <> Raise ZeroDivisionError)
  /\ (forall F (A : Arith F),
        exists r, expectimax F PLAYER1 late_board 2 = Done r).
Proof.
  apply (no_empty_successor_set PLAYER1 late_board 2).
  intros n _. apply terminal_detects_all.
Defined.

Arguments best_case_value : simpl never.

Lemma best_case_value_S mp fuel cp b d :
  best_case_value mp (S fuel) cp b d =
  if terminal b || (d =? 0)%Z then Done (Fin (evaluate mp b))
  else Minimax.max_value (best_case_value mp fuel) cp b d.
Proof. reflexivity. Qed.

(** *** Closed forms of the loops *)

Lemma mm_max_loop_spec rec children vs :
  Forall2 (fun (ch : nat * Board) v => rec ch.2 = Done (Fin v)) children vs ->
  forall m, m <> PosInf ->
  exists R, Minimax.max_loop rec children m = Done R
    /\ (R = m \/ exists v, v ∈ vs /\ R = Fin v)
    /\ score_le m R = true
    /\ (forall v, v ∈ vs -> score_le (Fin v) R = true).
Proof.
  induction 1 as [|[c ch] v children vs Hv _ IH]; intros m Hm; simpl.
  - exists m. repeat split; auto.
    + score_order [m].
    + intros v Hv. by apply elem_of_nil in Hv.
  - simpl in Hv. rewrite Hv. simpl.
    destruct (IH (if score_gt (Fin v) m then Fin v else m)) as (R & HR & Hin & Hle & Hall).
    { by destruct (score_gt (Fin v) m). }
    exists R. split; [done|]. split; [|split].
    + destruct Hin as [->|(v' & Hv' & ->)].
      * destruct (score_gt (Fin v) m); [right|by left].
        exists v. split; [apply elem_of_cons; by left|done].
      * right. exists v'. split; [apply elem_of_cons; by right|done].
    + pose (x := Fin v). fold x in Hle. clearbody x. score_order [m; R; x].
    + intros v' Hv'. apply elem_of_cons in Hv' as [->|Hv']; [|by apply Hall].
      pose (x := Fin v). fold x in Hle. fold x. clearbody x. score_order [m; R; x].
Qed.

Lemma mm_min_loop_spec rec children vs :
  Forall2 (fun (ch : nat * Board) v => rec ch.2 = Done (Fin v)) children vs ->
  forall m, m <> NegInf ->
  exists R, Minimax.min_loop rec children m = Done R
    /\ (R = m \/ exists v, v ∈ vs /\ R = Fin v)
    /\ score_le R m = true
    /\ (forall v, v ∈ vs -> score_le R (Fin v) = true).
Proof.
  induction 1 as [|[c ch] v children vs Hv _ IH]; intros m Hm; simpl.
  - exists m. repeat split; auto.
    + score_order [m].
    + intros v Hv. by apply elem_of_nil in Hv.
  - simpl in Hv. rewrite Hv. simpl.
    destruct (IH (if score_lt (Fin v) m then Fin v else m)) as (R & HR & Hin & Hle & Hall).
    { by destruct (score_lt (Fin v) m). }
    exists R. split; [done|]. split; [|split].
    + destruct Hin as [->|(v' & Hv' & ->)].
      * destruct (score_lt (Fin v) m); [right|by left].
        exists v. split; [apply elem_of_cons; by left|done].
      * right. exists v'. split; [apply elem_of_cons; by right|done].
    + pose (x := Fin v). fold x in Hle. clearbody x. score_order [m; R; x].
    + intros v' Hv'. apply elem_of_cons in Hv' as [->|Hv']; [|by apply Hall].
      pose (x := Fin v). fold x in Hle. fold x. clearbody x. score_order [m; R; x].
Qed.

Lemma exact_le_refl a : exact_le a a.
Proof. apply exact_gt_irrefl. Qed.

Lemma exact_le_trans a b c : exact_le a b -> exact_le b c -> exact_le a c.
Proof.
  unfold exact_le. intros H1 H2. destruct (exact_gt a c) eqn:E; [|done].
  destruct (exact_gt_cotrans _ _ b E); congruence.
Qed.

Lemma exact_le_fin x y : exact_le (EFin x) (EFin y) <-> (x <= y)%Qc.
Proof.
  unfold exact_le. simpl. rewrite bool_decide_eq_false. split.
  - apply Qcnot_lt_le.
  - intros H1 H2. by apply Qcle_not_lt in H1.
Qed.

Lemma ex_max_loop_spec rec children qs :
  Forall2 (fun (ch : nat * Board) q => rec ch.2 = Done (EFin q)) children qs ->
  forall m : exact,
  exists R, Expectimax.max_loop rec children m = Done R
    /\ (R = m \/ exists q, q ∈ qs /\ R = EFin q)
    /\ exact_le m R
    /\ (forall q, q ∈ qs -> exact_le (EFin q) R).
Proof.
  induction 1 as [|[c ch] q children qs Hq _ IH]; intros m; simpl.
  - exists m. repeat split; auto using exact_le_refl.
    intros q Hq. by apply elem_of_nil in Hq.
  - simpl in Hq. rewrite Hq. simpl.
    destruct (IH (if exact_gt (EFin q) m then EFin q else m)) as (R & HR & Hin & Hle & Hall).
    exists R. split; [done|]. split; [|split].
    + destruct Hin as [->|(q' & Hq' & ->)].
      * destruct (exact_gt (EFin q) m); [right|by left].
        exists q. split; [apply elem_of_cons; by left|done].
      * right. exists q'. split; [apply elem_of_cons; by right|done].
    + destruct (exact_gt (EFin q) m) eqn:E; [|done].
      eapply exact_le_trans; [|exact Hle]. by apply exact_gt_asym.
    + intros q' Hq'. apply elem_of_cons in Hq' as [->|Hq']; [|by apply Hall].
      destruct (exact_gt (EFin q) m) eqn:E; [done|].
      eapply exact_le_trans; [|exact Hle]. exact E.
Qed.

Lemma ex_sum_loop_spec rec children qs :
  Forall2 (fun (ch : nat * Board) q => rec ch.2 = Done (EFin q)) children qs ->
  forall p t : Qc,
  Expectimax.sum_loop rec children (EFin p) (EFin t)
  = Done (EFin (t + p * Qc_sum qs)%Qc).
Proof.
  induction 1 as [|[c ch] q children qs Hq _ IH]; intros p t; simpl.
  - f_equal. f_equal. unfold Qc_sum. simpl. ring.
  - simpl in Hq. rewrite Hq. simpl. rewrite IH. f_equal. f_equal.
    unfold Qc_sum. simpl. ring.
Qed.

(** *** The average lies between the bounds of its terms *)

Lemma Qc_sum_bounds (L U : Qc) qs :
  (forall q, q ∈ qs -> L <= q /\ q <= U)%Qc ->
  (Qc_of_Z (Z.of_nat (length qs)) * L <= Qc_sum qs
   /\ Qc_sum qs <= Qc_of_Z (Z.of_nat (length qs)) * U)%Qc.
Proof.
  induction qs as [|q qs IH]; intros H.
  - unfold Qc_sum. cbn [length foldr]. change (Z.of_nat 0) with 0%Z. rewrite Z2Qc_inj_0.
    rewrite !Qcmult_0_l. split; apply Qcle_refl.
  - destruct IH as [I1 I2]; [intros x Hx; apply H; apply elem_of_cons; by right|].
    destruct (H q) as [H1 H2]; [apply elem_of_cons; by left|].
    unfold Qc_sum in *. simpl length. simpl foldr.
    rewrite Nat2Z.inj_succ, <- Z.add_1_l, Z2Qc_inj_add, Z2Qc_inj_1.
    split.
    + replace ((1 + Qc_of_Z (Z.of_nat (length qs))) * L)%Qc
        with (L + Qc_of_Z (Z.of_nat (length qs)) * L)%Qc by ring.
      by apply Qcplus_le_compat.
    + replace ((1 + Qc_of_Z (Z.of_nat (length qs))) * U)%Qc
        with (U + Qc_of_Z (Z.of_nat (length qs)) * U)%Qc by ring.
      by apply Qcplus_le_compat.
Qed.

Lemma Qc_average_bounds (L U : Qc) qs :
  qs <> [] ->
  (forall q, q ∈ qs -> L <= q /\ q <= U)%Qc ->
  (L <= 0 + (1 / Qc_of_Z (Z.of_nat (length qs))) * Qc_sum qs
   /\ 0 + (1 / Qc_of_Z (Z.of_nat (length qs))) * Qc_sum qs <= U)%Qc.
Proof.
  intros Hne H.
  assert (0 < Z.of_nat (length qs))%Z as Hlen.
  { clear H. destruct qs as [|q0 qs]; [done|]. rewrite length_cons. lia. }
  destruct (Qc_sum_bounds L U qs H) as [H1 H2].
  set (n := Qc_of_Z (Z.of_nat (length qs))) in *.
  assert (0 < n)%Qc as Hn.
  { unfold n. rewrite <- Z2Qc_inj_0. apply (proj1 (Z2Qc_inj_lt 0 _)). exact Hlen. }
  assert (n <> 0%Qc) as Hn0 by (intros E; rewrite E in Hn; by apply Qclt_not_eq in Hn).
  assert (0 < / n)%Qc as Hi by (by apply Qcinv_pos).
  split.
  - replace L with ((1 / n) * (n * L))%Qc by (field; done).
    rewrite Qcplus_0_l. apply Qcmult_le_mono_nonneg_l; [|done].
    unfold Qcdiv. rewrite Qcmult_1_l. by apply Qclt_le_weak.
  - replace U with ((1 / n) * (n * U))%Qc by (field; done).
    rewrite Qcplus_0_l. apply Qcmult_le_mono_nonneg_l; [|done].
    unfold Qcdiv. rewrite Qcmult_1_l. by apply Qclt_le_weak.
Qed.

Lemma ex_expected_value_eq {F} `{Arith F} value cp b d :
  children cp b <> [] ->
  Expectimax.expected_value (F:=F) value cp b d =
  Expectimax.sum_loop (fun child => value (opponent cp) child (d - 1)%Z)
    (children cp b)
    (fdiv (of_int 1) (of_int (Z.of_nat (length (children cp b))))) (of_int 0).
Proof.
  intros Hne. unfold Expectimax.expected_value.
  rewrite get_child_boards_children. simpl.
  destruct (children cp b); [done|reflexivity].
Qed.

Lemma bracketed_exists (f h : Board -> outcome score) (g : Board -> outcome exact)
    children :
  Forall (fun ch : nat * Board => exists t, bracketed f h g ch t) children ->
  exists ts, Forall2 (bracketed f h g) children ts.
Proof.
  induction 1 as [|ch children [t Ht] _ [ts IH]].
  - exists []. constructor.
  - exists (t :: ts). by constructor.
Qed.

(** At every node the expectimax score in exact arithmetic lies between the
    minimax score and the best-case score. *)
Lemma bracket_value mp fuel : forall cp b d,
  empty_cells b < fuel ->
  exists lo q hi,
    Minimax.value mp fuel cp b d = Done (Fin lo)
    /\ Expectimax.value (F:=exact) mp fuel cp b d = Done (EFin q)
    /\ best_case_value mp fuel cp b d = Done (Fin hi)
    /\ (Qc_of_Z lo <= q)%Qc /\ (q <= Qc_of_Z hi)%Qc.
Proof.
  induction fuel as [|fuel IH]; intros cp b d Hf; [lia|].
  rewrite mm_value_S, ex_value_S, best_case_value_S.
  destruct (terminal b) eqn:T; simpl.
  { exists (evaluate mp b), (Qc_of_Z (evaluate mp b)), (evaluate mp b).
    split; [done|]. split; [done|]. split; [done|]. split; apply Qcle_refl. }
  destruct (d =? 0)%Z.
  { exists (evaluate mp b), (Qc_of_Z (evaluate mp b)), (evaluate mp b).
    split; [done|]. split; [done|]. split; [done|]. split; apply Qcle_refl. }
  pose proof (not_terminal_children cp b T) as Hne.
  set (f := fun child => Minimax.value mp fuel (opponent cp) child (d - 1)%Z).
  set (g := fun child => Expectimax.value (F:=exact) mp fuel (opponent cp) child (d - 1)%Z).
  set (h := fun child => best_case_value mp fuel (opponent cp) child (d - 1)%Z).
  destruct (bracketed_exists f h g (children cp b)) as [ts Hts].
  { apply children_Forall. intros c b' Hin.
    destruct (IH (opponent cp) b' (d - 1)%Z) as (lo & q & hi & H1 & H2 & H3 & H4 & H5).
    { apply empty_cells_child in Hin. lia. }
    exists (lo, q, hi). unfold bracketed, f, g, h. simpl. auto. }
  assert (Forall2 (fun (ch : nat * Board) v => f ch.2 = Done (Fin v))
            (children cp b) ((fun t : Z * Qc * Z => t.1.1) <$> ts)) as Hlo.
  { apply Forall2_fmap_r. eapply Forall2_impl; [exact Hts|]. by intros ? ? (? & _). }
  assert (Forall2 (fun (ch : nat * Board) q => g ch.2 = Done (EFin q))
            (children cp b) ((fun t : Z * Qc * Z => t.1.2) <$> ts)) as Hq.
  { apply Forall2_fmap_r. eapply Forall2_impl; [exact Hts|]. by intros ? ? (_ & ? & _). }
  assert (Forall2 (fun (ch : nat * Board) v => h ch.2 = Done (Fin v))
            (children cp b) ((fun t : Z * Qc * Z => t.2) <$> ts)) as Hhi.
  { apply Forall2_fmap_r. eapply Forall2_impl; [exact Hts|]. by intros ? ? (_ & _ & ? & _). }
  assert (forall t, t ∈ ts -> (Qc_of_Z t.1.1 <= t.1.2 /\ t.1.2 <= Qc_of_Z t.2)%Qc) as Hbr.
  { intros t Ht. apply list_elem_of_lookup in Ht as [i Hi].
    destruct (Forall2_lookup_r _ _ _ _ _ Hts Hi) as (ch & _ & (_ & _ & _ & ? & ?)). done. }
  assert (ts <> []) as Htne.
  { intros ->. inversion Hts as [E|]. congruence. }
  (* the best case takes the maximum in both kinds of node *)
  destruct (mm_max_loop_spec h _ _ Hhi NegInf) as (H & HH & HHin & _ & HHall); [done|].
  assert (exists hi, H = Fin hi /\ forall t, t ∈ ts -> (t.2 <= hi)%Z) as (hi & -> & Hhi_all).
  { destruct HHin as [->|(v & Hv & ->)].
    - destruct ts as [|t ts]; [done|]. specialize (HHall t.2).
      rewrite fmap_cons in HHall. discriminate HHall. apply elem_of_cons. by left.
    - exists v. split; [done|]. intros t Ht.
      specialize (HHall t.2). unfold score_le in HHall. simpl in HHall.
      assert (t.2 ∈ (fun t : Z * Qc * Z => t.2) <$> ts) as Hin
        by (apply list_elem_of_fmap; eauto).
      specialize (HHall Hin). apply negb_true_iff, Z.ltb_ge in HHall. done. }
  unfold Minimax.max_value at 2. rewrite get_child_boards_children. simpl.
  fold h. rewrite HH.
  destruct (bool_decide (cp = mp)).
  - (* maximizing node *)
    unfold Minimax.max_value, Expectimax.max_value.
    rewrite get_child_boards_children. simpl. fold f g.
    destruct (mm_max_loop_spec f _ _ Hlo NegInf) as (R & -> & HRin & _ & HRall); [done|].
    destruct (ex_max_loop_spec g _ _ Hq ENegInf) as (Q & -> & HQin & _ & HQall).
    assert (exists lo t, R = Fin lo /\ t ∈ ts /\ t.1.1 = lo) as (lo & tl & -> & Htl & Etl).
    { destruct HRin as [->|(v & Hv & ->)].
      - destruct ts as [|t ts]; [done|]. specialize (HRall t.1.1).
        rewrite fmap_cons in HRall. discriminate HRall. apply elem_of_cons. by left.
      - apply list_elem_of_fmap in Hv as (t & -> & Ht). eauto. }
    assert (exists q t, Q = EFin q /\ t ∈ ts /\ t.1.2 = q) as (q & tq & -> & Htq & Etq).
    { destruct HQin as [->|(v & Hv & ->)].
      - destruct ts as [|t ts]; [done|]. specialize (HQall t.1.2).
        rewrite fmap_cons in HQall. discriminate HQall. apply elem_of_cons. by left.
      - apply list_elem_of_fmap in Hv as (t & -> & Ht). eauto. }
    exists lo, q, hi. split; [done|]. split; [done|]. split; [done|].
    destruct (Hbr tl Htl) as [B1 _]. destruct (Hbr tq Htq) as [_ B2]. split.
    + apply Qcle_trans with tl.1.2; [by rewrite <- Etl|].
      apply exact_le_fin. apply HQall. apply list_elem_of_fmap. eauto.
    + rewrite <- Etq. apply Qcle_trans with (Qc_of_Z tq.2); [done|].
      apply (proj1 (Z2Qc_inj_le _ _)). by apply Hhi_all.
  - (* adversary node *)
    rewrite (ex_expected_value_eq _ _ _ _ Hne).
    unfold Minimax.min_value.
    rewrite get_child_boards_children. simpl. fold f g.
    destruct (mm_min_loop_spec f _ _ Hlo PosInf) as (R & -> & HRin & _ & HRall); [done|].
    assert (exists lo, R = Fin lo /\ forall t, t ∈ ts -> (lo <= t.1.1)%Z) as (lo & -> & Hlo_all).
    { destruct HRin as [->|(v & Hv & ->)].
      - destruct ts as [|t ts]; [done|]. specialize (HRall t.1.1).
        rewrite fmap_cons in HRall. discriminate HRall. apply elem_of_cons. by left.
      - exists v. split; [done|]. intros t Ht.
        specialize (HRall t.1.1). unfold score_le in HRall. simpl in HRall.
        assert (t.1.1 ∈ (fun t : Z * Qc * Z => t.1.1) <$> ts) as Hin
          by (apply list_elem_of_fmap; eauto).
        specialize (HRall Hin). apply negb_true_iff, Z.ltb_ge in HRall. done. }
    change (of_int 0) with (EFin (Qc_of_Z 0)).
    change (fdiv (of_int 1) (of_int (Z.of_nat (length (children cp b)))))
      with (EFin (Qc_of_Z 1 / Qc_of_Z (Z.of_nat (length (children cp b))))%Qc).
    unfold exact_of_Z. rewrite (ex_sum_loop_spec g _ _ Hq).
    rewrite Z2Qc_inj_0, Z2Qc_inj_1.
    assert (length (children cp b) = length ((fun t : Z * Qc * Z => t.1.2) <$> ts)) as ->
      by (by apply Forall2_length in Hq).
    eexists lo, _, hi. split; [done|]. split; [done|]. split; [done|].
    apply Qc_average_bounds.
    + intros Hnil. apply fmap_nil_inv in Hnil. done.
    + intros q Hqin. apply list_elem_of_fmap in Hqin as (t & -> & Ht).
      destruct (Hbr t Ht) as [B1 B2]. split.
      * apply Qcle_trans with (Qc_of_Z t.1.1); [|exact B1].
        apply (proj1 (Z2Qc_inj_le _ _)). by apply Hlo_all.
      * apply Qcle_trans with (Qc_of_Z t.2); [exact B2|].
        apply (proj1 (Z2Qc_inj_le _ _)). by apply Hhi_all.
Qed.

(** With exact rational arithmetic in place of the floats, the score of
    expectimax for a top-level move lies between the minimax score of that
    move (the adversary minimizes) and its best-case score (every node
    maximizes).  The floats of the code round: see the lemma after the
    example. *)
Theorem expectimax_between_worst_and_best (player : player) (board : Board)
    (depth_limit : Z) (c : nat) (child : Board) :
  (c, child) ∈ children player board ->
  exists lo q hi,
    Minimax.value player (search_fuel board) (opponent player) child
      (depth_limit - 1)%Z = Done (Fin lo)
    /\ Expectimax.value (F:=exact) player (search_fuel board) (opponent player) child
         (depth_limit - 1)%Z = Done (EFin q)
    /\ best_case_value player (search_fuel board) (opponent player) child
         (depth_limit - 1)%Z = Done (Fin hi)
    /\ (Qc_of_Z lo <= q)%Qc /\ (q <= Qc_of_Z hi)%Qc.
Proof.
  intros Hin. apply bracket_value. apply empty_cells_child in Hin.
  unfold search_fuel. lia.
Qed.

Lemma expectimax_between_worst_and_best_witness :
  exists lo q hi,
    Minimax.value PLAYER1 (search_fuel late_board) (opponent PLAYER1) late_child
      (2 - 1)%Z = Done (Fin lo)
    /\ Expectimax.value (F:=exact) PLAYER1 (search_fuel late_board) (opponent PLAYER1)
         late_child (2 - 1)%Z = Done (EFin q)
    /\ best_case_value PLAYER1 (search_fuel late_board) (opponent PLAYER1) late_child
         (2 - 1)%Z = Done (Fin hi)
    /\ (Qc_of_Z lo <= q)%Qc /\ (q <= Qc_of_Z hi)%Qc.
Proof.
  apply (expectimax_between_worst_and_best PLAYER1 late_board 2 1 late_child).
  apply elem_of_children. vm_compute. repeat split; lia.
Defined.

(** In the arithmetic of the code the lower bound can fail: on [late_board] with
    [depth_limit = 2], the move in column 1 has minimax score 7 and best-case
    score 7, and the binary64 sum [1/3*7 + 1/3*7 + 1/3*7] that expectimax
    returns for it is strictly below 7. *)
Lemma expectimax_float_below_minimax :
  place PLAYER1 1 late_board = Some late_child
  /\ Minimax.value PLAYER1 (search_fuel late_board) PLAYER2 late_child 1
     = Done (Fin 7)
  /\ best_case_value PLAYER1 (search_fuel late_board) PLAYER2 late_child 1
     = Done (Fin 7)
  /\ exists e,
       Expectimax.value (F:=float) PLAYER1 (search_fuel late_board) PLAYER2 late_child 1
       = Done e
       /\ PrimFloat.ltb e (float_of_Z 7) = true.
Proof.
  split; [vm_compute; reflexivity|]. split; [vm_compute; reflexivity|].
  split; [vm_compute; reflexivity|]. eexists. split; vm_compute; reflexivity.
Qed.

(** ** Expectation node and maximizing nodes of [expectimax] *)

Lemma ex_sum_loop_fold {F} `{Arith F} (rec : Board -> outcome F) children scored :
  scores_of rec children scored ->
  forall prob total,
    Expectimax.sum_loop rec children prob total
    = Done (fold_left (fun t v => fadd t (fmul prob v)) (map snd scored) total).
Proof.
  induction 1 as [|[c ch] [c' v] children scored [_ Hv] _ IH]; intros prob total; simpl.
  - done.
  - simpl in Hv. rewrite Hv. simpl. apply IH.
Qed.

Lemma uniform_average_exact qs :
  qs <> [] ->
  uniform_average (EFin <$> qs)
  = EFin (Qc_sum qs / Qc_of_Z (Z.of_nat (length qs)))%Qc.
Proof.
  intros Hne. unfold uniform_average. rewrite length_fmap.
  change (fdiv (of_int 1) (of_int (Z.of_nat (length qs))))
    with (EFin (Qc_of_Z 1 / Qc_of_Z (Z.of_nat (length qs)))%Qc).
  change (of_int 0) with (EFin (Qc_of_Z 0)).
  set (p := (Qc_of_Z 1 / Qc_of_Z (Z.of_nat (length qs)))%Qc).
  assert (forall l t, fold_left (fun (total v : exact) => fadd total (fmul (EFin p) v))
                        (EFin <$> l) (EFin t) = EFin (t + p * Qc_sum l)%Qc) as Hfold.
  { induction l as [|q l IH]; intros t; simpl.
    - f_equal. unfold Qc_sum. simpl. ring.
    - rewrite IH. f_equal. unfold Qc_sum. simpl. ring. }
  rewrite Hfold. f_equal. unfold p. rewrite Z2Qc_inj_0, Z2Qc_inj_1.
  unfold Qcdiv. ring.
Qed.

Lemma same_number_gt s s' x x' :
  same_number s x -> same_number s' x' -> exact_gt x x' = score_gt s s'.
Proof.
  intros [|z] [|z']; simpl; try done.
  unfold score_gt. simpl. destruct (Z.ltb_spec z' z) as [L|L].
  - apply bool_decide_eq_true_2. by apply (proj1 (Z2Qc_inj_lt _ _)).
  - apply bool_decide_eq_false_2. apply Qcle_not_lt.
    by apply (proj1 (Z2Qc_inj_le _ _)).
Qed.

Lemma max_loops_agree f g children : forall m m',
  (forall ch : nat * Board, ch ∈ children ->
     exists s x, f ch.2 = Done s /\ g ch.2 = Done x /\ same_number s x) ->
  same_number m m' ->
  exists s x, Minimax.max_loop f children m = Done s
              /\ Expectimax.max_loop g children m' = Done x
              /\ same_number s x.
Proof.
  induction children as [|[c ch] rest IH]; intros m m' Hall Hm; simpl.
  - eauto.
  - destruct (Hall (c, ch)) as (s & x & Hs & Hx & Hsx); [apply elem_of_cons; by left|].
    simpl in Hs, Hx. rewrite Hs, Hx. simpl.
    rewrite (same_number_gt _ _ _ _ Hsx Hm).
    apply IH.
    + intros ch' Hin. apply Hall. apply elem_of_cons. by right.
    + by destruct (score_gt s m).
Qed.

Lemma top_loops_agree f g children : forall placement best best',
  (forall ch : nat * Board, ch ∈ children ->
     exists s x, f ch.2 = Done s /\ g ch.2 = Done x /\ same_number s x) ->
  same_number best best' ->
  exists pl s x, Minimax.top_loop f children placement best = Done (pl, s)
                 /\ Expectimax.top_loop g children placement best' = Done (pl, x)
                 /\ same_number s x.
Proof.
  induction children as [|[c ch] rest IH]; intros placement best best' Hall Hm; simpl.
  - exists placement, best, best'. auto.
  - destruct (Hall (c, ch)) as (s & x & Hs & Hx & Hsx); [apply elem_of_cons; by left|].
    simpl in Hs, Hx. rewrite Hs, Hx. simpl.
    rewrite (same_number_gt _ _ _ _ Hsx Hm).
    assert (forall ch' : nat * Board, ch' ∈ rest ->
              exists s x, f ch'.2 = Done s /\ g ch'.2 = Done x /\ same_number s x) as Hrest
      by (intros ch' Hin; apply Hall; apply elem_of_cons; by right).
    destruct (score_gt s best); by apply IH.
Qed.

(** X6.  In [expectimax], a node of the adversary that is not a base case
    and has at least one successor returns the sum of [prob * value] over
    its successors with the uniform weight [prob = 1 / len(child_boards)];
    in exact arithmetic that is the average of the successors' values.  At a
    maximizing node and at the top level, [expectimax] returns what
    [minimax] returns on the same successor scores; with [depth_limit = 1]
    the two searches return the same column. *)
Theorem expectimax_nodes :
  (forall F (A : Arith F) max_player cp fuel b d scored,
     cp <> max_player -> terminal b = false -> d <> 0%Z -> scored <> [] ->
     scores_of (fun child => Expectimax.value max_player fuel (opponent cp) child (d - 1)%Z)
               (children cp b) scored ->
     Expectimax.value max_player (S fuel) cp b d
     = Done (uniform_average (map snd scored)))
  /\ (forall qs : list Qc, qs <> [] ->
        uniform_average (EFin <$> qs)
        = EFin (Qc_sum qs / Qc_of_Z (Z.of_nat (length qs)))%Qc)
  /\ (forall vm ve cp b d,
        (forall ch : nat * Board, ch ∈ children cp b ->
           exists s x, vm (opponent cp) ch.2 (d - 1)%Z = Done s
                       /\ ve (opponent cp) ch.2 (d - 1)%Z = Done x
                       /\ same_number s x) ->
        exists s x, Minimax.max_value vm cp b d = Done s
                    /\ Expectimax.max_value (F:=exact) ve cp b d = Done x
                    /\ same_number s x)
  /\ (forall f g children,
        (forall ch : nat * Board, ch ∈ children ->
           exists s x, f ch.2 = Done s /\ g ch.2 = Done x /\ same_number s x) ->
        exists pl s x, Minimax.top_loop f children None NegInf = Done (pl, s)
                       /\ Expectimax.top_loop (F:=exact) g children None neg_inf
                          = Done (pl, x)
                       /\ same_number s x)
  /\ (forall player board,
        expectimax exact player board 1 = minimax player board 1).
Proof.
  split; [|split; [|split; [|split]]].
  - intros F A mp cp fuel b d scored Hcp T Hd Hne Hs.
    rewrite ex_value_S, T. simpl. apply Z.eqb_neq in Hd. rewrite Hd.
    rewrite bool_decide_eq_false_2 by done.
    assert (children cp b <> []) as Hch.
    { intros E. rewrite E in Hs. inversion Hs. congruence. }
    rewrite (ex_expected_value_eq _ _ _ _ Hch).
    rewrite (ex_sum_loop_fold _ _ _ Hs). unfold uniform_average.
    rewrite length_map. by rewrite (Forall2_length _ _ _ Hs).
  - apply uniform_average_exact.
  - intros vm ve cp b d Hall. unfold Minimax.max_value, Expectimax.max_value.
    rewrite get_child_boards_children. simpl.
    apply max_loops_agree; [done|constructor].
  - intros f g children Hall. apply top_loops_agree; [done|constructor].
  - intros p b. unfold expectimax, minimax, Expectimax.run, Minimax.run.
    rewrite get_child_boards_children. simpl.
    destruct (top_loops_agree
                (fun child => Minimax.value p (search_fuel b) (opponent p) child (1 - 1)%Z)
                (fun child => Expectimax.value (F:=exact) p (search_fuel b) (opponent p)
                                child (1 - 1)%Z)
                (children p b) None NegInf ENegInf) as (pl & s & x & -> & -> & _).
    + intros ch _. unfold search_fuel. rewrite mm_value_S, ex_value_S.
      rewrite orb_true_r. eexists _, _. split; [done|]. split; [done|]. constructor.
    + constructor.
    + done.
Qed.

Lemma expectimax_nodes_witness :
  Expectimax.value (F:=float) PLAYER1 (S 5) PLAYER2 late_child 1%Z
  = Done (uniform_average (map snd [(2, float_of_Z 7); (3, float_of_Z 7); (5, float_of_Z 7)])).
Proof.
  apply (proj1 expectimax_nodes float binary64 PLAYER1 PLAYER2 5 late_child 1%Z
           [(2, float_of_Z 7); (3, float_of_Z 7); (5, float_of_Z 7)]).
  - discriminate.
  - vm_compute. reflexivity.
  - lia.
  - discriminate.
  - unfold scores_of.
    let l := eval vm_compute in (children PLAYER2 late_child) in
    change (children PLAYER2 late_child) with l.
    repeat (constructor; [split; [reflexivity|vm_compute; reflexivity]|]).
    constructor.
Defined.

(** ** Board objects: what the calls do to the store *)

Arguments Store.Minimax.value : simpl never.
Arguments Store.AlphaBeta.value : simpl never.
Arguments Store.Expectimax.value : simpl never.

Lemma represents_weaken (h h' : gmap nat Board) locs boards :
  h ⊆ h' -> represents h locs boards -> represents h' locs boards.
Proof.
  intros Hsub Hrep. eapply Forall2_impl; [exact Hrep|].
  intros x y [E Hl]. split; [done|]. eapply lookup_weaken; eauto.
Qed.

Lemma store_child_loop_spec p l b cs : forall res resb (h0 h : gmap nat Board),
  h !! l = Some b -> h0 ⊆ h ->
  represents h res resb ->
  Forall (fun x => x.2 ∉ dom h0) res ->
  NoDup (map snd res) ->
  exists res' h',
    Store.child_loop p l cs res h = Done (res', h')
    /\ h ⊆ h'
    /\ represents h' res'
         (resb ++ omap (fun c => if placeable b c then pair c <$> place p c b else None) cs)
    /\ Forall (fun x => x.2 ∉ dom h0) res'
    /\ NoDup (map snd res').
Proof.
  induction cs as [|c cs IH]; intros res resb h0 h Hl H0 Hrep Hfresh Hnd; simpl.
  - exists res, h. rewrite app_nil_r. repeat split; auto.
  - unfold Store.deref. rewrite Hl. simpl.
    destruct (placeable b c) eqn:P; [|apply IH; auto].
    unfold Store.clone, Store.deref. rewrite Hl. simpl.
    set (l' := fresh (dom h)).
    assert (l' ∉ dom h) as Hl' by apply is_fresh.
    assert (h !! l' = None) as Hnone by (by apply not_elem_of_dom).
    unfold Store.place, Store.deref. rewrite lookup_insert_eq. simpl.
    destruct (placeable_place p c b P) as [b' Hb']. rewrite Hb'.
    rewrite insert_insert_eq.
    assert (h ⊆ <[l' := b']> h) as Hsub by (by apply insert_subseteq).
    destruct (IH (res ++ [(c, l')]) (resb ++ [(c, b')]) h0 (<[l' := b']> h))
      as (res' & h' & Hrun & Hsub' & Hrep' & Hfresh' & Hnd').
    + rewrite lookup_insert_ne; [done|]. intros ->. by rewrite Hl in Hnone.
    + by etransitivity.
    + apply Forall2_app; [by eapply represents_weaken|].
      constructor; [|constructor]. simpl. split; [done|]. apply lookup_insert_eq.
    + apply Forall_app. split; [done|]. constructor; [|constructor]. simpl.
      intros Hin. apply Hl'. apply (subseteq_dom _ _ H0). done.
    + rewrite map_app. simpl. apply NoDup_app. split; [done|]. split.
      * intros x Hx Hx'. apply list_elem_of_singleton in Hx'. subst x.
        apply list_elem_of_fmap in Hx as ([c0 l0] & E & Hin). simpl in E. subst l0.
        apply list_elem_of_lookup in Hin as [i Hi].
        destruct (Forall2_lookup_l _ _ _ _ _ Hrep Hi) as (y & _ & _ & Hy). simpl in Hy.
        congruence.
      * apply NoDup_singleton.
    + exists res', h'. split; [done|]. split; [by etransitivity|].
      split; [by rewrite <- app_assoc in Hrep'|]. done.
Qed.

(** [get_child_boards] on objects: it returns, the objects that existed keep
    their boards (the argument among them), and the result is a list of new,
    distinct objects that hold the successors. *)
Lemma store_get_child_boards_spec p l b (h : gmap nat Board) :
  h !! l = Some b ->
  exists res h',
    Store.get_child_boards p l h = Done (res, h')
    /\ h ⊆ h'
    /\ represents h' res (children p b)
    /\ Forall (fun x => x.2 ∉ dom h) res
    /\ NoDup (map snd res).
Proof.
  intros Hl. unfold Store.get_child_boards, Store.deref. rewrite Hl. simpl.
  destruct (store_child_loop_spec p l b (seq 0 (cols b)) [] [] h h)
    as (res & h' & Hrun & Hsub & Hrep & Hfresh & Hnd); auto.
  - constructor.
  - constructor.
  - eauto 10.
Qed.

Lemma with_store_Done {A} (h : gmap nat Board) (a : A) :
  with_store h (Done a) = Done (a, h).
Proof. reflexivity. Qed.

Lemma store_continue {A} (h h1 : gmap nat Board) (X : outcome (A * gmap nat Board))
    (Y : outcome A) :
  h ⊆ h1 ->
  (exists h2, h1 ⊆ h2 /\ X = with_store h2 Y) ->
  exists h', h ⊆ h' /\ X = with_store h' Y.
Proof. intros Hsub (h2 & Hsub2 & E). exists h2. split; [by etransitivity|done]. Qed.

(** One step of a loop on objects against the same step on values: run the
    recursive call, then continue in the store it leaves. *)
Ltac store_step Hrec IH :=
  match goal with
  | Hl : ?h !! ?l = Some ?b |- _ =>
      let h1 := fresh "h1" in
      let Hsub := fresh "Hsub" in
      let Hcall := fresh "Hcall" in
      destruct (Hrec l b h Hl) as (h1 & Hsub & Hcall);
      rewrite Hcall; clear Hcall;
      match goal with
      | |- context [with_store h1 ?m] =>
          destruct m as [s|e|]; simpl;
          [ | exists h; split; [reflexivity|reflexivity]
            | exists h; split; [reflexivity|reflexivity] ]
      end
  end.

Section StoreMinimaxLoops.
Variable recP : Board -> outcome score.
Variable recS : nat -> gmap nat Board -> outcome (score * gmap nat Board).
Hypothesis Hrec : forall l b (h : gmap nat Board), h !! l = Some b ->
  exists h', h ⊆ h' /\ recS l h = with_store h' (recP b).

Lemma store_mm_max_loop locs : forall boards m (h : gmap nat Board),
  represents h locs boards ->
  exists h', h ⊆ h'
    /\ Store.Minimax.max_loop recS locs m h
       = with_store h' (Minimax.max_loop recP boards m).
Proof.
  induction locs as [|[c l] locs IH]; intros boards m h Hrep;
    inversion Hrep as [|? [c' b] ? boards' [Ec Hl] Hrest]; subst; simpl in *; subst.
  - exists h. split; reflexivity.
  - store_step Hrec IH.
    destruct (IH boards' (if score_gt s m then s else m) h1) as (h2 & Hsub2 & E).
    { eapply represents_weaken; eauto. }
    exists h2. split; [by etransitivity|done].
Qed.
Lemma store_mm_min_loop locs : forall boards m (h : gmap nat Board),
  represents h locs boards ->
  exists h', h ⊆ h'
    /\ Store.Minimax.min_loop recS locs m h
       = with_store h' (Minimax.min_loop recP boards m).
Proof.
  induction locs as [|[c l] locs IH]; intros boards m h Hrep;
    inversion Hrep as [|? [c' b] ? boards' [Ec Hl] Hrest]; subst; simpl in *; subst.
  - exists h. split; reflexivity.
  - store_step Hrec IH.
    destruct (IH boards' (if score_lt s m then s else m) h1) as (h2 & Hsub2 & E).
    { eapply represents_weaken; eauto. }
    exists h2. split; [by etransitivity|done].
Qed.

Lemma store_mm_top_loop locs : forall boards placement best (h : gmap nat Board),
  represents h locs boards ->
  exists h', h ⊆ h'
    /\ Store.Minimax.top_loop recS locs placement best h
       = with_store h' (Minimax.top_loop recP boards placement best).
Proof.
  induction locs as [|[c l] locs IH]; intros boards placement best h Hrep;
    inversion Hrep as [|? [c' b] ? boards' [Ec Hl] Hrest]; subst; simpl in *; subst.
  - exists h. split; reflexivity.
  - store_step Hrec IH.
    assert (represents h1 locs boards') as Hrep1 by (eapply represents_weaken; eauto).
    destruct (score_gt s best); (eapply store_continue; [exact Hsub|by apply IH]).
Qed.
End StoreMinimaxLoops.

Section StoreAlphaBetaLoops.
Variable recP : Board -> score -> score -> outcome score.
Variable recS : nat -> score -> score -> gmap nat Board -> outcome (score * gmap nat Board).
Hypothesis Hrec : forall l b (h : gmap nat Board) alpha beta, h !! l = Some b ->
  exists h', h ⊆ h' /\ recS l alpha beta h = with_store h' (recP b alpha beta).

Lemma store_ab_max_loop locs : forall boards m alpha beta (h : gmap nat Board),
  represents h locs boards ->
  exists h', h ⊆ h'
    /\ Store.AlphaBeta.max_loop recS locs m alpha beta h
       = with_store h' (AlphaBeta.max_loop recP boards m alpha beta).
Proof.
  induction locs as [|[c l] locs IH]; intros boards m alpha beta h Hrep;
    inversion Hrep as [|? [c' b] ? boards' [Ec Hl] Hrest]; subst; simpl in *; subst.
  - exists h. split; reflexivity.
  - destruct (Hrec l b h alpha beta Hl) as (h1 & Hsub & Hcall).
    rewrite Hcall. clear Hcall.
    destruct (recP b alpha beta) as [s|e|]; simpl;
      [|exists h; split; reflexivity|exists h; split; reflexivity].
    destruct (score_ge (score_max m s) beta); [exists h1; split; [done|reflexivity]|].
    destruct (IH boards' (score_max m s) (score_max alpha (score_max m s)) beta h1)
      as (h2 & Hsub2 & E).
    { eapply represents_weaken; eauto. }
    exists h2. split; [by etransitivity|done].
Qed.

Lemma store_ab_min_loop locs : forall boards m alpha beta (h : gmap nat Board),
  represents h locs boards ->
  exists h', h ⊆ h'
    /\ Store.AlphaBeta.min_loop recS locs m alpha beta h
       = with_store h' (AlphaBeta.min_loop recP boards m alpha beta).
Proof.
  induction locs as [|[c l] locs IH]; intros boards m alpha beta h Hrep;
    inversion Hrep as [|? [c' b] ? boards' [Ec Hl] Hrest]; subst; simpl in *; subst.
  - exists h. split; reflexivity.
  - destruct (Hrec l b h alpha beta Hl) as (h1 & Hsub & Hcall).
    rewrite Hcall. clear Hcall.
    destruct (recP b alpha beta) as [s|e|]; simpl;
      [|exists h; split; reflexivity|exists h; split; reflexivity].
    destruct (score_le (score_min m s) alpha); [exists h1; split; [done|reflexivity]|].
    destruct (IH boards' (score_min m s) alpha (score_min beta (score_min m s)) h1)
      as (h2 & Hsub2 & E).
    { eapply represents_weaken; eauto. }
    exists h2. split; [by etransitivity|done].
Qed.

Lemma store_ab_top_loop locs : forall boards placement best alpha beta (h : gmap nat Board),
  represents h locs boards ->
  exists h', h ⊆ h'
    /\ Store.AlphaBeta.top_loop recS locs placement best alpha beta h
       = with_store h' (AlphaBeta.top_loop recP boards placement best alpha beta).
Proof.
  induction locs as [|[c l] locs IH]; intros boards placement best alpha beta h Hrep;
    inversion Hrep as [|? [c' b] ? boards' [Ec Hl] Hrest]; subst; simpl in *; subst.
  - exists h. split; reflexivity.
  - destruct (Hrec l b h alpha beta Hl) as (h1 & Hsub & Hcall).
    rewrite Hcall. clear Hcall.
    destruct (recP b alpha beta) as [s|e|]; simpl;
      [|exists h; split; reflexivity|exists h; split; reflexivity].
    assert (represents h1 locs boards') as Hrep1 by (eapply represents_weaken; eauto).
    destruct (score_gt s best); (eapply store_continue; [exact Hsub|by apply IH]).
Qed.
End StoreAlphaBetaLoops.

Section StoreExpectimaxLoops.
Context {F : Type} `{Arith F}.
Variable recP : Board -> outcome F.
Variable recS : nat -> gmap nat Board -> outcome (F * gmap nat Board).
Hypothesis Hrec : forall l b (h : gmap nat Board), h !! l = Some b ->
  exists h', h ⊆ h' /\ recS l h = with_store h' (recP b).

Lemma store_ex_max_loop locs : forall boards m (h : gmap nat Board),
  represents h locs boards ->
  exists h', h ⊆ h'
    /\ Store.Expectimax.max_loop recS locs m h
       = with_store h' (Expectimax.max_loop recP boards m).
Proof.
  induction locs as [|[c l] locs IH]; intros boards m h Hrep;
    inversion Hrep as [|? [c' b] ? boards' [Ec Hl] Hrest]; subst; simpl in *; subst.
  - exists h. split; reflexivity.
  - store_step Hrec IH.
    destruct (IH boards' (if fgt s m then s else m) h1) as (h2 & Hsub2 & E).
    { eapply represents_weaken; eauto. }
    exists h2. split; [by etransitivity|done].
Qed.

Lemma store_ex_sum_loop locs : forall boards prob total (h : gmap nat Board),
  represents h locs boards ->
  exists h', h ⊆ h'
    /\ Store.Expectimax.sum_loop recS locs prob total h
       = with_store h' (Expectimax.sum_loop recP boards prob total).
Proof.
  induction locs as [|[c l] locs IH]; intros boards prob total h Hrep;
    inversion Hrep as [|? [c' b] ? boards' [Ec Hl] Hrest]; subst; simpl in *; subst.
  - exists h. split; reflexivity.
  - store_step Hrec IH.
    destruct (IH boards' prob (fadd total (fmul prob s)) h1) as (h2 & Hsub2 & E).
    { eapply represents_weaken; eauto. }
    exists h2. split; [by etransitivity|done].
Qed.

Lemma store_ex_top_loop locs : forall boards placement best (h : gmap nat Board),
  represents h locs boards ->
  exists h', h ⊆ h'
    /\ Store.Expectimax.top_loop recS locs placement best h
       = with_store h' (Expectimax.top_loop recP boards placement best).
Proof.
  induction locs as [|[c l] locs IH]; intros boards placement best h Hrep;
    inversion Hrep as [|? [c' b] ? boards' [Ec Hl] Hrest]; subst; simpl in *; subst.
  - exists h. split; reflexivity.
  - store_step Hrec IH.
    assert (represents h1 locs boards') as Hrep1 by (eapply represents_weaken; eauto).
    destruct (fgt s best); (eapply store_continue; [exact Hsub|by apply IH]).
Qed.
End StoreExpectimaxLoops.

Lemma store_mm_value_S mp fuel cp l d (h : gmap nat Board) :
  Store.Minimax.value mp (S fuel) cp l d h =
  (t ← Store.terminal l h;
   if t || (d =? 0)%Z then e ← Store.evaluate mp l h; Done (Fin e, h)
   else if bool_decide (cp = mp)
        then Store.Minimax.max_value (Store.Minimax.value mp fuel) cp l d h
        else Store.Minimax.min_value (Store.Minimax.value mp fuel) cp l d h).
Proof. reflexivity. Qed.

Lemma store_ab_value_S mp fuel cp l d alpha beta (h : gmap nat Board) :
  Store.AlphaBeta.value mp (S fuel) cp l d alpha beta h =
  (t ← Store.terminal l h;
   if t || (d =? 0)%Z then e ← Store.evaluate mp l h; Done (Fin e, h)
   else if bool_decide (cp = mp)
        then Store.AlphaBeta.max_value (Store.AlphaBeta.value mp fuel) cp l d alpha beta h
        else Store.AlphaBeta.min_value (Store.AlphaBeta.value mp fuel) cp l d alpha beta h).
Proof. reflexivity. Qed.

Lemma store_ex_value_S {F} `{Arith F} mp fuel cp l d (h : gmap nat Board) :
  Store.Expectimax.value (F:=F) mp (S fuel) cp l d h =
  (t ← Store.terminal l h;
   if t || (d =? 0)%Z then e ← Store.evaluate mp l h; Done (of_int e, h)
   else if bool_decide (cp = mp)
        then Store.Expectimax.max_value (Store.Expectimax.value mp fuel) cp l d h
        else Store.Expectimax.expected_value (Store.Expectimax.value mp fuel) cp l d h).
Proof. reflexivity. Qed.

(** [value] of [minimax] on an object: the score of [value] on the board the
    object holds, in a store that extends the given one. *)
Lemma store_mm_value mp fuel : forall cp l d (h : gmap nat Board) b,
  h !! l = Some b ->
  exists h', h ⊆ h'
    /\ Store.Minimax.value mp fuel cp l d h
       = with_store h' (Minimax.value mp fuel cp b d).
Proof.
  induction fuel as [|fuel IH]; intros cp l d h b Hl.
  - exists h. split; reflexivity.
  - rewrite store_mm_value_S, mm_value_S.
    unfold Store.terminal, Store.evaluate, Store.deref. rewrite Hl. simpl.
    destruct (terminal b || (d =? 0)%Z); [exists h; split; reflexivity|].
    destruct (store_get_child_boards_spec cp l b h Hl) as (res & h1 & Hg & Hsub & Hrep & _).
    unfold Store.Minimax.max_value, Store.Minimax.min_value,
      Minimax.max_value, Minimax.min_value.
    rewrite Hg, get_child_boards_children. simpl.
    destruct (bool_decide (cp = mp)); (eapply store_continue; [exact Hsub|]).
    + apply store_mm_max_loop; [|done]. intros; by apply IH.
    + apply store_mm_min_loop; [|done]. intros; by apply IH.
Qed.

Lemma store_ab_value mp fuel : forall cp l d alpha beta (h : gmap nat Board) b,
  h !! l = Some b ->
  exists h', h ⊆ h'
    /\ Store.AlphaBeta.value mp fuel cp l d alpha beta h
       = with_store h' (AlphaBeta.value mp fuel cp b d alpha beta).
Proof.
  induction fuel as [|fuel IH]; intros cp l d alpha beta h b Hl.
  - exists h. split; reflexivity.
  - rewrite store_ab_value_S, ab_value_S.
    unfold Store.terminal, Store.evaluate, Store.deref. rewrite Hl. simpl.
    destruct (terminal b || (d =? 0)%Z); [exists h; split; reflexivity|].
    destruct (store_get_child_boards_spec cp l b h Hl) as (res & h1 & Hg & Hsub & Hrep & _).
    unfold Store.AlphaBeta.max_value, Store.AlphaBeta.min_value,
      AlphaBeta.max_value, AlphaBeta.min_value.
    rewrite Hg, get_child_boards_children. simpl.
    destruct (bool_decide (cp = mp)); (eapply store_continue; [exact Hsub|]).
    + apply store_ab_max_loop; [|done]. intros; by apply IH.
    + apply store_ab_min_loop; [|done]. intros; by apply IH.
Qed.

Lemma store_ex_value {F} `{Arith F} mp fuel : forall cp l d (h : gmap nat Board) b,
  h !! l = Some b ->
  exists h', h ⊆ h'
    /\ Store.Expectimax.value (F:=F) mp fuel cp l d h
       = with_store h' (Expectimax.value mp fuel cp b d).
Proof.
  induction fuel as [|fuel IH]; intros cp l d h b Hl.
  - exists h. split; reflexivity.
  - rewrite store_ex_value_S, ex_value_S.
    unfold Store.terminal, Store.evaluate, Store.deref. rewrite Hl. simpl.
    destruct (terminal b || (d =? 0)%Z); [exists h; split; reflexivity|].
    destruct (store_get_child_boards_spec cp l b h Hl) as (res & h1 & Hg & Hsub & Hrep & _).
    unfold Store.Expectimax.max_value, Store.Expectimax.expected_value,
      Expectimax.max_value, Expectimax.expected_value.
    rewrite Hg, get_child_boards_children. simpl.
    destruct (bool_decide (cp = mp)).
    + eapply store_continue; [exact Hsub|].
      apply store_ex_max_loop; [|done]. intros; by apply IH.
    + pose proof (Forall2_length _ _ _ Hrep) as Hlen.
      destruct res as [|x res], (children cp b) as [|y ys] eqn:E; try discriminate.
      * exists h. split; reflexivity.
      * rewrite Hlen. eapply store_continue; [exact Hsub|].
        apply store_ex_sum_loop; [|done]. intros; by apply IH.
Qed.

Lemma store_minimax_run fuel p l d (h : gmap nat Board) b :
  h !! l = Some b ->
  exists h', h ⊆ h'
    /\ Store.Minimax.run fuel p l d h = with_store h' (Minimax.run fuel p b d).
Proof.
  intros Hl.
  destruct (store_get_child_boards_spec p l b h Hl) as (res & h1 & Hg & Hsub & Hrep & _).
  unfold Store.Minimax.run, Minimax.run. rewrite Hg, get_child_boards_children. simpl.
  eapply store_continue; [exact Hsub|].
  apply store_mm_top_loop; [|done]. intros; by apply store_mm_value.
Qed.

Lemma store_alphabeta_run fuel p l d (h : gmap nat Board) b :
  h !! l = Some b ->
  exists h', h ⊆ h'
    /\ Store.AlphaBeta.run fuel p l d h = with_store h' (AlphaBeta.run fuel p b d).
Proof.
  intros Hl.
  destruct (store_get_child_boards_spec p l b h Hl) as (res & h1 & Hg & Hsub & Hrep & _).
  unfold Store.AlphaBeta.run, AlphaBeta.run. rewrite Hg, get_child_boards_children. simpl.
  eapply store_continue; [exact Hsub|].
  apply store_ab_top_loop; [|done]. intros; by apply store_ab_value.
Qed.

Lemma store_expectimax_run {F} `{Arith F} fuel p l d (h : gmap nat Board) b :
  h !! l = Some b ->
  exists h', h ⊆ h'
    /\ Store.Expectimax.run (F:=F) fuel p l d h
       = with_store h' (Expectimax.run fuel p b d).
Proof.
  intros Hl.
  destruct (store_get_child_boards_spec p l b h Hl) as (res & h1 & Hg & Hsub & Hrep & _).
  unfold Store.Expectimax.run, Expectimax.run. rewrite Hg, get_child_boards_children. simpl.
  eapply store_continue; [exact Hsub|].
  apply store_ex_top_loop; [|done]. intros; by apply store_ex_value.
Qed.

(** ** [get_child_boards] on objects and the searches on objects *)

(** X7.  [get_child_boards] called on a board object returns; every object
    that existed before the call holds the same board after it (so the
    argument is unchanged); the result lists new, pairwise distinct objects,
    one per successor that [get_child_boards] computes on the board value,
    each holding that successor. *)
Theorem store_get_child_boards_frame (p : player) (board : nat) (b : Board)
    (h : gmap nat Board) :
  h !! board = Some b ->
  exists res h' succ,
    Store.get_child_boards p board h = Done (res, h')
    /\ get_child_boards p b = Done succ
    /\ (forall l0 b0, h !! l0 = Some b0 -> h' !! l0 = Some b0)
    /\ represents h' res succ
    /\ Forall (fun x => h !! x.2 = None) res
    /\ NoDup (map snd res).
Proof.
  intros Hl.
  destruct (store_get_child_boards_spec p board b h Hl)
    as (res & h' & Hg & Hsub & Hrep & Hfresh & Hnd).
  exists res, h', (children p b). split; [done|].
  split; [apply get_child_boards_children|]. split.
  { intros l0 b0 H0. eapply lookup_weaken; eauto. }
  split; [done|]. split; [|done].
  eapply Forall_impl; [exact Hfresh|]. intros x Hx. by apply not_elem_of_dom.
Qed.

Lemma store_get_child_boards_frame_witness :
  exists res h' succ,
    Store.get_child_boards PLAYER1 0 {[ 0 := late_board ]} = Done (res, h')
    /\ get_child_boards PLAYER1 late_board = Done succ
    /\ (forall l0 b0, ({[ 0 := late_board ]} : gmap nat Board) !! l0 = Some b0
                      -> h' !! l0 = Some b0)
    /\ represents h' res succ
    /\ Forall (fun x => ({[ 0 := late_board ]} : gmap nat Board) !! x.2 = None) res
    /\ NoDup (map snd res).
Proof.
  apply (store_get_child_boards_frame PLAYER1 0 late_board {[ 0 := late_board ]}).
  apply lookup_singleton_eq.
Defined.

(** X8.  Each search called on a board object returns the column the search
    returns on the board value the object holds, and every object that
    existed before the call holds the same board after it: discs are placed
    on clones only. *)
Theorem store_searches_frame (p : player) (board : nat) (b : Board)
    (depth_limit : Z) (h : gmap nat Board) :
  h !! board = Some b ->
  (exists r h', Store.minimax p board depth_limit h = Done (r, h')
                /\ minimax p b depth_limit = Done r
                /\ forall l0 b0, h !! l0 = Some b0 -> h' !! l0 = Some b0)
  /\ (exists r h', Store.alphabeta p board depth_limit h = Done (r, h')
                   /\ alphabeta p b depth_limit = Done r
                   /\ forall l0 b0, h !! l0 = Some b0 -> h' !! l0 = Some b0)
  /\ (forall F (A : Arith F),
        exists r h', Store.expectimax F p board depth_limit h = Done (r, h')
                     /\ expectimax F p b depth_limit = Done r
                     /\ forall l0 b0, h !! l0 = Some b0 -> h' !! l0 = Some b0).
Proof.
  intros Hl. split; [|split].
  - destruct (minimax_run_total p b depth_limit) as [[pl best] Hrun].
    destruct (store_minimax_run (search_fuel b) p board depth_limit h b Hl)
      as (h' & Hsub & E).
    exists pl, h'. unfold Store.minimax, Store.deref, minimax.
    rewrite Hl. simpl. rewrite E, Hrun. simpl. split; [done|]. split; [done|].
    intros l0 b0 H0. eapply lookup_weaken; eauto.
  - destruct (minimax_run_total p b depth_limit) as [[pl best] Hrun].
    apply ab_run_ok in Hrun.
    destruct (store_alphabeta_run (search_fuel b) p board depth_limit h b Hl)
      as (h' & Hsub & E).
    exists pl, h'. unfold Store.alphabeta, Store.deref, alphabeta.
    rewrite Hl. simpl. rewrite E, Hrun. simpl. split; [done|]. split; [done|].
    intros l0 b0 H0. eapply lookup_weaken; eauto.
  - intros F A. destruct (ex_run_total (F:=F) p b depth_limit) as [[pl best] Hrun].
    destruct (store_expectimax_run (F:=F) (search_fuel b) p board depth_limit h b Hl)
      as (h' & Hsub & E).
    exists pl, h'. unfold Store.expectimax, Store.deref, expectimax.
    rewrite Hl. simpl. rewrite E, Hrun. simpl. split; [done|]. split; [done|].
    intros l0 b0 H0. eapply lookup_weaken; eauto.
Qed.

Lemma store_searches_frame_witness :
  (exists r h', Store.minimax PLAYER1 0 2 {[ 0 := late_board ]} = Done (r, h')
                /\ minimax PLAYER1 late_board 2 = Done r
                /\ forall l0 b0, ({[ 0 := late_board ]} : gmap nat Board) !! l0 = Some b0
                                 -> h' !! l0 = Some b0)
  /\ (exists r h', Store.alphabeta PLAYER1 0 2 {[ 0 := late_board ]} = Done (r, h')
                   /\ alphabeta PLAYER1 late_board 2 = Done r
                   /\ forall l0 b0, ({[ 0 := late_board ]} : gmap nat Board) !! l0 = Some b0
                                    -> h' !! l0 = Some b0)
  /\ (forall F (A : Arith F),
        exists r h', Store.expectimax F PLAYER1 0 2 {[ 0 := late_board ]} = Done (r, h')
                     /\ expectimax F PLAYER1 late_board 2 = Done r
                     /\ forall l0 b0, ({[ 0 := late_board ]} : gmap nat Board) !! l0 = Some b0
                                      -> h' !! l0 = Some b0).
Proof.
  apply (store_searches_frame PLAYER1 0 late_board 2 {[ 0 := late_board ]}).
  apply lookup_singleton_eq.
Defined.

(** ** Further properties of the searches *)

Lemma score_lt_neg a b : score_lt (score_neg a) (score_neg b) = score_lt b a.
Proof.
  destruct a, b; simpl; try done.
  destruct (Z.ltb_spec (- z) (- z0)), (Z.ltb_spec z0 z); try done; lia.
Qed.

Lemma opponent_other cp p : cp <> p -> cp = opponent p.
Proof. destruct cp, p; intros N; try done; by destruct N. Qed.

Lemma neg_max_loop f g children : forall m,
  (forall ch : nat * Board, ch ∈ children -> g ch.2 = score_neg <$> f ch.2) ->
  Minimax.min_loop g children (score_neg m)
  = score_neg <$> Minimax.max_loop f children m.
Proof.
  induction children as [|[c ch] rest IH]; intros m H; simpl; [done|].
  pose proof (H (c, ch)) as E. simpl in E. rewrite E by (apply elem_of_cons; by left).
  destruct (f ch) as [s|e|]; simpl; try done.
  rewrite score_lt_neg. unfold score_gt.
  replace (if score_lt m s then score_neg s else score_neg m)
    with (score_neg (if score_lt m s then s else m)) by (by destruct (score_lt m s)).
  apply IH. intros x Hx. apply H. apply elem_of_cons. by right.
Qed.

Lemma neg_min_loop f g children : forall m,
  (forall ch : nat * Board, ch ∈ children -> g ch.2 = score_neg <$> f ch.2) ->
  Minimax.max_loop g children (score_neg m)
  = score_neg <$> Minimax.min_loop f children m.
Proof.
  induction children as [|[c ch] rest IH]; intros m H; simpl; [done|].
  pose proof (H (c, ch)) as E. simpl in E. rewrite E by (apply elem_of_cons; by left).
  destruct (f ch) as [s|e|]; simpl; try done.
  unfold score_gt. rewrite score_lt_neg.
  replace (if score_lt s m then score_neg s else score_neg m)
    with (score_neg (if score_lt s m then s else m)) by (by destruct (score_lt s m)).
  apply IH. intros x Hx. apply H. apply elem_of_cons. by right.
Qed.

(** X9.  The search is zero-sum: with the other player as the maximizing
    player, [value] of [minimax] returns the negated score at every node
    (maxima and minima swap, and [evaluate] changes sign). *)
Theorem minimax_value_zero_sum (max_player : player) (fuel : nat) (cp : player)
    (b : Board) (d : Z) :
  Minimax.value (opponent max_player) fuel cp b d
  = score_neg <$> Minimax.value max_player fuel cp b d.
Proof.
  revert cp b d. induction fuel as [|fuel IH]; intros cp b d; [done|].
  rewrite !mm_value_S. destruct (terminal b || (d =? 0)%Z).
  { simpl. rewrite (evaluate_opponent max_player b). by rewrite Z.opp_involutive. }
  unfold Minimax.max_value, Minimax.min_value.
  rewrite get_child_boards_children. simpl.
  destruct (decide (cp = max_player)) as [->|N].
  - rewrite (bool_decide_eq_true_2 (max_player = max_player)) by done.
    rewrite (bool_decide_eq_false_2 (max_player = opponent max_player))
      by (intros E; symmetry in E; by apply opponent_neq in E).
    apply (neg_max_loop _ _ _ NegInf). intros ch _. apply IH.
  - rewrite (bool_decide_eq_false_2 (cp = max_player)) by done.
    rewrite (bool_decide_eq_true_2 (cp = opponent max_player))
      by (by apply opponent_other).
    apply (neg_min_loop _ _ _ PosInf). intros ch _. apply IH.
Qed.

(** X10.  Within a window [alpha < beta], [value] of [alphabeta] returns the
    score [v] of [minimax]'s [value] when [v] is strictly inside the window;
    when [v <= alpha] it returns a score between [v] and [alpha], and when
    [beta <= v] a score between [beta] and [v]. *)
Theorem alphabeta_value_window (max_player : player) (fuel : nat) (cp : player)
    (b : Board) (d : Z) (alpha beta v : score) :
  Minimax.value max_player fuel cp b d = Done v ->
  score_lt alpha beta = true ->
  exists r,
    AlphaBeta.value max_player fuel cp b d alpha beta = Done r
    /\ (score_le v alpha = true -> score_le v r = true /\ score_le r alpha = true)
    /\ (score_le beta v = true -> score_le beta r = true /\ score_le r v = true)
    /\ (score_lt alpha v = true -> score_lt v beta = true -> r = v).
Proof.
  intros Hv Hw. destruct (ab_value_ok _ _ _ _ _ _ Hv alpha beta) as (r & Hr & Hok).
  exists r. split; [done|]. exact (Hok Hw).
Qed.

Lemma alphabeta_value_window_witness :
  exists r,
    AlphaBeta.value PLAYER1 7 PLAYER1 late_board 2 (Fin 0) (Fin 5) = Done r
    /\ (score_le (Fin 7) (Fin 0) = true ->
        score_le (Fin 7) r = true /\ score_le r (Fin 0) = true)
    /\ (score_le (Fin 5) (Fin 7) = true ->
        score_le (Fin 5) r = true /\ score_le r (Fin 7) = true)
    /\ (score_lt (Fin 0) (Fin 7) = true -> score_lt (Fin 7) (Fin 5) = true -> r = Fin 7).
Proof.
  apply (alphabeta_value_window PLAYER1 7 PLAYER1 late_board 2 (Fin 0) (Fin 5) (Fin 7));
    vm_compute; reflexivity.
Defined.

(** X11.  [get_child_boards] never raises: it returns one successor per
    placeable column of the board and no other, in strictly increasing column
    order; each successor is the board after [place] in that column, with one
    EMPTY cell fewer. *)
Theorem get_child_boards_successors (p : player) (b : Board) :
  exists succ,
    get_child_boards p b = Done succ
    /\ StronglySorted lt (map fst succ)
    /\ (forall c b', (c, b') ∈ succ <->
          c < cols b /\ placeable b c = true /\ place p c (clone b) = Some b')
    /\ (forall c b', (c, b') ∈ succ -> S (empty_cells b') = empty_cells b)
    /\ (succ = [] <-> forall c, c < cols b -> placeable b c = false).
Proof.
  exists (children p b). split; [apply get_child_boards_children|].
  split; [apply children_fst_sorted|]. split; [apply elem_of_children|].
  split; [apply empty_cells_child|apply children_nil].
Qed.

Lemma scores_of_elem {S} (rec : Board -> outcome S) children scored c s :
  scores_of rec children scored -> (c, s) ∈ scored ->
  exists b', (c, b') ∈ children /\ rec b' = Done s.
Proof.
  intros Hs Hin. apply list_elem_of_lookup in Hin as [i Hi].
  destruct (Forall2_lookup_r _ _ _ _ _ Hs Hi) as ([c' b'] & Hl & E1 & E2).
  simpl in *. subst. exists b'. split; [|done]. by eapply list_elem_of_lookup_2.
Qed.

Lemma scores_of_elem_l {S} (rec : Board -> outcome S) children scored c b' :
  scores_of rec children scored -> (c, b') ∈ children ->
  exists s, (c, s) ∈ scored /\ rec b' = Done s.
Proof.
  intros Hs Hin. apply list_elem_of_lookup in Hin as [i Hi].
  destruct (Forall2_lookup_l _ _ _ _ _ Hs Hi) as ([c' s] & Hl & E1 & E2).
  simpl in *. subst. exists s. split; [|done]. by eapply list_elem_of_lookup_2.
Qed.

Lemma minimax_depth_one p b :
  exists placement best,
    Minimax.run (search_fuel b) p b 1 = Done (placement, best)
    /\ greedy_choice p (children p b) placement.
Proof.
  destruct (minimax_chosen p b 1) as (scored & pl & best & Hs & Hrun & Hch).
  exists pl, best. split; [done|].
  assert (forall b', Minimax.value p (search_fuel b) (opponent p) b' (1 - 1)
                     = Done (Fin (evaluate p b'))) as Hleaf.
  { intros b'. unfold search_fuel. rewrite mm_value_S. by rewrite orb_true_r. }
  destruct pl as [c|]; simpl in *.
  - destruct Hch as [_ (Hin & Hmax & Hlow)].
    destruct (scores_of_elem _ _ _ _ _ Hs Hin) as (b' & Hb' & Hv).
    rewrite Hleaf in Hv. inversion Hv as [Ev]. exists b'. split; [done|]. split.
    + intros c1 b1 H1. destruct (scores_of_elem_l _ _ _ _ _ Hs H1) as (s1 & Hs1 & Hv1).
      rewrite Hleaf in Hv1. inversion Hv1; subst.
      specialize (Hmax _ _ Hs1). unfold score_gt in Hmax. simpl in Hmax.
      apply Z.ltb_ge in Hmax. done.
    + intros c1 b1 H1 Heq. destruct (scores_of_elem_l _ _ _ _ _ Hs H1) as (s1 & Hs1 & Hv1).
      rewrite Hleaf in Hv1. inversion Hv1; subst.
      apply (Hlow _ _ Hs1). unfold score_gt. simpl. rewrite Heq. apply Z.ltb_irrefl.
  - subst scored. by inversion Hs.
Qed.

Lemma expectimax_depth_one p b :
  expectimax exact p b 1 = minimax p b 1.
Proof.
  unfold expectimax, minimax, Expectimax.run, Minimax.run.
  rewrite get_child_boards_children. simpl.
  destruct (top_loops_agree
              (fun child => Minimax.value p (search_fuel b) (opponent p) child (1 - 1)%Z)
              (fun child => Expectimax.value (F:=exact) p (search_fuel b) (opponent p)
                              child (1 - 1)%Z)
              (children p b) None NegInf ENegInf) as (pl & s & x & -> & -> & _).
  - intros ch _. unfold search_fuel. rewrite mm_value_S, ex_value_S.
    rewrite orb_true_r. eexists _, _. split; [done|]. split; [done|]. constructor.
  - constructor.
  - done.
Qed.

(** X12.  With [depth_limit = 1] the three searches return the same column:
    none when the board has no successor, and otherwise the lowest column
    among the successors with the greatest [evaluate] score for the player
    ([expectimax] in exact arithmetic). *)
Theorem depth_one_is_greedy (p : player) (b : Board) :
  exists succ placement,
    get_child_boards p b = Done succ
    /\ minimax p b 1 = Done placement
    /\ alphabeta p b 1 = Done placement
    /\ expectimax exact p b 1 = Done placement
    /\ greedy_choice p succ placement.
Proof.
  destruct (minimax_depth_one p b) as (pl & best & Hrun & Hg).
  exists (children p b), pl. split; [apply get_child_boards_children|].
  assert (minimax p b 1 = Done pl) as Hm by (unfold minimax; by rewrite Hrun).
  split; [done|]. split.
  { unfold alphabeta. by rewrite (ab_run_ok _ _ _ _ _ Hrun). }
  split; [by rewrite expectimax_depth_one|done].
Qed.

Lemma sum_sub {A} (f g : A -> Z) (l : list A) :
  (foldr Z.add 0 (map (fun x => f x - g x) l)
   = foldr Z.add 0 (map f l) - foldr Z.add 0 (map g l))%Z.
Proof. induction l as [|x l IH]; simpl; lia. Qed.

Lemma weight_le k : (weight k <= 1000)%Z.
Proof. do 5 (destruct k as [|k]; [vm_compute; congruence|]). vm_compute; congruence. Qed.

Lemma reward_of_le p a s : (reward_of p a s <= 1000)%Z.
Proof. unfold reward_of. repeat case_bool_decide; try lia. apply weight_le. Qed.

Lemma reward_of_invalid p a s : invalid_slot ∈ s -> reward_of p a s = 0%Z.
Proof. intros H. unfold reward_of. by rewrite bool_decide_eq_true_2. Qed.

Lemma evaluate_le p b :
  (evaluate p b <= 1000 * Z.of_nat (length (valid_segments b)))%Z.
Proof.
  rewrite evaluate_reward. unfold reward. rewrite <- sum_sub.
  unfold valid_segments. apply sum_le_count; [lia|].
  intros s _. split.
  - intros _. pose proof (reward_of_le p (opponent p) s).
    pose proof (reward_of_nonneg (opponent p) (opponent (opponent p)) s). lia.
  - intros Hn. apply dec_stable in Hn. rewrite !reward_of_invalid by done. lia.
Qed.

Lemma zip_star_aux_elem {A} n : forall (ls : list (list A)) c y,
  c ∈ zip_star_aux n ls -> y ∈ c -> exists l, l ∈ ls /\ y ∈ l.
Proof.
  induction n as [|n IH]; intros ls c y Hc Hy; simpl in Hc; [by apply elem_of_nil in Hc|].
  destruct (mapM head ls) as [hs|] eqn:E; [|by apply elem_of_nil in Hc].
  apply elem_of_cons in Hc as [->|Hc].
  - apply mapM_Some in E. apply list_elem_of_lookup in Hy as [i Hi].
    destruct (Forall2_lookup_r _ _ _ _ _ E Hi) as (l & Hl & Hh).
    exists l. split; [by eapply list_elem_of_lookup_2|].
    destruct l; simplify_eq/=. apply elem_of_cons; by left.
  - destruct (IH _ _ _ Hc Hy) as (l' & Hl' & Hy').
    apply list_elem_of_fmap in Hl' as (l & -> & Hl). exists l. split; [done|].
    destruct l; simpl in *; [done|]. apply elem_of_cons; by right.
Qed.

Lemma zip_star_elem {A} (ls : list (list A)) c y :
  c ∈ zip_star ls -> y ∈ c -> exists l, l ∈ ls /\ y ∈ l.
Proof.
  unfold zip_star. destruct ls as [|l ls]; [by intros H%elem_of_nil|].
  apply zip_star_aux_elem.
Qed.

Lemma slice4_elem {A} (l : list A) i y : y ∈ slice4 l i -> y ∈ l.
Proof.
  unfold slice4. intros H. apply elem_of_take in H as (j & Hj & _).
  rewrite lookup_drop in Hj. by eapply list_elem_of_lookup_2.
Qed.

Lemma row_elem b r x : x ∈ row b r -> exists c, get b r c = Some x.
Proof.
  unfold row, get. destruct (grid b !! r) as [rw|] eqn:E; simpl.
  - intros [c Hc]%list_elem_of_lookup. exists c. done.
  - by intros H%elem_of_nil.
Qed.

Lemma col_elem b c x : x ∈ col b c -> exists r, get b r c = Some x.
Proof.
  unfold col. intros H. apply list_elem_of_In, in_flat_map in H as (rw & Hrw & Hx).
  apply list_elem_of_In, list_elem_of_lookup in Hrw as [r Hr]. exists r.
  unfold get. rewrite Hr. simpl. destruct (rw !! c); simpl in Hx; [|done].
  by destruct Hx as [->|[]].
Qed.

Lemma padded_row_elem b r n m x :
  Cell x ∈ replicate n invalid_slot ++ map Cell (row b r) ++ replicate m invalid_slot ->
  exists c, get b r c = Some x.
Proof.
  intros H. apply elem_of_app in H as [H|H].
  { by apply elem_of_replicate in H as [? _]. }
  apply elem_of_app in H as [H|H].
  - apply list_elem_of_fmap in H as (x' & E & H). inversion E; subst. by apply row_elem.
  - by apply elem_of_replicate in H as [? _].
Qed.

(** Every slot value in a segment is the value of a cell of the board. *)
Lemma segments_cells b s x :
  s ∈ segments b -> Cell x ∈ s -> exists r c, get b r c = Some x.
Proof.
  unfold segments, segments_of. intros H Hx.
  apply elem_of_app in H as [H|H]; [|apply elem_of_app in H as [H|H];
    [|apply elem_of_app in H as [H|H]]];
    apply list_elem_of_In, in_flat_map in H as (l & Hl & H);
    apply in_map_iff in H as (i & <- & _); apply slice4_elem in Hx.
  - apply list_elem_of_fmap in Hx as (x' & E & Hx). inversion E; subst.
    destruct (row_elem _ _ _ Hx) as [c Hc]. eauto.
  - apply list_elem_of_fmap in Hx as (x' & E & Hx). inversion E; subst.
    destruct (col_elem _ _ _ Hx) as [r Hr]. eauto.
  - apply list_elem_of_In in Hl.
    destruct (zip_star_elem _ _ _ Hl Hx) as (l' & Hl' & Hx').
    unfold left_revolved in Hl'. apply list_elem_of_fmap in Hl' as (r & -> & _).
    destruct (padded_row_elem _ _ _ _ _ Hx') as [c Hc]. eauto.
  - apply list_elem_of_In in Hl.
    destruct (zip_star_elem _ _ _ Hl Hx) as (l' & Hl' & Hx').
    unfold right_revolved in Hl'. apply list_elem_of_fmap in Hl' as (r & -> & _).
    destruct (padded_row_elem _ _ _ _ _ Hx') as [c Hc]. eauto.
Qed.

Lemma count_of_absent x s : x ∉ s -> count_of x s = 0.
Proof.
  intros H. unfold count_of. induction s as [|y s IH]; [done|].
  apply not_elem_of_cons in H as [H1 H2].
  rewrite filter_cons_False by (intros ->; done). by apply IH.
Qed.

Lemma reward_no_disc p b :
  (forall r c, get b r c <> Some (Disc p)) -> reward p b = 0%Z.
Proof.
  intros Hno. unfold reward.
  assert (forall s, s ∈ segments b -> reward_of p (opponent p) s = 0%Z) as H0.
  { intros s Hs. unfold reward_of. repeat case_bool_decide; try done.
    rewrite count_of_absent; [done|]. intros Hin.
    destruct (segments_cells _ _ _ Hs Hin) as (r & c & E). by apply (Hno r c). }
  induction (segments b) as [|s l IH]; simpl; [done|].
  rewrite H0 by (apply elem_of_cons; by left).
  rewrite IH; [done|]. intros s' Hs'. apply H0. apply elem_of_cons; by right.
Qed.

Lemma reward_nonneg p b : (0 <= reward p b)%Z.
Proof.
  unfold reward. induction (segments b) as [|s l IH]; simpl; [lia|].
  pose proof (reward_of_nonneg p (opponent p) s). lia.
Qed.

(** X13.  The score of [evaluate] is bounded: its absolute value is at most
    1000 times the number of segments inside the grid. *)
Theorem evaluate_bounded (p : player) (b : Board) :
  (Z.abs (evaluate p b) <= 1000 * Z.of_nat (length (valid_segments b)))%Z.
Proof.
  pose proof (evaluate_le p b). pose proof (evaluate_le (opponent p) b).
  pose proof (evaluate_opponent p b). lia.
Qed.

(** X14.  A player without a disc on the board is never ahead: [evaluate]
    gives the player a score of at most 0, and exactly 0 when the opponent
    has no disc on the board either (an empty board, for one). *)
Theorem evaluate_without_discs (p : player) (b : Board) :
  (forall r c, get b r c <> Some (Disc p)) ->
  (evaluate p b <= 0)%Z
  /\ ((forall r c, get b r c <> Some (Disc (opponent p))) -> evaluate p b = 0%Z).
Proof.
  intros Hno. rewrite evaluate_reward, (reward_no_disc p b Hno). split.
  - pose proof (reward_nonneg (opponent p) b). lia.
  - intros Hno'. by rewrite (reward_no_disc _ b Hno').
Qed.

Lemma evaluate_without_discs_witness :
  (evaluate PLAYER2 opening_board <= 0)%Z
  /\ ((forall r c, get opening_board r c
                   <> Some (Disc (opponent PLAYER2))) ->
      evaluate PLAYER2 opening_board = 0%Z).
Proof.
  apply (evaluate_without_discs PLAYER2 opening_board).
  intros r c.
  do 7 (destruct r as [|r]; [do 8 (destruct c as [|c]; [vm_compute; congruence|]);
                             vm_compute; congruence|]).
  vm_compute; congruence.
Defined.

(** The score of [value] does not depend on the recursion budget of the
    model, once the budget exceeds the number of EMPTY cells. *)
Lemma mm_value_fuel mp : forall fuel fuel' cp b d,
  empty_cells b < fuel -> empty_cells b < fuel' ->
  Minimax.value mp fuel cp b d = Minimax.value mp fuel' cp b d.
Proof.
  induction fuel as [|fuel IH]; intros fuel' cp b d H1 H2; [lia|].
  destruct fuel' as [|fuel']; [lia|]. rewrite !mm_value_S.
  destruct (terminal b || (d =? 0)%Z); [done|].
  assert (forall ch, ch ∈ children cp b ->
            Minimax.value mp fuel (opponent cp) ch.2 (d - 1)
            = Minimax.value mp fuel' (opponent cp) ch.2 (d - 1)) as Hext.
  { intros [c b'] Hin. simpl. apply empty_cells_child in Hin. apply IH; lia. }
  unfold Minimax.max_value, Minimax.min_value. rewrite get_child_boards_children. simpl.
  destruct (bool_decide (cp = mp)).
  - by apply mm_max_loop_ext.
  - by apply mm_min_loop_ext.
Qed.

Lemma Forall2_fin_exists (rec : Board -> outcome score) (children : list (nat * Board)) :
  Forall (fun ch : nat * Board => exists z, rec ch.2 = Done (Fin z)) children ->
  exists vs, Forall2 (fun (ch : nat * Board) v => rec ch.2 = Done (Fin v)) children vs.
Proof.
  induction 1 as [|ch rest [z Hz] _ (vs & Hvs)].
  - exists []. constructor.
  - exists (z :: vs). by constructor.
Qed.

(** X15.  [value] of [minimax] computes the minimax value of the game tree
    cut at the depth limit.  At a terminal board or at depth 0 it is the
    [evaluate] score of the maximizing player.  At any other node it is the
    value of one of the successors, and it is the greatest of the successors'
    values when the maximizing player moves, the least when the adversary
    moves. *)
Theorem minimax_value_is_minimax (max_player cp : player) (b : Board) (d : Z) :
  exists v,
    Minimax.value max_player (search_fuel b) cp b d = Done (Fin v)
    /\ (terminal b = true \/ d = 0%Z -> v = evaluate max_player b)
    /\ (terminal b = false -> d <> 0%Z ->
        (exists c b', (c, b') ∈ children cp b
           /\ Minimax.value max_player (search_fuel b') (opponent cp) b' (d - 1)
              = Done (Fin v))
        /\ (forall c b' w, (c, b') ∈ children cp b ->
              Minimax.value max_player (search_fuel b') (opponent cp) b' (d - 1)
              = Done (Fin w) ->
              if bool_decide (cp = max_player) then (w <= v)%Z else (v <= w)%Z)).
Proof.
  unfold search_fuel at 1. rewrite mm_value_S.
  destruct (terminal b) eqn:T; simpl.
  { eexists. split; [done|]. split; [done|]. intros; done. }
  destruct (d =? 0)%Z eqn:Ed.
  { eexists. split; [done|]. split; [done|]. intros _ Hd. apply Z.eqb_eq in Ed. done. }
  apply Z.eqb_neq in Ed.
  assert (forall c b', (c, b') ∈ children cp b ->
            Minimax.value max_player (empty_cells b) (opponent cp) b' (d - 1)
            = Minimax.value max_player (search_fuel b') (opponent cp) b' (d - 1)) as Hfuel.
  { intros c b' Hin. apply empty_cells_child in Hin.
    apply mm_value_fuel; unfold search_fuel; lia. }
  assert (Forall (fun ch : nat * Board =>
            exists z, (fun child => Minimax.value max_player (empty_cells b) (opponent cp)
                                      child (d - 1)) ch.2 = Done (Fin z))
            (children cp b)) as Hall.
  { apply children_Forall. intros c b' Hin. simpl. apply mm_value_fin.
    apply empty_cells_child in Hin. lia. }
  destruct (Forall2_fin_exists _ _ Hall) as (vs & Hvs).
  pose proof (not_terminal_children cp b T) as Hne.
  assert (forall v, v ∈ vs -> exists c b', (c, b') ∈ children cp b
            /\ Minimax.value max_player (search_fuel b') (opponent cp) b' (d - 1)
               = Done (Fin v)) as Hattained.
  { intros v Hv. apply list_elem_of_lookup in Hv as [i Hi].
    destruct (Forall2_lookup_r _ _ _ _ _ Hvs Hi) as ([c b'] & Hl & E). simpl in E.
    apply list_elem_of_lookup_2 in Hl. exists c, b'. split; [done|].
    by rewrite <- (Hfuel _ _ Hl). }
  assert (forall c b' w, (c, b') ∈ children cp b ->
            Minimax.value max_player (search_fuel b') (opponent cp) b' (d - 1)
            = Done (Fin w) -> w ∈ vs) as Hmember.
  { intros c b' w Hin E. apply list_elem_of_lookup in Hin as [i Hi].
    destruct (Forall2_lookup_l _ _ _ _ _ Hvs Hi) as (w' & Hl & E'). simpl in E'.
    apply list_elem_of_lookup_2 in Hi. rewrite (Hfuel _ _ Hi), E in E'.
    inversion E'; subst. by eapply list_elem_of_lookup_2. }
  assert (vs <> []) as Hvne.
  { intros ->. inversion Hvs as [E|]. by rewrite <- E in Hne. }
  destruct vs as [|v0 vs']; [done|].
  unfold Minimax.max_value, Minimax.min_value. rewrite get_child_boards_children. simpl.
  destruct (bool_decide (cp = max_player)).
  - destruct (mm_max_loop_spec (fun child => Minimax.value max_player (empty_cells b) (opponent cp) child (d - 1))
                 _ _ Hvs NegInf) as (R & -> & Hin & _ & Hub); [done|].
    destruct Hin as [->|(v & Hv & ->)].
    { assert (score_le (Fin v0) NegInf = true) as Hx
        by (apply Hub; apply elem_of_cons; by left). done. }
    exists v. split; [done|]. split; [by intros [?|?]|]. intros _ _. split; [by apply Hattained|].
    intros c b' w Hc E. specialize (Hub w (Hmember _ _ _ Hc E)).
    unfold score_le in Hub. simpl in Hub. apply negb_true_iff, Z.ltb_ge in Hub. lia.
  - destruct (mm_min_loop_spec (fun child => Minimax.value max_player (empty_cells b) (opponent cp) child (d - 1))
                 _ _ Hvs PosInf) as (R & -> & Hin & _ & Hlb); [done|].
    destruct Hin as [->|(v & Hv & ->)].
    { assert (score_le PosInf (Fin v0) = true) as Hx
        by (apply Hlb; apply elem_of_cons; by left). done. }
    exists v. split; [done|]. split; [by intros [?|?]|]. intros _ _. split; [by apply Hattained|].
    intros c b' w Hc E. specialize (Hlb w (Hmember _ _ _ Hc E)).
    unfold score_le in Hlb. simpl in Hlb. apply negb_true_iff, Z.ltb_ge in Hlb. lia.
Qed.

Lemma map_fmap {A B} (f : A -> B) (l : list A) : map f l = f <$> l.
Proof. reflexivity. Qed.

Lemma flat_map_nil {A B} (l : list A) : flat_map (fun _ => @nil B) l = [].
Proof. by induction l. Qed.

Lemma flat_map_ext_elem {A B} (f g : A -> list B) l :
  (forall x, x ∈ l -> f x = g x) -> flat_map f l = flat_map g l.
Proof.
  induction l as [|x l IH]; intros H; simpl; [done|].
  rewrite (H x) by (apply elem_of_cons; by left).
  rewrite IH; [done|]. intros y Hy. apply H. apply elem_of_cons; by right.
Qed.

Lemma map_ext_elem {A B} (f g : A -> B) l :
  (forall x, x ∈ l -> f x = g x) -> map f l = map g l.
Proof.
  induction l as [|x l IH]; intros H; simpl; [done|].
  rewrite (H x) by (apply elem_of_cons; by left).
  rewrite IH; [done|]. intros y Hy. apply H. apply elem_of_cons; by right.
Qed.

Lemma flat_map_singleton {A B} (g : A -> B) l : flat_map (fun x => [g x]) l = map g l.
Proof. induction l as [|x l IH]; simpl; [done|]. by rewrite IH. Qed.

Lemma flat_map_fmap {A B C} (f : A -> B) (g : B -> list C) l :
  flat_map g (map f l) = flat_map (fun x => g (f x)) l.
Proof. induction l as [|x l IH]; simpl; [done|]. by rewrite IH. Qed.

Lemma flat_map_cons_perm {A B} (g : A -> B) (h : A -> list B) l :
  flat_map (fun x => g x :: h x) l ≡ₚ map g l ++ flat_map h l.
Proof.
  induction l as [|x l IH]; simpl; [done|].
  rewrite IH. constructor. rewrite !app_assoc.
  apply Permutation_app_tail, Permutation_app_comm.
Qed.

(** Two nested loops that collect one item per pair of indices collect the
    same items in either nesting order. *)
Lemma flat_map_swap {A B C} (f : A -> B -> C) la lb :
  flat_map (fun a => map (f a) lb) la
  ≡ₚ flat_map (fun b => map (fun a => f a b) la) lb.
Proof.
  induction la as [|a la IH]; simpl.
  - by rewrite flat_map_nil.
  - rewrite flat_map_cons_perm. by rewrite IH.
Qed.

Lemma filter_flat_map {A B} (P : B -> Prop) `{forall x, Decision (P x)}
    (f : A -> list B) l :
  filter P (flat_map f l) = flat_map (fun x => filter P (f x)) l.
Proof. induction l as [|x l IH]; simpl; [done|]. by rewrite filter_app, IH. Qed.

Lemma filter_all {A} (P : A -> Prop) `{forall x, Decision (P x)} l :
  Forall P l -> filter P l = l.
Proof. induction 1; [done|]. rewrite filter_cons_True by done. by f_equal. Qed.

Lemma filter_none {A} (P : A -> Prop) `{forall x, Decision (P x)} l :
  Forall (fun x => ~ P x) l -> filter P l = [].
Proof. induction 1; [done|]. by rewrite filter_cons_False. Qed.

Lemma map_seq_shift {A} (f : nat -> A) a m :
  map f (seq a m) = map (fun c => f (a + c)) (seq 0 m).
Proof.
  rewrite <- (Nat.add_0_r a) at 1. rewrite <- fmap_add_seq.
  apply (map_map (Nat.add a) f).
Qed.

Lemma flat_map_seq_prefix {A} (F F' : nat -> list A) m n :
  m <= n -> (forall k, k < m -> F k = F' k) ->
  (forall k, m <= k < n -> F k = []) ->
  flat_map F (seq 0 n) = flat_map F' (seq 0 m).
Proof.
  intros Hmn H1 H2. replace n with (m + (n - m)) by lia.
  rewrite seq_app, flat_map_app. simpl.
  rewrite (flat_map_ext_elem F F' (seq 0 m)).
  2:{ intros k Hk. apply elem_of_seq in Hk. apply H1. lia. }
  rewrite (flat_map_ext_elem F (fun _ => []) (seq m (n - m))).
  2:{ intros k Hk. apply elem_of_seq in Hk. apply H2. lia. }
  by rewrite flat_map_nil, app_nil_r.
Qed.

(** Filtering the items of a loop that passes the test exactly on a window of
    its indices. *)
Lemma filter_map_window {A} (P : A -> Prop) `{forall x, Decision (P x)}
    (f : nat -> A) a m n :
  a + m <= n ->
  (forall j, j < a -> ~ P (f j)) ->
  (forall j, a <= j < a + m -> P (f j)) ->
  (forall j, a + m <= j < n -> ~ P (f j)) ->
  filter P (map f (seq 0 n)) = map (fun c => f (a + c)) (seq 0 m).
Proof.
  intros Hn H1 H2 H3. replace n with (a + (m + (n - (a + m)))) by lia.
  rewrite !seq_app, !map_app, !filter_app. simpl.
  rewrite (filter_none P (map f (seq 0 a))).
  2:{ apply Forall_forall. intros x Hx. rewrite map_fmap in Hx.
      apply list_elem_of_fmap in Hx as (j & -> & Hj).
      apply elem_of_seq in Hj. apply H1. lia. }
  rewrite (filter_all P (map f (seq a m))).
  2:{ apply Forall_forall. intros x Hx. rewrite map_fmap in Hx.
      apply list_elem_of_fmap in Hx as (j & -> & Hj).
      apply elem_of_seq in Hj. apply H2. lia. }
  rewrite (filter_none P (map f (seq (a + m) _))).
  2:{ apply Forall_forall. intros x Hx. rewrite map_fmap in Hx.
      apply list_elem_of_fmap in Hx as (j & -> & Hj).
      apply elem_of_seq in Hj. apply H3. lia. }
  rewrite app_nil_r. simpl. apply map_seq_shift.
Qed.

Lemma slice4_cells {A} (l : list A) i x0 x1 x2 x3 :
  l !! i = Some x0 -> l !! (i + 1) = Some x1 -> l !! (i + 2) = Some x2 ->
  l !! (i + 3) = Some x3 -> slice4 l i = [x0; x1; x2; x3].
Proof.
  unfold slice4. rewrite <- (Nat.add_0_r i) at 1. rewrite <- !lookup_drop.
  destruct (drop i l) as [|a0 [|a1 [|a2 [|a3 rest]]]]; simpl; intros; simplify_eq.
  done.
Qed.

Lemma mapM_head_rect {A} (d : A) (ls : list (list A)) n :
  Forall (fun l => length l = S n) ls ->
  mapM head ls = Some (map (fun l => default d (l !! 0)) ls).
Proof.
  intros H. apply mapM_Some_2. induction H as [|l ls Hl _ IH]; simpl; [constructor|].
  constructor; [|done]. destruct l; simpl in *; [lia|done].
Qed.

Lemma zip_star_aux_rect {A} (d : A) n : forall (ls : list (list A)),
  Forall (fun l => length l = n) ls ->
  zip_star_aux n ls = map (fun j => map (fun l => default d (l !! j)) ls) (seq 0 n).
Proof.
  induction n as [|n IH]; intros ls H; [done|].
  simpl. rewrite (mapM_head_rect d ls n H). f_equal.
  rewrite IH.
  2:{ rewrite map_fmap. apply Forall_fmap. eapply Forall_impl; [exact H|].
      intros l Hl. simpl. destruct l; simpl in *; lia. }
  rewrite <- fmap_S_seq. change (S <$> seq 0 n) with (map S (seq 0 n)).
  rewrite map_map. apply map_ext. intros j.
  rewrite map_map. apply map_ext. intros l. by destruct l.
Qed.

(** The columns of a rectangle of [n] columns. *)
Lemma zip_star_rect {A} (d : A) n (ls : list (list A)) :
  ls <> [] -> Forall (fun l => length l = n) ls ->
  zip_star ls = map (fun j => map (fun l => default d (l !! j)) ls) (seq 0 n).
Proof.
  intros Hne H. destruct ls as [|l ls]; [done|]. unfold zip_star.
  inversion H; subst. by apply zip_star_aux_rect.
Qed.

Section Lines.
Variable b : Board.
Hypothesis wf : wf_board b = true.

Lemma wf_rows : length (grid b) = rows b.
Proof.
  unfold wf_board in wf. apply andb_true_iff in wf as [H _].
  by apply bool_decide_eq_true in H.
Qed.

Lemma wf_cols rw : rw ∈ grid b -> length rw = cols b.
Proof.
  unfold wf_board in wf. apply andb_true_iff in wf as [_ H].
  rewrite forallb_forall in H. intros Hin. apply list_elem_of_In, H in Hin.
  by apply bool_decide_eq_true in Hin.
Qed.

Lemma get_inside r c : r < rows b -> c < cols b -> is_Some (get b r c).
Proof.
  intros Hr Hc. unfold get. rewrite <- wf_rows in Hr.
  apply lookup_lt_is_Some_2 in Hr as [rw Hrw]. rewrite Hrw. simpl.
  apply lookup_lt_is_Some_2. rewrite (wf_cols rw); [done|].
  by eapply list_elem_of_lookup_2.
Qed.

Lemma get_outside r c : rows b <= r \/ cols b <= c -> get b r c = None.
Proof.
  intros H. unfold get. destruct (grid b !! r) as [rw|] eqn:E; simpl; [|done].
  apply lookup_ge_None_2. destruct H as [H|H].
  - apply lookup_lt_Some in E. rewrite wf_rows in E. lia.
  - rewrite (wf_cols rw); [done|]. by eapply list_elem_of_lookup_2.
Qed.

Lemma get_cell_at r c :
  r < rows b -> c < cols b -> Cell <$> get b r c = Some (cell_at b (r, c)).
Proof.
  intros Hr Hc. unfold cell_at. simpl. by destruct (get_inside r c Hr Hc) as [x ->].
Qed.

Lemma row_lookup r c : row b r !! c = get b r c.
Proof. unfold row, get. by destruct (grid b !! r). Qed.

Lemma col_lookup_aux c (g : list (list slot)) : forall r,
  Forall (fun rw => c < length rw) g ->
  flat_map (fun rw => option_list (rw !! c)) g !! r = g !! r ≫= (.!! c).
Proof.
  induction g as [|rw g IH]; intros r H; [done|]. inversion H as [|? ? Hrw Hg]; subst.
  apply lookup_lt_is_Some_2 in Hrw as [x Hx]. simpl. rewrite Hx. simpl.
  destruct r as [|r]; simpl; [done|]. by apply IH.
Qed.

Lemma col_lookup r c : c < cols b -> col b c !! r = get b r c.
Proof.
  intros Hc. unfold col, get. apply col_lookup_aux.
  apply Forall_forall. intros rw Hrw. by rewrite (wf_cols rw).
Qed.

Lemma row_cell r c :
  r < rows b -> c < cols b -> map Cell (row b r) !! c = Some (cell_at b (r, c)).
Proof.
  intros Hr Hc. rewrite map_fmap, list_lookup_fmap, row_lookup. by apply get_cell_at.
Qed.

Lemma col_cell r c :
  r < rows b -> c < cols b -> map Cell (col b c) !! r = Some (cell_at b (r, c)).
Proof.
  intros Hr Hc. rewrite map_fmap, list_lookup_fmap, col_lookup by done.
  by apply get_cell_at.
Qed.

Lemma row_length r : r < rows b -> length (map Cell (row b r)) = cols b.
Proof.
  intros Hr. rewrite length_map. unfold row. rewrite <- wf_rows in Hr.
  apply lookup_lt_is_Some_2 in Hr as [rw Hrw]. rewrite Hrw. simpl.
  apply wf_cols. by eapply list_elem_of_lookup_2.
Qed.

(** A line inside the grid holds the values of its cells; a line that leaves
    the grid is no line. *)
Lemma line_inside d r c :
  Forall (fun rc => rc.1 < rows b /\ rc.2 < cols b) (coords d r c) ->
  line b d r c = Some (map (cell_at b) (coords d r c)).
Proof.
  intros H. unfold line. apply mapM_Some_2.
  induction H as [|[r' c'] l [H1 H2] _ IH]; simpl; constructor; [|done].
  simpl in *. by apply get_cell_at.
Qed.

Lemma line_outside d r c :
  Exists (fun rc => rows b <= rc.1 \/ cols b <= rc.2) (coords d r c) ->
  line b d r c = None.
Proof.
  intros H. unfold line. destruct (mapM _ _) as [s|] eqn:E; [|done].
  apply mapM_Some_1 in E. apply Exists_exists in H as ([r' c'] & Hin & Hout).
  apply list_elem_of_lookup in Hin as [i Hi].
  destruct (Forall2_lookup_l _ _ _ _ _ E Hi) as (x & _ & Hx). simpl in *.
  by rewrite (get_outside r' c' Hout) in Hx.
Qed.

Lemma cells_valid (l : list (nat * nat)) : invalid_slot ∉ map (cell_at b) l.
Proof.
  rewrite map_fmap. intros H. apply list_elem_of_fmap in H as (rc & E & _).
  unfold cell_at in E. discriminate.
Qed.

Lemma lines_direction d :
  flat_map (fun r => flat_map (fun c => option_list (line b d r c)) (seq 0 (cols b)))
           (seq 0 (rows b))
  = flat_map (fun r => map (fun c => map (cell_at b) (coords d r c))
                           (seq 0 (start_cols b d)))
             (seq 0 (start_rows b d)).
Proof.
  apply flat_map_seq_prefix.
  - destruct d; simpl; lia.
  - intros r Hr. rewrite <- flat_map_singleton. apply flat_map_seq_prefix.
    + destruct d; simpl; lia.
    + intros c Hc. rewrite line_inside; [done|].
      destruct d; simpl in *; repeat constructor; simpl; lia.
    + intros c Hc. rewrite line_outside; [done|].
      destruct d; simpl in *;
        first [lia | apply Exists_cons_tl, Exists_cons_tl, Exists_cons_tl, Exists_cons_hd;
                     simpl; lia
                   | apply Exists_cons_hd; simpl; lia].
  - intros r Hr. rewrite (flat_map_ext_elem _ (fun _ => [])); [apply flat_map_nil|].
    intros c _. rewrite line_outside; [done|].
    destruct d; simpl in *;
      first [lia | apply Exists_cons_tl, Exists_cons_tl, Exists_cons_tl, Exists_cons_hd;
                   simpl; lia].
Qed.

(** The segments of the rows and of the columns. *)
Lemma row_segments :
  flat_map (fun r => map (slice4 (map Cell (row b r))) (seq 0 (cols b - 3)))
           (seq 0 (rows b))
  = flat_map (fun r => map (fun c => map (cell_at b) (coords Horizontal r c))
                           (seq 0 (cols b - 3)))
             (seq 0 (rows b)).
Proof.
  apply flat_map_ext_elem. intros r Hr%elem_of_seq.
  apply map_ext_elem. intros c Hc%elem_of_seq. simpl.
  apply slice4_cells; apply row_cell; lia.
Qed.

Lemma col_segments :
  flat_map (fun c => map (slice4 (map Cell (col b c))) (seq 0 (rows b - 3)))
           (seq 0 (cols b))
  = flat_map (fun c => map (fun r => map (cell_at b) (coords Vertical r c))
                           (seq 0 (rows b - 3)))
             (seq 0 (cols b)).
Proof.
  apply flat_map_ext_elem. intros c Hc%elem_of_seq.
  apply map_ext_elem. intros r Hr%elem_of_seq. simpl.
  apply slice4_cells; apply col_cell; lia.
Qed.

Lemma padded_cell_inside p q r j :
  r < rows b -> p r <= j < p r + cols b ->
  padded_cell b p q r j = cell_at b (r, j - p r).
Proof.
  intros Hr Hj. unfold padded_cell, padded.
  rewrite lookup_app_r by (rewrite length_replicate; lia).
  rewrite length_replicate.
  rewrite lookup_app_l by (rewrite row_length by done; lia).
  rewrite row_cell by (done || lia). done.
Qed.

Lemma padded_cell_outside p q r j :
  r < rows b -> j < p r \/ p r + cols b <= j ->
  padded_cell b p q r j = invalid_slot.
Proof.
  intros Hr Hj. unfold padded_cell, padded. destruct (decide (j < p r)) as [Hlt|Hge].
  - rewrite lookup_app_l by (rewrite length_replicate; lia).
    rewrite lookup_replicate_2 by done. done.
  - rewrite lookup_app_r by (rewrite length_replicate; lia).
    rewrite length_replicate.
    rewrite lookup_app_r by (rewrite row_length by done; lia).
    destruct (replicate _ _ !! _) as [x|] eqn:E; [|done].
    apply lookup_replicate in E as [-> _]. done.
Qed.

(** The segments of the columns of a revolved grid, column by column. *)
Lemma revolved_segments p q :
  (forall r, r < rows b -> p r + q r = rows b - 1) ->
  flat_map (fun col => map (slice4 col) (seq 0 (rows b - 3)))
           (zip_star (map (padded b p q) (seq 0 (rows b))))
  = flat_map (fun j => map (fun i => [padded_cell b p q i j; padded_cell b p q (i + 1) j;
                                     padded_cell b p q (i + 2) j; padded_cell b p q (i + 3) j])
                           (seq 0 (rows b - 3)))
             (seq 0 (rows b - 1 + cols b)).
Proof.
  intros Hpq. destruct (rows b) as [|n] eqn:ER.
  { simpl. by rewrite flat_map_nil. }
  rewrite (zip_star_rect invalid_slot (S n - 1 + cols b)).
  - rewrite flat_map_fmap. apply flat_map_ext_elem. intros j _.
    apply map_ext_elem. intros i Hi%elem_of_seq.
    assert (forall k, k < S n ->
              map (fun l => default invalid_slot (l !! j))
                  (map (padded b p q) (seq 0 (S n))) !! k
              = Some (padded_cell b p q k j)) as Hcol.
    { intros k Hk. rewrite map_map, map_fmap, list_lookup_fmap.
      rewrite lookup_seq_lt by done. done. }
    apply slice4_cells; apply Hcol; lia.
  - done.
  - rewrite map_fmap. apply Forall_fmap, Forall_forall. intros r Hr%elem_of_seq.
    simpl. unfold padded. rewrite !length_app, !length_replicate.
    rewrite row_length by lia. specialize (Hpq r). lia.
Qed.

Lemma falling_segment i c :
  i + 3 < rows b -> c + 3 < cols b ->
  [padded_cell b (fun r => r) (fun r => rows b - 1 - r) i (i + 3 + c);
   padded_cell b (fun r => r) (fun r => rows b - 1 - r) (i + 1) (i + 3 + c);
   padded_cell b (fun r => r) (fun r => rows b - 1 - r) (i + 2) (i + 3 + c);
   padded_cell b (fun r => r) (fun r => rows b - 1 - r) (i + 3) (i + 3 + c)]
  = map (cell_at b) (coords Falling i c).
Proof.
  intros Hi Hc. rewrite !padded_cell_inside by lia. simpl.
  repeat (f_equal; try lia).
Qed.

Lemma rising_segment i c :
  i + 3 < rows b -> c + 3 < cols b ->
  [padded_cell b (fun r => rows b - 1 - r) (fun r => r) i (rows b - 1 - i + c);
   padded_cell b (fun r => rows b - 1 - r) (fun r => r) (i + 1) (rows b - 1 - i + c);
   padded_cell b (fun r => rows b - 1 - r) (fun r => r) (i + 2) (rows b - 1 - i + c);
   padded_cell b (fun r => rows b - 1 - r) (fun r => r) (i + 3) (rows b - 1 - i + c)]
  = map (cell_at b) (coords Rising i c).
Proof.
  intros Hi Hc. rewrite !padded_cell_inside by lia. simpl.
  repeat (f_equal; try lia).
Qed.

Lemma falling_segments :
  filter (fun s => invalid_slot ∉ s)
    (flat_map (fun col => map (slice4 col) (seq 0 (rows b - 3)))
       (zip_star (left_revolved invalid_slot (rows b) (fun r => map Cell (row b r)))))
  ≡ₚ flat_map (fun r => map (fun c => map (cell_at b) (coords Falling r c))
                            (seq 0 (cols b - 3)))
              (seq 0 (rows b - 3)).
Proof.
  change (left_revolved invalid_slot (rows b) (fun r => map Cell (row b r)))
    with (map (padded b (fun r => r) (fun r => rows b - 1 - r)) (seq 0 (rows b))).
  rewrite (revolved_segments (fun r => r) (fun r => rows b - 1 - r)) by (intros; lia).
  rewrite flat_map_swap, filter_flat_map.
  rewrite (flat_map_ext_elem _
             (fun r => map (fun c => map (cell_at b) (coords Falling r c))
                           (seq 0 (cols b - 3)))); [done|].
  intros i Hi%elem_of_seq.
  rewrite (filter_map_window _ _ (i + 3) (cols b - 3)).
  - apply map_ext_elem. intros c Hc%elem_of_seq. apply falling_segment; lia.
  - lia.
  - intros j Hj H. apply H.
    rewrite (padded_cell_outside _ _ (i + 3) j) by lia.
    do 3 (apply elem_of_cons; right). apply elem_of_cons; by left.
  - intros j Hj. replace j with (i + 3 + (j - (i + 3))) by lia.
    rewrite falling_segment by lia. apply cells_valid.
  - intros j Hj H. apply H.
    rewrite (padded_cell_outside _ _ i j) by lia.
    apply elem_of_cons; by left.
Qed.

Lemma rising_segments :
  filter (fun s => invalid_slot ∉ s)
    (flat_map (fun col => map (slice4 col) (seq 0 (rows b - 3)))
       (zip_star (right_revolved invalid_slot (rows b) (fun r => map Cell (row b r)))))
  ≡ₚ flat_map (fun r => map (fun c => map (cell_at b) (coords Rising r c))
                            (seq 0 (cols b - 3)))
              (seq 0 (rows b - 3)).
Proof.
  change (right_revolved invalid_slot (rows b) (fun r => map Cell (row b r)))
    with (map (padded b (fun r => rows b - 1 - r) (fun r => r)) (seq 0 (rows b))).
  rewrite (revolved_segments (fun r => rows b - 1 - r) (fun r => r)) by (intros; lia).
  rewrite flat_map_swap, filter_flat_map.
  rewrite (flat_map_ext_elem _
             (fun r => map (fun c => map (cell_at b) (coords Rising r c))
                           (seq 0 (cols b - 3)))); [done|].
  intros i Hi%elem_of_seq.
  rewrite (filter_map_window _ _ (rows b - 1 - i) (cols b - 3)).
  - apply map_ext_elem. intros c Hc%elem_of_seq. apply rising_segment; lia.
  - lia.
  - intros j Hj H. apply H.
    rewrite (padded_cell_outside _ _ i j) by lia.
    apply elem_of_cons; by left.
  - intros j Hj. replace j with (rows b - 1 - i + (j - (rows b - 1 - i))) by lia.
    rewrite rising_segment by lia. apply cells_valid.
  - intros j Hj H. apply H.
    rewrite (padded_cell_outside _ _ (i + 3) j) by lia.
    do 3 (apply elem_of_cons; right). apply elem_of_cons; by left.
Qed.

Lemma valid_segments_lines : valid_segments b ≡ₚ lines b.
Proof.
  unfold valid_segments, segments, segments_of, lines. simpl.
  rewrite !lines_direction, app_nil_r. simpl.
  rewrite !filter_app. rewrite falling_segments, rising_segments.
  rewrite row_segments, col_segments.
  rewrite (filter_all _ (flat_map _ (seq 0 (rows b)))).
  2:{ apply Forall_forall. intros s Hs.
      apply list_elem_of_In, in_flat_map in Hs as (r & _ & Hs).
      apply in_map_iff in Hs as (c & <- & _). apply cells_valid. }
  rewrite (filter_all _ (flat_map _ (seq 0 (cols b)))).
  2:{ apply Forall_forall. intros s Hs.
      apply list_elem_of_In, in_flat_map in Hs as (r & _ & Hs).
      apply in_map_iff in Hs as (c & <- & _). apply cells_valid. }
  rewrite (flat_map_swap (fun c r => map (cell_at b) (coords Vertical r c))).
  done.
Qed.

End Lines.

Lemma sum_filter_zero {A} (f : A -> Z) (P : A -> Prop) `{forall x, Decision (P x)} l :
  (forall x, ~ P x -> f x = 0%Z) ->
  foldr Z.add 0%Z (map f l) = foldr Z.add 0%Z (map f (filter P l)).
Proof.
  intros H0. induction l as [|x l IH]; simpl; [done|].
  destruct (decide (P x)).
  - rewrite filter_cons_True by done. simpl. by rewrite IH.
  - rewrite filter_cons_False by done. rewrite H0 by done. by rewrite IH.
Qed.

Lemma sum_Permutation {A} (f : A -> Z) l l' :
  l ≡ₚ l' -> foldr Z.add 0%Z (map f l) = foldr Z.add 0%Z (map f l').
Proof. induction 1; simpl; lia. Qed.

(** X16.  On a board whose grid is [rows] by [cols], the segments that
    [evaluate] scores (those without an invalid cell) are the lines of four
    cells inside the grid, horizontal, vertical and along both diagonals,
    each line once; the score is the sum over these lines of what each adds
    to the player's tally less what it adds to the adversary's. *)
Theorem evaluate_scans_every_line_once (b : Board) :
  wf_board b = true ->
  valid_segments b ≡ₚ lines b
  /\ forall p, evaluate p b = foldr Z.add 0%Z (map (line_score p) (lines b)).
Proof.
  intros wf. pose proof (valid_segments_lines b wf) as Hperm. split; [done|].
  intros p. rewrite evaluate_reward. unfold reward. rewrite <- sum_sub.
  rewrite opponent_involutive.
  rewrite (sum_filter_zero _ (fun s => invalid_slot ∉ s)).
  - apply (sum_Permutation (line_score p)), Hperm.
  - intros s Hs. apply dec_stable in Hs. by rewrite !reward_of_invalid.
Qed.

Lemma evaluate_scans_every_line_once_witness :
  valid_segments (empty_board 6 7) ≡ₚ lines (empty_board 6 7)
  /\ forall p, evaluate p (empty_board 6 7)
               = foldr Z.add 0%Z (map (line_score p) (lines (empty_board 6 7))).
Proof.
  apply (evaluate_scans_every_line_once (empty_board 6 7)). vm_compute. reflexivity.
Defined.

Section FloatRounding.
Local Open Scope Z_scope.

Lemma digits2_size p : digits2_pos p = Pos.size p.
Proof. induction p; simpl; congruence. Qed.

Lemma Zdigits2_log2 m : 0 < m -> Zdigits2 m = Z.log2 m + 1.
Proof.
  destruct m as [|p|p]; try lia. intros _. simpl. rewrite digits2_size.
  destruct p; simpl; lia.
Qed.

Lemma Zdigits2_nonneg m : 0 <= Zdigits2 m.
Proof. destruct m; simpl; lia. Qed.

Lemma Zdigits2_opp m : Zdigits2 (- m) = Zdigits2 m.
Proof. by destruct m. Qed.

Lemma Zdigits2_mono a b : 0 <= a <= b -> Zdigits2 a <= Zdigits2 b.
Proof.
  intros H. destruct (Z.eq_dec a 0) as [->|Ha]; [apply Zdigits2_nonneg|].
  rewrite !Zdigits2_log2 by lia. pose proof (Z.log2_le_mono a b). lia.
Qed.

Lemma Zdigits2_succ a : 0 <= a -> Zdigits2 (a + 1) <= Zdigits2 a + 1.
Proof.
  intros H. destruct (Z.eq_dec a 0) as [->|Ha]; [simpl; lia|].
  rewrite !Zdigits2_log2 by lia. pose proof (Z.log2_succ_le a).
  replace (Z.succ a) with (a + 1) in * by lia. lia.
Qed.

Lemma Zdigits2_double a : 0 < a -> Zdigits2 (2 * a) = Zdigits2 a + 1.
Proof. intros H. rewrite !Zdigits2_log2 by lia. rewrite Z.log2_double by lia. lia. Qed.

Lemma Zdigits2_add a b :
  0 <= a -> 0 <= b -> Zdigits2 (a + b) <= Z.max (Zdigits2 a) (Zdigits2 b) + 1.
Proof.
  intros Ha Hb. destruct (Z.eq_dec (Z.max a b) 0) as [E|E].
  { replace a with 0 by lia. replace b with 0 by lia. simpl. lia. }
  pose proof (Zdigits2_mono (a + b) (2 * Z.max a b)) as H1.
  rewrite Zdigits2_double in H1 by lia.
  pose proof (Zdigits2_mono a (Z.max a b)). pose proof (Zdigits2_mono b (Z.max a b)).
  destruct (Z.max_spec a b) as [[? E']|[? E']]; rewrite E' in *; lia.
Qed.

Lemma Zdigits2_mul a b :
  0 < a -> 0 < b ->
  Zdigits2 a + Zdigits2 b - 1 <= Zdigits2 (a * b) <= Zdigits2 a + Zdigits2 b.
Proof.
  intros Ha Hb. rewrite !Zdigits2_log2 by nia.
  pose proof (Z.log2_mul_below a b Ha Hb).
  pose proof (Z.log2_mul_above a b). lia.
Qed.

Lemma digits2_iter_xO m d :
  digits2_pos (Pos.iter xO m d) = (digits2_pos m + d)%positive.
Proof.
  induction d as [|d IH] using Pos.peano_ind.
  - simpl. lia.
  - rewrite Pos.iter_succ. simpl. rewrite IH. lia.
Qed.

Lemma shr_1_digits r :
  0 <= shr_m r ->
  0 <= shr_m (shr_1 r)
  /\ Zdigits2 (shr_m (shr_1 r)) = Z.max (Zdigits2 (shr_m r) - 1) 0.
Proof.
  destruct r as [m r s]. simpl. destruct m as [|p|p]; [simpl; lia| |lia].
  intros _. destruct p; simpl; lia.
Qed.

Lemma iter_shr_digits p : forall r,
  0 <= shr_m r ->
  0 <= shr_m (SpecFloat.iter_pos shr_1 p r)
  /\ Zdigits2 (shr_m (SpecFloat.iter_pos shr_1 p r)) = Z.max (Zdigits2 (shr_m r) - Zpos p) 0.
Proof.
  induction p as [p IH|p IH|]; intros r Hr; simpl.
  - destruct (shr_1_digits r Hr) as [H1 E1].
    destruct (IH _ H1) as [H2 E2]. destruct (IH _ H2) as [H3 E3].
    split; [done|]. pose proof (Zdigits2_nonneg (shr_m r)). lia.
  - destruct (IH _ Hr) as [H2 E2]. destruct (IH _ H2) as [H3 E3].
    split; [done|]. pose proof (Zdigits2_nonneg (shr_m r)). lia.
  - destruct (shr_1_digits r Hr) as [H1 E1]. split; [done|]. lia.
Qed.

Lemma shr_record_of_loc_m m l : shr_m (shr_record_of_loc m l) = m.
Proof. destruct l as [|[]]; reflexivity. Qed.

(** One shift to the exponent of the format: the exponent it ends at, and
    the digits that are left. *)
Lemma shr_fexp_digits m e l :
  0 <= m ->
  let f := fexp prec emax (Zdigits2 m + e) in
  let '(mrs, e') := shr_fexp prec emax m e l in
  0 <= shr_m mrs
  /\ ((f <= e /\ e' = e /\ shr_m mrs = m)
      \/ (e < f /\ e' = f /\ Zdigits2 (shr_m mrs) = Z.max (Zdigits2 m - (f - e)) 0)).
Proof.
  intros Hm. simpl. unfold shr_fexp, shr.
  destruct (fexp prec emax (Zdigits2 m + e) - e) as [|p|p] eqn:E.
  - rewrite shr_record_of_loc_m. split; [done|]. left. lia.
  - destruct (iter_shr_digits p (shr_record_of_loc m l)) as [H1 H2].
    { by rewrite shr_record_of_loc_m. }
    rewrite shr_record_of_loc_m in H2. split; [done|]. right. lia.
  - rewrite shr_record_of_loc_m. split; [done|]. left. lia.
Qed.

Lemma round_nearest_even_bounds m l :
  m <= round_nearest_even m l <= m + 1.
Proof. destruct l as [|[]]; simpl; try lia. destruct (Z.even m); lia. Qed.

(** Rounding a mantissa at or below the exponent of the format gives a
    finite float, one binary digit above the input at most. *)
Lemma binary_round_aux_small s m e l K :
  0 <= m -> Zdigits2 m + e <= K -> e <= fexp prec emax (Zdigits2 m + e) ->
  0 <= K -> K + 1 <= emax ->
  sf_small (K + 1) (binary_round_aux prec emax s m e l).
Proof.
  intros Hm HK He HK0 HKmax. unfold binary_round_aux.
  pose proof (shr_fexp_digits m e l Hm) as H1. simpl in H1.
  destruct (shr_fexp prec emax m e l) as [mrs1 e1].
  destruct H1 as [Hm1 H1].
  pose proof (round_nearest_even_bounds (shr_m mrs1) (loc_of_shr_record mrs1)) as Hr.
  set (m2 := round_nearest_even (shr_m mrs1) (loc_of_shr_record mrs1)) in *.
  assert (0 <= m2) as Hm2 by lia.
  assert (Zdigits2 m2 <= Zdigits2 (shr_m mrs1) + 1) as Hd2.
  { etransitivity; [apply (Zdigits2_mono m2 (shr_m mrs1 + 1)); lia|].
    by apply Zdigits2_succ. }
  pose proof (Zdigits2_nonneg m2) as Hd2'.
  pose proof (shr_fexp_digits m2 e1 loc_Exact Hm2) as H2. simpl in H2.
  destruct (shr_fexp prec emax m2 e1 loc_Exact) as [mrs2 e2].
  destruct H2 as [Hm3 H2].
  pose proof (Zdigits2_nonneg m) as Hd.
  pose proof (Zdigits2_nonneg (shr_m mrs1)) as Hd1.
  assert (e2 <= emax - prec /\ Zdigits2 (shr_m mrs2) + e2 <= K + 1) as [Hle Hsmall].
  { unfold fexp, emin, prec, emax in *.
    destruct H1 as [(? & ? & E1)|(? & ? & E1)], H2 as [(? & ? & E2)|(? & ? & E2)];
      try rewrite E2; try rewrite E1 in *; lia. }
  destruct (shr_m mrs2) as [|p|p]; [done| |lia].
  apply Z.leb_le in Hle. rewrite Hle. exact Hsmall.
Qed.

Lemma binary_round_small s m e K :
  Zpos (digits2_pos m) + e <= K -> 0 <= K -> K + 1 <= emax ->
  sf_small (K + 1) (binary_round prec emax s m e).
Proof.
  intros HK HK0 HKmax. unfold binary_round, shl_align.
  destruct (fexp prec emax (Zpos (digits2_pos m) + e) - e) as [|p|p] eqn:E.
  - apply binary_round_aux_small; simpl; lia.
  - apply binary_round_aux_small; simpl; lia.
  - apply binary_round_aux_small; simpl; try lia.
    + rewrite digits2_iter_xO. lia.
    + rewrite digits2_iter_xO.
      replace (Zpos (digits2_pos m + p) + fexp prec emax (Zpos (digits2_pos m) + e))
        with (Zpos (digits2_pos m) + e) by lia.
      lia.
Qed.

Lemma binary_normalize_small m e K :
  Zdigits2 m + e <= K -> 0 <= K -> K + 1 <= emax ->
  sf_small (K + 1) (binary_normalize prec emax m e false).
Proof.
  intros HK HK0 HKmax. destruct m as [|p|p]; simpl; [done| |];
    by apply binary_round_small.
Qed.

End FloatRounding.

Section FloatOperations.
Local Open Scope Z_scope.

Lemma sf_small_mono K K' x : K <= K' -> sf_small K x -> sf_small K' x.
Proof. destruct x; simpl; try done. lia. Qed.

Lemma valid_finite s m e :
  valid_binary (S754_finite s m e) = true ->
  fexp prec emax (Zpos (digits2_pos m) + e) = e /\ e <= emax - prec.
Proof.
  simpl. unfold bounded, canonical_mantissa. intros H.
  apply andb_true_iff in H as [H1 H2]. apply Z.eqb_eq in H1. apply Z.leb_le in H2. done.
Qed.

Lemma SFmul_small x y Kx Ky :
  valid_binary x = true -> valid_binary y = true ->
  sf_small Kx x -> sf_small Ky y -> 0 <= Kx + Ky -> Kx + Ky + 1 <= emax ->
  sf_small (Kx + Ky + 1) (SF64mul x y).
Proof.
  intros Vx Vy Hx Hy H0 Hmax.
  destruct x as [sx|sx| |sx mx ex], y as [sy|sy| |sy my ey]; simpl in Hx, Hy; try done.
  unfold SF64mul, SFmul.
  apply valid_finite in Vx as [Cx _]. apply valid_finite in Vy as [Cy _].
  pose proof (Zdigits2_mul (Zpos mx) (Zpos my)) as Hd. simpl in Hd.
  apply binary_round_aux_small; simpl; try lia.
  unfold fexp, emin, prec, emax in *. lia.
Qed.

Lemma shl_align_digits m e e' :
  e' <= e ->
  Zpos (digits2_pos (shl_align m e e').1) + e' = Zpos (digits2_pos m) + e.
Proof.
  intros H. unfold shl_align. destruct (e' - e) as [|p|p] eqn:E; simpl; try lia.
  rewrite digits2_iter_xO. lia.
Qed.

Lemma Zdigits2_signed_sum (sx sy : bool) a b :
  0 <= a -> 0 <= b ->
  Zdigits2 (cond_Zopp sx a + cond_Zopp sy b) <= Z.max (Zdigits2 a) (Zdigits2 b) + 1.
Proof.
  intros Ha Hb. etransitivity; [|by apply Zdigits2_add].
  set (z := cond_Zopp sx a + cond_Zopp sy b).
  assert (Z.abs z <= a + b) as Hz by (subst z; destruct sx, sy; simpl; lia).
  assert (Zdigits2 z = Zdigits2 (Z.abs z)) as ->.
  { destruct (Z.abs_spec z) as [[_ ->]|[_ ->]]; [done|by rewrite Zdigits2_opp]. }
  apply Zdigits2_mono. lia.
Qed.

Lemma SFadd_small x y K :
  sf_small K x -> sf_small K y -> 0 <= K -> K + 2 <= emax ->
  sf_small (K + 2) (SF64add x y).
Proof.
  intros Hx Hy H0 Hmax.
  destruct x as [sx|sx| |sx mx ex], y as [sy|sy| |sy my ey]; simpl in Hx, Hy; try done.
  - unfold SF64add, SFadd. by destruct sx, sy.
  - simpl. lia.
  - simpl. lia.
  - unfold SF64add, SFadd.
    pose proof (shl_align_digits mx ex (Z.min ex ey) ltac:(lia)) as Ex.
    pose proof (shl_align_digits my ey (Z.min ex ey) ltac:(lia)) as Ey.
    pose proof (Zdigits2_signed_sum sx sy (Zpos (shl_align mx ex (Z.min ex ey)).1)
                  (Zpos (shl_align my ey (Z.min ex ey)).1) ltac:(lia) ltac:(lia)) as Hs.
    simpl in Hs.
    replace (K + 2) with (K + 1 + 1) by lia.
    apply binary_normalize_small; unfold emax in *; [|lia|lia].
    revert Ex Ey Hs.
    generalize (Z.pos (digits2_pos (shl_align mx ex (Z.min ex ey)).1)).
    generalize (Z.pos (digits2_pos (shl_align my ey (Z.min ex ey)).1)).
    generalize (Zdigits2 (cond_Zopp sx (Z.pos (shl_align mx ex (Z.min ex ey)).1) +
                          cond_Zopp sy (Z.pos (shl_align my ey (Z.min ex ey)).1))).
    intros. lia.
Qed.

Lemma small_mono K K' x : K <= K' -> small K x -> small K' x.
Proof. apply sf_small_mono. Qed.

Lemma small_mul x y Kx Ky :
  small Kx x -> small Ky y -> 0 <= Kx + Ky -> Kx + Ky + 1 <= emax ->
  small (Kx + Ky + 1) (x * y)%float.
Proof.
  unfold small. rewrite FloatAxioms.mul_spec. apply SFmul_small; apply Prim2SF_valid.
Qed.

Lemma small_add x y K :
  small K x -> small K y -> 0 <= K -> K + 2 <= emax -> small (K + 2) (x + y)%float.
Proof. unfold small. rewrite FloatAxioms.add_spec. apply SFadd_small. Qed.

Lemma small_of_uint63 z k :
  0 < z < 2 ^ k -> 0 <= k <= 62 ->
  small (k + 1) (PrimFloat.of_uint63 (Uint63.of_Z z)).
Proof.
  intros Hz Hk. unfold small. rewrite FloatAxioms.of_uint63_spec, Uint63.of_Z_spec.
  assert (2 ^ k <= 2 ^ 62) by (apply Z.pow_le_mono_r; lia).
  rewrite Z.mod_small by (change wB with (2 ^ 63); lia).
  apply binary_normalize_small; unfold emax; try lia.
  rewrite Zdigits2_log2 by lia. pose proof (proj1 (Z.log2_lt_pow2 z k ltac:(lia))). lia.
Qed.

Lemma small_float_of_Z z k :
  Z.abs z < 2 ^ k -> 0 <= k <= 62 -> small (k + 1) (float_of_Z z).
Proof.
  intros Hz Hk. destruct z as [|p|p]; unfold float_of_Z.
  - exact I.
  - apply small_of_uint63; lia.
  - unfold small. rewrite FloatAxioms.opp_spec.
    pose proof (small_of_uint63 (- Zneg p) k ltac:(lia) Hk) as H. unfold small in H.
    destruct (Prim2SF _); done.
Qed.

Lemma small_probabilities_hold : small_probabilities = true.
Proof. vm_compute. reflexivity. Qed.

Lemma small_probability n :
  (1 <= n <= 512)%nat ->
  small 1 (PrimFloat.div (float_of_Z 1) (float_of_Z (Z.of_nat n))).
Proof.
  intros Hn. pose proof small_probabilities_hold as H. unfold small_probabilities in H.
  rewrite forallb_forall in H. specialize (H n). unfold small.
  destruct (Prim2SF _) as [| | |[] m e]; try (discriminate H; apply in_seq; lia).
  simpl. apply Z.leb_le, H, in_seq. lia.
Qed.

Lemma small_above_neg_infinity K x :
  small K x -> PrimFloat.ltb PrimFloat.neg_infinity x = true.
Proof.
  unfold small. rewrite FloatAxioms.ltb_spec.
  change (Prim2SF PrimFloat.neg_infinity) with (S754_infinity true).
  destruct (Prim2SF x) as [s|s| |s m e]; simpl; try done.
Qed.

Lemma SFltb_key x y :
  x <> S754_nan -> y <> S754_nan -> (SFltb x y = true <-> key_lt (sf_key x) (sf_key y)).
Proof.
  intros Hx Hy. unfold SFltb, key_lt.
  destruct x as [sx|sx| |sx mx ex], y as [sy|sy| |sy my ey]; try done;
    try destruct sx; try destruct sy; simpl; try (split; [discriminate|lia]);
    try (split; [lia|done]).
  - destruct (Z.compare_spec ex ey); simpl; try (split; [discriminate|lia]);
      try (split; [lia|done]).
    change (Pos.compare_cont Eq mx my) with (mx ?= my)%positive.
    destruct (Pos.compare_spec mx my); simpl; try (split; [discriminate|lia]);
      try (split; [lia|done]).
  - destruct (Z.compare_spec ex ey); simpl; try (split; [discriminate|lia]);
      try (split; [lia|done]).
    change (Pos.compare_cont Eq mx my) with (mx ?= my)%positive.
    destruct (Pos.compare_spec mx my); simpl; try (split; [discriminate|lia]);
      try (split; [lia|done]).
Qed.

Lemma SFltb_nan_l y : SFltb S754_nan y = false.
Proof. by destruct y. Qed.

Lemma SFltb_nan_r x : SFltb x S754_nan = false.
Proof. by destruct x. Qed.

Lemma SFltb_asym x y : SFltb y x = true -> SFltb x y = false.
Proof.
  intros H. destruct (SFltb x y) eqn:E; [|done].
  assert (x <> S754_nan) as Hx by (intros ->; by rewrite SFltb_nan_r in H).
  assert (y <> S754_nan) as Hy by (intros ->; by rewrite SFltb_nan_l in H).
  apply SFltb_key in H; [|done|done]. apply SFltb_key in E; [|done|done].
  unfold key_lt in *. lia.
Qed.

Lemma float_gt_asym (a b : float) :
  PrimFloat.ltb b a = true -> PrimFloat.ltb a b = false.
Proof. rewrite !FloatAxioms.ltb_spec. apply SFltb_asym. Qed.

Lemma float_gt_irrefl (a : float) : PrimFloat.ltb a a = false.
Proof.
  destruct (PrimFloat.ltb a a) eqn:E; [|done]. by rewrite (float_gt_asym a a E) in E.
Qed.

Lemma float_gt_cotrans (a b c : float) :
  Prim2SF c <> S754_nan ->
  PrimFloat.ltb b a = true -> PrimFloat.ltb c a = true \/ PrimFloat.ltb b c = true.
Proof.
  rewrite !FloatAxioms.ltb_spec. intros Hc H.
  assert (Prim2SF a <> S754_nan) as Ha by (intros E; by rewrite E, SFltb_nan_r in H).
  assert (Prim2SF b <> S754_nan) as Hb by (intros E; by rewrite E, SFltb_nan_l in H).
  rewrite !SFltb_key in * by done. unfold key_lt in *. lia.
Qed.

End FloatOperations.

Lemma wf_board_spec b :
  wf_board b = true
  <-> length (grid b) = rows b /\ Forall (fun rw => length rw = cols b) (grid b).
Proof.
  unfold wf_board. rewrite andb_true_iff, bool_decide_eq_true, forallb_forall, Forall_forall.
  split; intros [H1 H2]; (split; [done|]); intros rw Hrw.
  - apply list_elem_of_In, H2 in Hrw. by apply bool_decide_eq_true in Hrw.
  - apply bool_decide_eq_true, H2. by apply list_elem_of_In.
Qed.

Lemma wf_set_cell b r c v : wf_board b = true -> wf_board (set_cell b r c v) = true.
Proof.
  rewrite !wf_board_spec. unfold set_cell. simpl. intros [H1 H2]. split.
  - by rewrite length_alter.
  - apply Forall_alter; [done|]. intros rw _ Hrw. by rewrite length_insert.
Qed.

Lemma child_shape p b c b' :
  (c, b') ∈ children p b ->
  rows b' = rows b /\ cols b' = cols b /\ (wf_board b = true -> wf_board b' = true).
Proof.
  intros Hin. apply elem_of_children in Hin as (_ & _ & Hp).
  apply place_inv in Hp as (r & _ & _ & ->). split; [done|]. split; [done|].
  apply wf_set_cell.
Qed.

Lemma omap_length_le {A B} (f : A -> option B) (l : list A) :
  length (omap f l) <= length l.
Proof.
  induction l as [|x l IH]; [done|].
  change (omap f (x :: l))
    with (match f x with Some y => y :: omap f l | None => omap f l end).
  destruct (f x); simpl; lia.
Qed.

Lemma children_length p b : length (children p b) <= cols b.
Proof.
  unfold children. etransitivity; [apply omap_length_le|]. by rewrite length_seq.
Qed.

Lemma length_flat_map_map {A} (g : nat -> nat -> A) n m :
  length (flat_map (fun r => map (g r) (seq 0 n)) (seq 0 m)) = m * n.
Proof.
  rewrite (flat_map_constant_length (c := n)).
  - by rewrite length_seq.
  - intros r _. by rewrite length_map, length_seq.
Qed.

Lemma lines_length b : wf_board b = true -> length (lines b) <= 4 * (rows b * cols b).
Proof.
  intros wf. unfold lines. simpl. rewrite !(lines_direction b wf), app_nil_r.
  rewrite !length_app, !length_flat_map_map. simpl. nia.
Qed.

Lemma evaluate_abs_le p b :
  wf_board b = true ->
  (Z.abs (evaluate p b) <= 4000 * Z.of_nat (rows b) * Z.of_nat (cols b))%Z.
Proof.
  intros wf. pose proof (evaluate_le p b). pose proof (evaluate_le (opponent p) b).
  pose proof (evaluate_opponent p b).
  pose proof (Permutation_length (valid_segments_lines b wf)) as E.
  pose proof (lines_length b wf). nia.
Qed.

Section FloatScores.
Local Open Scope Z_scope.

Lemma float_safe_spec b :
  float_safe b = true ->
  wf_board b = true
  /\ 4000 * Z.of_nat (rows b) * Z.of_nat (cols b) < 2 ^ 60
  /\ float_bound b <= 1020.
Proof.
  unfold float_safe. rewrite !andb_true_iff. intros [[H1 H2] H3].
  apply Z.ltb_lt in H2. apply Z.leb_le in H3. done.
Qed.

Lemma float_safe_child p b c b' :
  (c, b') ∈ children p b -> float_safe b = true ->
  float_safe b' = true
  /\ float_bound b' = float_bound b - (2 * Z.of_nat (cols b) + 2).
Proof.
  intros Hin Hs. apply float_safe_spec in Hs as (wf & Hsize & Hb).
  destruct (child_shape _ _ _ _ Hin) as (Er & Ec & Hwf).
  pose proof (empty_cells_child _ _ _ _ Hin) as Ee.
  assert (float_bound b' = float_bound b - (2 * Z.of_nat (cols b) + 2)) as Eb.
  { unfold float_bound. rewrite Er, Ec. nia. }
  split; [|done]. unfold float_safe. rewrite !andb_true_iff. split; [split|].
  - by apply Hwf.
  - apply Z.ltb_lt. by rewrite Er, Ec.
  - apply Z.leb_le. lia.
Qed.

Lemma float_bound_base b :
  0 <= Z.log2 (4000 * Z.of_nat (rows b) * Z.of_nat (cols b)) + 2 <= float_bound b.
Proof.
  unfold float_bound. pose proof (Z.log2_nonneg (4000 * Z.of_nat (rows b) * Z.of_nat (cols b))).
  nia.
Qed.

(** The score of a base case. *)
Lemma small_leaf p b :
  float_safe b = true -> small (float_bound b) (float_of_Z (evaluate p b)).
Proof.
  intros Hs. apply float_safe_spec in Hs as (wf & Hsize & Hb).
  pose proof (evaluate_abs_le p b wf) as Hev.
  pose proof (float_bound_base b) as [_ Hbase].
  set (B := 4000 * Z.of_nat (rows b) * Z.of_nat (cols b)) in *.
  apply (small_mono (Z.log2 B + 1 + 1)); [lia|].
  assert (0 <= B) as HB by (subst B; lia).
  apply small_float_of_Z.
  - destruct (Z.eq_dec B 0) as [E|E].
    + rewrite E in *. simpl. lia.
    + pose proof (Z.log2_spec B ltac:(lia)). rewrite Z.add_1_r. lia.
  - split; [pose proof (Z.log2_nonneg B); lia|].
    destruct (Z.eq_dec B 0) as [E|E]; [rewrite E; simpl; lia|].
    pose proof (proj1 (Z.log2_lt_pow2 B 60 ltac:(lia)) Hsize). lia.
Qed.

Lemma small_max K (x m : float) :
  small K x -> m = neg_inf \/ small K m -> small K (if fgt x m then x else m).
Proof.
  intros Hx [->|Hm].
  - simpl. by rewrite (small_above_neg_infinity K x Hx).
  - by destruct (fgt x m).
Qed.

Lemma float_max_loop_small K rec children : forall m,
  Forall (fun ch : nat * Board => exists x, rec ch.2 = Done x /\ small K x) children ->
  m = neg_inf \/ small K m ->
  exists r, Expectimax.max_loop (F:=float) rec children m = Done r
            /\ (children <> [] \/ small K m -> small K r).
Proof.
  induction children as [|[c ch] rest IH]; intros m Hall Hm; simpl.
  - exists m. split; [done|]. intros [?|?]; [congruence|done].
  - apply Forall_cons_1 in Hall as [(x & Hx & Gx) Hall]. simpl in Hx. rewrite Hx.
    pose proof (small_max K x m Gx Hm) as Gm.
    destruct (IH (if fgt x m then x else m) Hall (or_intror Gm)) as (r & Hr & G).
    exists r. split; [done|]. intros _. apply G. by right.
Qed.

(** The loop of an expectation node: every term adds two binary digits to
    the bound at most. *)
Lemma float_sum_loop_small K prob rec children : forall total T,
  Forall (fun ch : nat * Board => exists x, rec ch.2 = Done x /\ small K x) children ->
  small 1 prob -> small T total -> 0 <= K -> K + 2 <= T ->
  T + 2 * Z.of_nat (length children) <= 1024 ->
  exists r, Expectimax.sum_loop (F:=float) rec children prob total = Done r
            /\ small (T + 2 * Z.of_nat (length children)) r.
Proof.
  induction children as [|[c ch] rest IH]; intros total T Hall Hp Ht HK HT Hmax; simpl.
  - exists total. split; [done|]. by rewrite Z.add_0_r.
  - apply Forall_cons_1 in Hall as [(x & Hx & Gx) Hall]. simpl in Hx. rewrite Hx.
    simpl length in Hmax.
    assert (small T (prob * x)%float) as Hterm.
    { apply (small_mono (1 + K + 1)); [lia|]. apply small_mul; unfold emax; auto; lia. }
    assert (small (T + 2) (total + prob * x)%float) as Hsum.
    { apply small_add; unfold emax; auto; lia. }
    destruct (IH _ (T + 2) Hall Hp Hsum HK ltac:(lia) ltac:(lia)) as (r & Hr & G).
    exists r. split; [exact Hr|].
    replace (T + 2 * Z.of_nat (S (length rest)))
      with (T + 2 + 2 * Z.of_nat (length rest)) by lia.
    exact G.
Qed.

(** On a safe board every score of [expectimax] is a finite float within the
    bound of the board. *)
Lemma float_value_small mp fuel : forall cp b d,
  float_safe b = true -> (empty_cells b < fuel)%nat ->
  exists x, Expectimax.value (F:=float) mp fuel cp b d = Done x
            /\ small (float_bound b) x.
Proof.
  induction fuel as [|fuel IH]; intros cp b d Hs Hf; [lia|].
  rewrite ex_value_S. destruct (terminal b) eqn:T; simpl.
  { eexists. split; [done|]. by apply small_leaf. }
  destruct (d =? 0)%Z.
  { eexists. split; [done|]. by apply small_leaf. }
  pose proof (not_terminal_children cp b T) as Hne.
  pose proof (not_terminal_empty_cells b T) as He.
  pose proof (children_length cp b) as Hlen.
  pose proof (float_bound_base b) as [Hb0 Hb1].
  pose proof (float_safe_spec b Hs) as (_ & _ & Hb).
  set (Kc := float_bound b - (2 * Z.of_nat (cols b) + 2)).
  assert (Forall (fun ch : nat * Board => exists x,
            (fun child => Expectimax.value (F:=float) mp fuel (opponent cp) child (d - 1)) ch.2
            = Done x /\ small Kc x) (children cp b)) as Hall.
  { apply children_Forall. intros c b' Hin. simpl.
    destruct (float_safe_child _ _ _ _ Hin Hs) as [Hs' Eb].
    destruct (IH (opponent cp) b' (d - 1) Hs') as (x & Hx & Gx).
    { apply empty_cells_child in Hin. lia. }
    exists x. split; [done|]. subst Kc. by rewrite <- Eb. }
  assert (0 <= Kc) as HKc.
  { subst Kc. unfold float_bound in *. nia. }
  destruct (bool_decide (cp = mp)).
  - unfold Expectimax.max_value. rewrite get_child_boards_children. simpl.
    destruct (float_max_loop_small Kc _ _ neg_inf Hall (or_introl eq_refl))
      as (r & Hr1 & Hr).
    exists r. split; [exact Hr1|]. apply (small_mono Kc); [subst Kc; lia|].
    apply Hr. by left.
  - unfold Expectimax.expected_value. rewrite get_child_boards_children. simpl.
    destruct (children cp b) as [|ch rest] eqn:E; [done|]. rewrite <- E in *.
    assert (length (children cp b) <> 0)%nat as Hn by (rewrite E; done).
    assert (2 * Z.of_nat (cols b) + 2 <= 1020) as Hcols.
    { unfold float_bound in *. nia. }
    destruct (float_sum_loop_small Kc
                (PrimFloat.div (float_of_Z 1) (float_of_Z (Z.of_nat (length (children cp b)))))
                (fun child => Expectimax.value (F:=float) mp fuel (opponent cp) child (d - 1))
                _ (float_of_Z 0) (Kc + 2) Hall) as (r & Hr & G).
    + apply small_probability. lia.
    + exact I.
    + done.
    + lia.
    + subst Kc. lia.
    + exists r. split; [exact Hr|]. eapply small_mono; [|exact G]. subst Kc. lia.
Qed.

End FloatScores.

Lemma small_ordered K x : small K x -> ordered x.
Proof. unfold small, ordered. intros H E. by rewrite E in H. Qed.

Lemma neg_infinity_ordered : ordered PrimFloat.neg_infinity.
Proof. unfold ordered. by vm_compute. Qed.

(** The loop invariant of a top level whose scores can all be compared. *)
Section SelectionOn.
Context {S : Type} (gt : S -> S -> bool) (dom : S -> Prop).
Hypothesis gt_asym : forall a b, gt a b = true -> gt b a = false.
Hypothesis gt_cotrans : forall a b c,
  dom c -> gt a b = true -> gt a c = true \/ gt c b = true.

Lemma selected_step_on init scored placement best c s :
  dom init -> Forall (fun x => dom x.2) scored ->
  selected gt init scored placement best ->
  selected gt init (scored ++ [(c, s)])
    (if gt s best then Some c else placement)
    (if gt s best then s else best).
Proof.
  intros Dinit Dall Hsel.
  assert (forall x, dom x -> gt s best = true -> gt best x = true -> gt s x = true)
    as Htrans.
  { intros x Dx H1 H2. destruct (gt_cotrans _ _ x Dx H1) as [H|H]; [done|].
    apply gt_asym in H2. congruence. }
  assert (forall x, dom x -> gt s best = true -> gt x best = false -> gt s x = true)
    as Hletrans.
  { intros x Dx H1 H2. destruct (gt_cotrans _ _ x Dx H1) as [H|H]; [done|congruence]. }
  destruct (gt s best) eqn:E.
  - destruct placement as [c0|]; simpl in *.
    + destruct Hsel as [(pre & post & -> & Hpre & Hpost) Hinit].
      apply Forall_app in Dall as [Dpre Dpost].
      apply Forall_cons_1 in Dpost as [_ Dpost]. split.
      * exists (pre ++ (c0, best) :: post), []. split; [done|]. split; [|constructor].
        apply Forall_app. split; [|constructor; [done|]].
        -- rewrite Forall_forall in *. intros x Hx. apply Htrans; auto.
        -- rewrite Forall_forall in *. intros x Hx. apply Hletrans; auto.
      * apply Htrans; auto.
    + destruct Hsel as [-> Hall]. split.
      * exists scored, []. split; [done|]. split; [|constructor].
        rewrite Forall_forall in *. intros x Hx. apply Hletrans; auto.
      * done.
  - destruct placement as [c0|]; simpl in *.
    + destruct Hsel as [(pre & post & -> & Hpre & Hpost) Hinit]. split; [|done].
      exists pre, (post ++ [(c, s)]). split; [by rewrite <- app_assoc|].
      split; [done|]. apply Forall_app. split; [done|]. constructor; [done|constructor].
    + destruct Hsel as [-> Hall]. split; [done|].
      apply Forall_app. split; [done|]. constructor; [done|constructor].
Qed.
End SelectionOn.

Lemma float_top_loop_selected rec children : forall scored,
  scores_of rec children scored ->
  Forall (fun x => ordered x.2) scored ->
  forall seen placement best,
    Forall (fun x => ordered x.2) seen ->
    selected (fgt (F:=float)) neg_inf seen placement best ->
    exists placement' best',
      Expectimax.top_loop (F:=float) rec children placement best
      = Done (placement', best')
      /\ selected (fgt (F:=float)) neg_inf (seen ++ scored) placement' best'.
Proof.
  intros scored H0. induction H0 as [|[c ch] [c' s] rest scored [Hc Hs] _ IH];
    intros Dall seen placement best Dseen Hsel; simpl in *.
  - rewrite app_nil_r. eauto.
  - subst c'. rewrite Hs. simpl.
    apply Forall_cons_1 in Dall as [Ds Dall].
    pose proof (selected_step_on (fgt (F:=float)) ordered
                  (fun a b => float_gt_asym a b)
                  (fun a b c Dc => float_gt_cotrans a b c Dc)
                  _ _ _ _ c s neg_infinity_ordered Dseen Hsel) as Hstep.
    replace (seen ++ (c, s) :: scored) with ((seen ++ [(c, s)]) ++ scored)
      by (by rewrite <- app_assoc).
    assert (Forall (fun x : nat * float => ordered x.2) (seen ++ [(c, s)])) as Dseen'.
    { apply Forall_app. split; [done|]. by constructor. }
    simpl in Hstep.
    destruct (PrimFloat.ltb best s); by apply IH.
Qed.

Lemma scores_of_exists {S} (rec : Board -> outcome S) children :
  Forall (fun ch : nat * Board => exists x, rec ch.2 = Done x) children ->
  exists scored, scores_of rec children scored.
Proof.
  induction 1 as [|[c ch] rest [x Hx] _ [scored Hs]].
  - exists []. constructor.
  - exists ((c, x) :: scored). constructor; auto.
Qed.

Lemma scores_of_inj {S} (rec : Board -> outcome S) children scored scored' :
  scores_of rec children scored -> scores_of rec children scored' -> scored = scored'.
Proof.
  intros H. revert scored'. induction H as [|ch [c s] rest scored [E1 E2] _ IH];
    intros scored' H'; inversion H' as [|? [c' s'] ? ? [E1' E2'] Hrest]; subst; [done|].
  simpl in *. f_equal; [|by apply IH]. f_equal; congruence.
Qed.

(** The final placement of a top-level loop is the one it started from or
    the column of a successor. *)
Lemma ex_top_loop_placement {F} `{Arith F} rec children :
  forall placement (best : F) placement' best',
    Expectimax.top_loop rec children placement best = Done (placement', best') ->
    placement' = placement \/ exists c b', (c, b') ∈ children /\ placement' = Some c.
Proof.
  induction children as [|[c ch] rest IH]; intros placement best pl' best' Hrun;
    simpl in Hrun.
  - inversion Hrun. by left.
  - destruct (rec ch) as [x| |] eqn:E; simpl in Hrun; try discriminate.
    destruct (fgt x best).
    + destruct (IH _ _ _ _ Hrun) as [->|(c' & b' & Hin & ->)].
      * right. exists c, ch. split; [apply elem_of_cons; by left|done].
      * right. exists c', b'. split; [apply elem_of_cons; by right|done].
    + destruct (IH _ _ _ _ Hrun) as [->|(c' & b' & Hin & ->)]; [by left|].
      right. exists c', b'. split; [apply elem_of_cons; by right|done].
Qed.

(** The top level of [expectimax] in the float arithmetic of the code. *)
Lemma expectimax_float_run p b d :
  exists scored placement best,
    scores_of (fun child => Expectimax.value (F:=float) p (search_fuel b)
                              (opponent p) child (d - 1)%Z)
              (children p b) scored
    /\ Expectimax.run (F:=float) (search_fuel b) p b d = Done (placement, best)
    /\ (forall c, placement = Some c -> c < cols b /\ placeable b c = true)
    /\ ((forall c, c < cols b -> placeable b c = false) -> placement = None)
    /\ (float_safe b = true -> chosen (fgt (F:=float)) scored placement best).
Proof.
  assert (Forall (fun ch : nat * Board => exists x,
            (fun child => Expectimax.value (F:=float) p (search_fuel b)
                            (opponent p) child (d - 1)%Z) ch.2 = Done x)
            (children p b)) as Hall.
  { apply children_Forall. intros c b' Hin. simpl. apply ex_value_total.
    apply empty_cells_child in Hin. unfold search_fuel. lia. }
  destruct (scores_of_exists _ _ Hall) as [scored Hs].
  destruct (ex_run_total (F:=float) p b d) as [[pl best] Hrun].
  exists scored, pl, best. split; [done|]. split; [done|].
  pose proof Hrun as Hrun'. unfold Expectimax.run in Hrun'.
  rewrite get_child_boards_children in Hrun'. simpl in Hrun'.
  split; [|split].
  - intros c ->. destruct (ex_top_loop_placement _ _ _ _ _ _ Hrun')
      as [?|(c' & b' & Hin & [= ->])]; [done|].
    apply elem_of_children in Hin as (? & ? & _). done.
  - intros Hno. apply (children_nil p) in Hno. rewrite Hno in Hrun'.
    simpl in Hrun'. by inversion Hrun'.
  - intros Hsafe.
    assert (Forall (fun ch : nat * Board => exists x,
              (fun child => Expectimax.value (F:=float) p (search_fuel b)
                              (opponent p) child (d - 1)%Z) ch.2 = Done x
              /\ small 1024 x) (children p b)) as Hsmall.
    { apply children_Forall. intros c b' Hin. simpl.
      destruct (float_safe_child _ _ _ _ Hin Hsafe) as [Hs' Eb].
      destruct (float_value_small p (search_fuel b) (opponent p) b' (d - 1) Hs')
        as (x & Hx & Gx).
      { apply empty_cells_child in Hin. unfold search_fuel. lia. }
      exists x. split; [done|]. eapply small_mono; [|exact Gx].
      apply float_safe_spec in Hs'. lia. }
    destruct (scores_of_good_exists _ _ _ Hsmall) as (scored' & Hs' & Hf).
    rewrite (scores_of_inj _ _ _ _ Hs Hs') in *.
    destruct (float_top_loop_selected _ _ _ Hs') with (seen := @nil (nat * float))
      (placement := @None nat) (best := neg_inf (F:=float))
      as (pl' & best' & Hrun'' & Hsel).
    { eapply Forall_impl; [exact Hf|]. intros x Hx. exact (small_ordered 1024 _ Hx). }
    { constructor. }
    { split; [done|constructor]. }
    pose proof (eq_trans (eq_sym Hrun'') Hrun') as Heq.
    inversion Heq; subst pl' best'. simpl in Hsel.
    eapply (selected_chosen (fgt (F:=float)) (small 1024)); eauto.
    + intros a c. apply float_gt_asym.
    + intros a. apply float_gt_irrefl.
    + intros x Hx. by apply (small_above_neg_infinity 1024).
    + rewrite (scores_of_fst _ _ _ Hs'). apply children_fst_sorted.
Qed.

Lemma expectimax_float_legal p b d :
  exists r, expectimax float p b d = Done r
    /\ (forall c, r = Some c -> c < cols b /\ placeable b c = true)
    /\ ((forall c, c < cols b -> placeable b c = false) -> r = None)
    /\ (float_safe b = true -> legal_choice b r).
Proof.
  destruct (expectimax_float_run p b d) as (scored & pl & best & Hs & Hrun & H1 & H2 & H3).
  exists pl. unfold expectimax. rewrite Hrun. split; [done|]. split; [done|].
  split; [done|]. intros Hsafe. exact (chosen_legal _ _ _ _ _ _ _ Hs (H3 Hsafe)).
Qed.





(** X3.  With [depth_limit = 0] each strategy still expands the
    successors: they are searched at depth -1, -2, ..., which the test
    [depth == 0] never meets, so the search stops at terminal boards only and
    returns what any depth limit above the number of empty cells returns.
    [minimax] and [alphabeta] return None exactly when no column is
    placeable, and a placeable column otherwise; so does [expectimax], in the
    binary64 arithmetic of the code, on the boards where its scores cannot
    overflow ([float_safe]), and on every board the column it returns is
    placeable. *)
Theorem depth_zero_searches_to_the_end (player : player) (board : Board) :
  (exists r, minimax player board 0 = Done r /\ legal_choice board r)
  /\ (exists r, alphabeta player board 0 = Done r /\ legal_choice board r)
  /\ (exists r, expectimax float player board 0 = Done r
                /\ (forall c, r = Some c -> c < cols board /\ placeable board c = true)
                /\ ((forall c, c < cols board -> placeable board c = false) -> r = None)
                /\ (float_safe board = true -> legal_choice board r))
  /\ (forall d, unbounded_limit board d ->
      minimax player board d = minimax player board 0
      /\ alphabeta player board d = alphabeta player board 0
      /\ expectimax float player board d = expectimax float player board 0).
Proof.
  destruct (minimax_chosen player board 0) as (sc & pl & best & Hs & Hrun & Hch).
  pose proof (ab_run_ok _ _ _ _ _ Hrun) as Hab.
  split; [|split; [|split]].
  - exists pl. unfold minimax. rewrite Hrun. split; [reflexivity|].
    exact (chosen_legal _ _ _ _ _ _ _ Hs Hch).
  - exists pl. unfold alphabeta. rewrite Hab. split; [reflexivity|].
    exact (chosen_legal _ _ _ _ _ _ _ Hs Hch).
  - apply expectimax_float_legal.
  - intros d Hd. assert (unbounded_limit board 0) as H0 by (left; lia).
    unfold minimax, alphabeta, expectimax.
    rewrite (minimax_run_uncut _ player board d 0 Hd H0).
    rewrite (alphabeta_run_uncut _ player board d 0 Hd H0).
    rewrite (expectimax_run_uncut (F:=float) _ player board d 0 Hd H0).
    done.
Qed.

Lemma depth_zero_searches_to_the_end_witness :
  exists r, expectimax float PLAYER1 late_board 0 = Done r /\ legal_choice late_board r.
Proof.
  destruct (depth_zero_searches_to_the_end PLAYER1 late_board)
    as (_ & _ & (r & Hr & _ & _ & Hsafe) & _).
  exists r. split; [exact Hr|]. apply Hsafe. vm_compute. reflexivity.
Defined.
